(** * Minesweeper: the knowledge-based player of [minesweeper.py]

    A shallow embedding of the classes [Minesweeper], [Sentence] and
    [MinesweeperAI], followed by the properties of the inference engine.

    - Python [int] is [Z]; a cell [(i, j)] is a pair of [Z].
    - A Python [set] of cells is a [gset Cell]; looping over a set is a
      fold over [elements], whose order is as unspecified as Python's.
    - [self.knowledge] is a [list] of sentences.  Every entry is a freshly
      built [Sentence] object (no two positions alias), so mutating the
      sentences in place is a position-wise update of the list.
    - A method that mutates [self] returns the new [self]; a method that
      only answers a question returns its answer paired with [self].
    - [while] loops take fuel; exceptions are values of [result]. *)

From stdpp Require Import base numbers option list gmap sets fin_sets strings.
From Stdlib Require Import Ascii.

Local Open Scope Z_scope.

Abbreviation Cell := (Z * Z)%type.

(** ** Outcomes: a value, a Python exception, or a loop that was cut *)

Inductive exn : Type := KeyError | ValueError | IndexError.

Inductive result (A : Type) : Type :=
| OK (a : A)
| Raise (e : exn)
| OutOfFuel.

Arguments OK {A} a.
Arguments Raise {A} e.
Arguments OutOfFuel {A}.

#[global] Instance result_ret : MRet result := λ A a, OK a.

#[global] Instance result_bind : MBind result := λ A B k m,
  match m with
  | OK a => k a
  | Raise e => Raise e
  | OutOfFuel => OutOfFuel
  end.

(** [for x in l: s = body(s, x)], stopping at the first exception. *)
Fixpoint foldM {A S : Type} (body : S → A → result S) (s : S) (l : list A)
  : result S :=
  match l with
  | [] => OK s
  | x :: l' => s' ← body s x; foldM body s' l'
  end.

(** [range(a, b)] *)
Definition range (a b : Z) : list Z := seqZ a (b - a).

(** [l[i]] with Python's negative indices. *)
Definition getitem {A : Type} (l : list A) (i : Z) : result A :=
  let k := if bool_decide (i < 0) then Z.of_nat (length l) + i else i in
  if bool_decide (0 ≤ k) then
    match l !! Z.to_nat k with
    | Some x => OK x
    | None => Raise IndexError
    end
  else Raise IndexError.

(** The pairs [(i, j)] visited by
    [for i in range(cell[0] - 1, cell[0] + 2):
       for j in range(cell[1] - 1, cell[1] + 2):], in order. *)
Definition window (cell : Cell) : list Cell :=
  i ← range (cell.1 - 1) (cell.1 + 2);
  j ← range (cell.2 - 1) (cell.2 + 2);
  [(i, j)].

(** [0 <= i < height and 0 <= j < width] *)
Definition in_bounds (height width : Z) (ij : Cell) : bool :=
  bool_decide (0 ≤ ij.1 ∧ ij.1 < height) && bool_decide (0 ≤ ij.2 ∧ ij.2 < width).

(** [s.remove(x)] on a set raises [KeyError] when [x] is absent. *)
Definition set_remove (x : Cell) (s : gset Cell) : result (gset Cell) :=
  if bool_decide (x ∈ s) then OK (s ∖ {[x]}) else Raise KeyError.

(** [random.choice(seq)] returns [seq[k]] for a draw [k] below [len(seq)];
    the raw draw is reduced into that range. *)
Definition random_choice {A : Type} (draw : nat) (seq : list A) : option A :=
  seq !! (draw `mod` length seq)%nat.

(** [s * n] on a string: [n] copies of [s], none for [n <= 0]. *)
Fixpoint string_repeat (s : string) (n : nat) : string :=
  match n with
  | O => ""
  | S n => s +:+ string_repeat s n
  end.

Definition str_mul (s : string) (n : Z) : string := string_repeat s (Z.to_nat n).

(** The line end that [print] writes after its argument. *)
Definition newline : string := String "010"%char "".

(** ** class Minesweeper *)

Module Minesweeper.

Record t : Type := Build {
  height : Z;
  width : Z;
  board : list (list bool)
}.

(** [is_mine]: [self.board[i][j]] *)
Definition is_mine (self : t) (cell : Cell) : result bool :=
  row ← getitem (board self) cell.1; getitem row cell.2.

Definition nearby_mines_body (self : t) (cell : Cell) (count : Z) (ij : Cell)
  : result Z :=
  if bool_decide (ij = cell) then OK count
  else if in_bounds (height self) (width self) ij then
    b ← is_mine self ij;
    OK (if b : bool then count + 1 else count)
  else OK count.

Definition nearby_mines (self : t) (cell : Cell) : result Z :=
  foldM (nearby_mines_body self cell) 0 (window cell).

(** Ground truth used to state what the player's knowledge means: the
    cell lies on the board and the board holds a mine there. *)
Definition mine_at (self : t) (cell : Cell) : bool :=
  in_bounds (height self) (width self) cell &&
  match is_mine self cell with OK true => true | _ => false end.

End Minesweeper.

(** ** class Sentence *)

Module Sentence.

Record t : Type := Sentence {
  cells : gset Cell;
  count : Z
}.

(** [__eq__] *)
Definition eq (self other : t) : bool :=
  bool_decide (cells self = cells other) && bool_decide (count self = count other).

Definition known_mines (self : t) : gset Cell * t :=
  let known_mines : gset Cell := ∅ in
  if bool_decide (Z.of_nat (size (cells self)) = count self) then
    (foldl (λ known_mines cell, {[cell]} ∪ known_mines) known_mines
           (elements (cells self)), self)
  else (known_mines, self).

Definition known_safes (self : t) : gset Cell * t :=
  let known_safes : gset Cell := ∅ in
  if bool_decide (count self = 0) then
    (foldl (λ known_safes cell, {[cell]} ∪ known_safes) known_safes
           (elements (cells self)), self)
  else (known_safes, self).

Definition mark_mine (cell : Cell) (self : t) : t :=
  if bool_decide (cell ∈ cells self) then
    Sentence (cells self ∖ {[cell]}) (count self + -1)
  else self.

Definition mark_safe (cell : Cell) (self : t) : t :=
  if bool_decide (cell ∈ cells self) then
    Sentence (cells self ∖ {[cell]}) (count self)
  else self.

End Sentence.

(** [x in l] for a list of sentences: some entry is [==] to [x]. *)
Definition contains (x : Sentence.t) (l : list Sentence.t) : bool :=
  existsb (Sentence.eq x) l.

(** [l.remove(x)]: drops the first entry [==] to [x]; [ValueError] if none. *)
Fixpoint list_remove (x : Sentence.t) (l : list Sentence.t)
  : result (list Sentence.t) :=
  match l with
  | [] => Raise ValueError
  | y :: l' =>
      if Sentence.eq y x then OK l'
      else l'' ← list_remove x l'; OK (y :: l'')
  end.

(** ** class MinesweeperAI *)

Module MinesweeperAI.

Record t : Type := Build {
  height : Z;
  width : Z;
  moves_made : gset Cell;
  mines : gset Cell;
  safes : gset Cell;
  knowledge : list Sentence.t
}.

(** [__init__] *)
Definition init (height width : Z) : t :=
  Build height width ∅ ∅ ∅ [].

Definition with_moves_made (m : gset Cell) (self : t) : t :=
  Build (height self) (width self) m (mines self) (safes self) (knowledge self).
Definition with_mines (m : gset Cell) (self : t) : t :=
  Build (height self) (width self) (moves_made self) m (safes self) (knowledge self).
Definition with_safes (s : gset Cell) (self : t) : t :=
  Build (height self) (width self) (moves_made self) (mines self) s (knowledge self).
Definition with_knowledge (kb : list Sentence.t) (self : t) : t :=
  Build (height self) (width self) (moves_made self) (mines self) (safes self) kb.

Definition mark_mine (cell : Cell) (self : t) : t :=
  let self := with_mines ({[cell]} ∪ mines self) self in
  with_knowledge (Sentence.mark_mine cell <$> knowledge self) self.

Definition mark_safe (cell : Cell) (self : t) : t :=
  let self := with_safes ({[cell]} ∪ safes self) self in
  with_knowledge (Sentence.mark_safe cell <$> knowledge self) self.

(** *** [add_knowledge], steps 1 to 3 *)

Definition surrounding_cells (self : t) (cell : Cell) : gset Cell :=
  foldl (λ surrounding_cells ij,
           if bool_decide (ij = cell) then surrounding_cells
           else if in_bounds (height self) (width self) ij
                then {[ij]} ∪ surrounding_cells
                else surrounding_cells)
        ∅ (window cell).

(** Body of [for cell in surrounding_cells:] on the pair
    [(sentence_cells, sentence_count)]. *)
Definition sentence_body (self : t) (acc : gset Cell * Z) (cell : Cell)
  : result (gset Cell * Z) :=
  acc ← (if bool_decide (cell ∈ mines self) then
           sentence_cells ← set_remove cell acc.1;
           OK (sentence_cells, acc.2 + -1)
         else OK acc);
  if bool_decide (cell ∈ safes self) then
    sentence_cells ← set_remove cell acc.1;
    OK (sentence_cells, acc.2)
  else OK acc.

Definition observe (cell : Cell) (count : Z) (self : t) : result t :=
  let self := with_moves_made ({[cell]} ∪ moves_made self) self in
  let self := with_safes ({[cell]} ∪ safes self) self in
  let self := mark_safe cell self in
  let surrounding_cells := surrounding_cells self cell in
  acc ← foldM (sentence_body self) (surrounding_cells, count)
              (elements surrounding_cells);
  OK (with_knowledge (knowledge self ++ [Sentence.Sentence acc.1 acc.2]) self).

(** *** [add_knowledge], steps 4 and 5: the [while counter == 0] loop *)

(** [for cell in known: mark(cell); cells_changed.add(cell)] *)
Definition mark_all (mark : Cell → t → t) (st : t * gset Cell)
    (known : gset Cell) : t * gset Cell :=
  foldl (λ st cell, (mark cell st.1, {[cell]} ∪ st.2)) st (elements known).

(** One turn of [for sentence in self.knowledge:] at position [i].  The
    sentence is read again before [known_safes()], since marking its mines
    has just changed it. *)
Definition mark_step (st : t * gset Cell) (i : nat) : t * gset Cell :=
  match knowledge st.1 !! i with
  | None => st
  | Some sentence =>
      let st := mark_all mark_mine st (Sentence.known_mines sentence).1 in
      match knowledge st.1 !! i with
      | None => st
      | Some sentence => mark_all mark_safe st (Sentence.known_safes sentence).1
      end
  end.

(** The marking sub-pass; the list keeps its length while it runs. *)
Definition mark_pass (self : t) : t * gset Cell :=
  foldl mark_step (self, ∅) (seq 0 (length (knowledge self))).

Definition new_sentences (kb : list Sentence.t) : list Sentence.t :=
  sentence1 ← kb;
  sentence2 ← kb;
  let cells1 := Sentence.cells sentence1 in
  let cells2 := Sentence.cells sentence2 in
  if bool_decide (cells1 ⊆ cells2) && negb (bool_decide (cells1 = cells2))
  then [Sentence.Sentence (cells2 ∖ cells1)
                          (Sentence.count sentence2 - Sentence.count sentence1)]
  else [].

(** Body of [for sentence in new_sentences:] on
    [(self.knowledge, changes_made)]. *)
Definition append_new (st : list Sentence.t * Z) (sentence : Sentence.t)
  : list Sentence.t * Z :=
  if contains sentence st.1 then st
  else (st.1 ++ [sentence], st.2 + 1).

(** One turn of the [while] loop: the new state and whether to leave. *)
Definition closure_pass (self : t) : t * bool :=
  let '(self, cells_changed) := mark_pass self in
  let new_sentences := new_sentences (knowledge self) in
  let '(kb, changes_made) :=
    foldl append_new (knowledge self, 0) new_sentences in
  (with_knowledge kb self,
   bool_decide (size cells_changed = 0%nat) && bool_decide (changes_made = 0)).

Fixpoint closure (fuel : nat) (self : t) : result t :=
  match fuel with
  | O => OutOfFuel
  | S fuel =>
      let '(self, stop) := closure_pass self in
      if stop then OK self else closure fuel self
  end.

(** *** [add_knowledge], the tidying after the loop *)

Definition count_empty (kb : list Sentence.t) : Z :=
  foldl (λ tracker sentence,
           if bool_decide (size (Sentence.cells sentence) = 0%nat)
           then tracker + 1 else tracker) 0 kb.

(** [for sentence in self.knowledge:] with [remove] inside: the iterator
    is a position [i] into the shrinking list; [n] bounds the turns. *)
Fixpoint remove_scan (n i : nat) (kb : list Sentence.t) (tracker : Z)
  : result (list Sentence.t * Z) :=
  match n with
  | O => OK (kb, tracker)
  | S n =>
      match kb !! i with
      | None => OK (kb, tracker)
      | Some sentence =>
          if bool_decide (size (Sentence.cells sentence) = 0%nat) then
            kb ← list_remove sentence kb;
            remove_scan n (S i) kb (tracker + -1)
          else remove_scan n (S i) kb tracker
      end
  end.

(** [while tracker != 0:] *)
Fixpoint remove_empty (fuel : nat) (kb : list Sentence.t) (tracker : Z)
  : result (list Sentence.t) :=
  if bool_decide (tracker = 0) then OK kb
  else match fuel with
       | O => OutOfFuel
       | S fuel =>
           st ← remove_scan (length kb) 0 kb tracker;
           remove_empty fuel st.1 st.2
       end.

Definition no_duplicates (kb : list Sentence.t) : list Sentence.t :=
  foldl (λ no_duplicates sentence,
           if contains sentence no_duplicates then no_duplicates
           else no_duplicates ++ [sentence]) [] kb.

Definition tidy (fuel : nat) (self : t) : result t :=
  kb ← remove_empty fuel (knowledge self) (count_empty (knowledge self));
  OK (with_knowledge (no_duplicates kb) self).

Definition add_knowledge (fuel : nat) (cell : Cell) (count : Z) (self : t)
  : result t :=
  self ← observe cell count self;
  self ← closure fuel self;
  tidy fuel self.

(** *** Move selection *)

Definition make_safe_move (draw : nat) (self : t) : option Cell * t :=
  let safe_moves := safes self ∖ moves_made self in
  if bool_decide (size safe_moves = 0%nat) then (None, self)
  else (random_choice draw (elements safe_moves), self).

Definition all_cells (self : t) : gset Cell :=
  foldl (λ all_cells ij, {[ij]} ∪ all_cells) ∅
        (i ← range 0 (height self); j ← range 0 (width self); [(i, j)]).

Definition make_random_move (draw : nat) (self : t) : option Cell * t :=
  let possible_moves := all_cells self ∖ moves_made self ∖ mines self in
  if bool_decide (size possible_moves = 0%nat) then (None, self)
  else (random_choice draw (elements possible_moves), self).

End MinesweeperAI.

(** ** class Minesweeper, the whole object

    [Minesweeper.t] above is the part of the object that [is_mine] and
    [nearby_mines] read.  The constructor and [won] also use the sets
    [mines] and [mines_found].  The constructor draws its cells from
    [random.randrange]; the model takes the raw draws as a list, one pair
    for each turn of its [while] loop, and the loop is cut when the list is
    used up. *)

(** [random.randrange(n)]: [ValueError] for an empty range, else a value
    below [n]. *)
Definition randrange (draw : nat) (n : Z) : result Z :=
  if bool_decide (n ≤ 0) then Raise ValueError else OK (Z.of_nat draw `mod` n).

(** [l[i] = x] with Python's negative indices. *)
Definition setitem {A : Type} (l : list A) (i : Z) (x : A) : result (list A) :=
  let k := if bool_decide (i < 0) then Z.of_nat (length l) + i else i in
  if bool_decide (0 ≤ k) && bool_decide (k < Z.of_nat (length l))
  then OK (<[Z.to_nat k := x]> l)
  else Raise IndexError.

Module Game.

Record t : Type := Build {
  base : Minesweeper.t;
  mines : gset Cell;
  mines_found : gset Cell
}.

(** The field of [False] built by the two nested [for] loops. *)
Definition empty_board (height width : Z) : list (list bool) :=
  foldl (λ board i,
           board ++ [foldl (λ row j, row ++ [false]) [] (range 0 width)])
        [] (range 0 height).

(** [self.board[i][j] = True]: the row object is updated in place, so the
    board holds the updated row. *)
Definition set_mine (board : list (list bool)) (i j : Z)
  : result (list (list bool)) :=
  row ← getitem board i;
  row ← setitem row j true;
  setitem board i row.

(** [while len(self.mines) != mines:] on [(self.board, self.mines)]. *)
Fixpoint place_mines (draws : list (nat * nat)) (height width wanted : Z)
    (st : list (list bool) * gset Cell) : result (list (list bool) * gset Cell) :=
  if bool_decide (Z.of_nat (size st.2) ≠ wanted) then
    match draws with
    | [] => OutOfFuel
    | draw :: draws =>
        i ← randrange draw.1 height;
        j ← randrange draw.2 width;
        b ← Minesweeper.is_mine (Minesweeper.Build height width st.1) (i, j);
        if negb b then
          board ← set_mine st.1 i j;
          place_mines draws height width wanted (board, {[(i, j)]} ∪ st.2)
        else place_mines draws height width wanted st
    end
  else OK st.

(** [__init__(height, width, mines)] *)
Definition init (draws : list (nat * nat)) (height width mines : Z) : result t :=
  st ← place_mines draws height width mines (empty_board height width, ∅);
  OK (Build (Minesweeper.Build height width st.1) st.2 ∅).

Definition is_mine (self : t) (cell : Cell) : result bool :=
  Minesweeper.is_mine (base self) cell.

Definition nearby_mines (self : t) (cell : Cell) : result Z :=
  Minesweeper.nearby_mines (base self) cell.

Definition won (self : t) : bool * t :=
  (bool_decide (mines_found self = mines self), self).

(** [print]: the result is the text written to standard output.
    [print(x)] writes [x] and a line end, [print(x, end="")] writes [x]. *)
Definition print_cell (self : Minesweeper.t) (i : Z) (out : string) (j : Z)
  : result string :=
  b ← Minesweeper.is_mine self (i, j);
  OK (out +:+ (if b : bool then "|X" else "| ")).

Definition print_row (self : Minesweeper.t) (out : string) (i : Z)
  : result string :=
  let out :=
    out +:+ ((str_mul "--" (Minesweeper.width self) +:+ "-") +:+ newline) in
  out ← foldM (print_cell self i) out (range 0 (Minesweeper.width self));
  OK (out +:+ ("|" +:+ newline)).

Definition print (self : t) : result string :=
  out ← foldM (print_row (base self)) "" (range 0 (Minesweeper.height (base self)));
  OK (out +:+ ((str_mul "--" (Minesweeper.width (base self)) +:+ "-") +:+ newline)).

End Game.

(** ** Notions used to state the properties *)

#[global] Instance Sentence_eq_dec : EqDecision Sentence.t.
Proof. solve_decision. Defined.

(** [first_occurrences l] keeps every sentence of [l] once, at the place of
    its first occurrence. *)
Fixpoint first_occurrences (l : list Sentence.t) : list Sentence.t :=
  match l with
  | [] => []
  | x :: l' => x :: filter (λ y, y ≠ x) (first_occurrences l')
  end.

(** A sentence is non-empty when its cell set is. *)
Definition nonempty (s : Sentence.t) : Prop := Sentence.cells s ≠ ∅.

#[global] Instance nonempty_dec s : Decision (nonempty s).
Proof. unfold nonempty. apply _. Defined.

(** Number of sentences without cells. *)
Definition empties (kb : list Sentence.t) : nat :=
  length (filter (λ s, ¬ nonempty s) kb).

(** No sentence mentions a cell whose status is already known. *)
Definition clean (self : MinesweeperAI.t) : Prop :=
  ∀ s, s ∈ MinesweeperAI.knowledge self →
       Sentence.cells s ## MinesweeperAI.mines self ∪ MinesweeperAI.safes self.

(** Agent states that the operations of the agent produce from a new agent. *)
Inductive reachable : MinesweeperAI.t → Prop :=
| reachable_init (height width : Z) :
    reachable (MinesweeperAI.init height width)
| reachable_mark_mine (cell : Cell) (self : MinesweeperAI.t) :
    reachable self → reachable (MinesweeperAI.mark_mine cell self)
| reachable_mark_safe (cell : Cell) (self : MinesweeperAI.t) :
    reachable self → reachable (MinesweeperAI.mark_safe cell self)
| reachable_add_knowledge (fuel : nat) (cell : Cell) (count : Z)
    (self self' : MinesweeperAI.t) :
    reachable self →
    MinesweeperAI.add_knowledge fuel cell count self = OK self' →
    reachable self'.

(** The board size is kept and the three sets of [a] are included in those
    of [b]. *)
Definition extends (a b : MinesweeperAI.t) : Prop :=
  MinesweeperAI.height a = MinesweeperAI.height b
  ∧ MinesweeperAI.width a = MinesweeperAI.width b
  ∧ MinesweeperAI.moves_made a ⊆ MinesweeperAI.moves_made b
  ∧ MinesweeperAI.mines a ⊆ MinesweeperAI.mines b
  ∧ MinesweeperAI.safes a ⊆ MinesweeperAI.safes b.

(** Number of cells of [X] that hold a mine on board [g]. *)
Definition mines_in (g : Minesweeper.t) (X : gset Cell) : Z :=
  Z.of_nat (size (filter (λ c, Minesweeper.mine_at g c = true) X)).

(** A sentence is true of board [g]: its count is the number of its cells
    that hold a mine. *)
Definition truthful (g : Minesweeper.t) (s : Sentence.t) : Prop :=
  Sentence.count s = mines_in g (Sentence.cells s).

(** Everything the agent believes is true of board [g]. *)
Definition sound (g : Minesweeper.t) (self : MinesweeperAI.t) : Prop :=
  MinesweeperAI.height self = Minesweeper.height g
  ∧ MinesweeperAI.width self = Minesweeper.width g
  ∧ (∀ c, c ∈ MinesweeperAI.mines self → Minesweeper.mine_at g c = true)
  ∧ (∀ c, c ∈ MinesweeperAI.safes self → Minesweeper.mine_at g c = false)
  ∧ (∀ s, s ∈ MinesweeperAI.knowledge self → truthful g s).

(** The preconditions of [add_knowledge(cell, count)] on board [g]: the cell
    was not added before, holds no mine, and [count] is what the board
    reports for it. *)
Definition valid_observation (g : Minesweeper.t) (self : MinesweeperAI.t)
    (cell : Cell) (count : Z) : Prop :=
  (cell ∉ MinesweeperAI.moves_made self)
  ∧ Minesweeper.mine_at g cell = false
  ∧ Minesweeper.nearby_mines g cell = OK count.

(** Agent states reached from a new agent of the size of board [g] by calls
    of [add_knowledge] that satisfy its preconditions. *)
Inductive played (g : Minesweeper.t) : MinesweeperAI.t → Prop :=
| played_init :
    played g (MinesweeperAI.init (Minesweeper.height g) (Minesweeper.width g))
| played_add_knowledge (fuel : nat) (cell : Cell) (count : Z)
    (self self' : MinesweeperAI.t) :
    played g self →
    valid_observation g self cell count →
    MinesweeperAI.add_knowledge fuel cell count self = OK self' →
    played g self'.

(** The cells that some sentence still mentions, the cell sets that occur
    in the knowledge base, and the quantity that every turn of the closure
    loop decreases when the sentences are true of a board. *)
Definition universe (kb : list Sentence.t) : gset Cell :=
  ⋃ (Sentence.cells <$> kb).

Definition shapes (kb : list Sentence.t) : gset (gset Cell) :=
  list_to_set (Sentence.cells <$> kb).

Definition measure (kb : list Sentence.t) : nat :=
  (4 * 2 ^ size (universe kb) - size (shapes kb))%nat.

(** A sentence from which the marking sub-pass concludes nothing. *)
Definition idle (s : Sentence.t) : Prop :=
  (Sentence.known_mines s).1 = ∅ ∧ (Sentence.known_safes s).1 = ∅.

(** The sentences of the subset-inference scenario: [{A, B} = 1] and
    [{A, B, C} = 2], the sentence [{C} = 1] derived from them, and what is
    left of it once [C] is marked. *)
Definition pair_sentence (A B : Cell) : Sentence.t :=
  Sentence.Sentence {[A; B]} 1.
Definition triple_sentence (A B C : Cell) : Sentence.t :=
  Sentence.Sentence {[A; B; C]} 2.
Definition single_sentence (C : Cell) : Sentence.t :=
  Sentence.Sentence {[C]} 1.
Definition spent_sentence : Sentence.t :=
  Sentence.Sentence ∅ 0.

(** Agent states reached from a new agent by calls of [add_knowledge]
    alone, with any arguments. *)
Inductive revealed : MinesweeperAI.t → Prop :=
| revealed_init (height width : Z) :
    revealed (MinesweeperAI.init height width)
| revealed_add_knowledge (fuel : nat) (cell : Cell) (count : Z)
    (self self' : MinesweeperAI.t) :
    revealed self →
    MinesweeperAI.add_knowledge fuel cell count self = OK self' →
    revealed self'.

(** Every cell that a sentence mentions or that is marked as a mine lies on
    the board of the agent. *)
Definition on_board (self : MinesweeperAI.t) : Prop :=
  (∀ s c, s ∈ MinesweeperAI.knowledge self → c ∈ Sentence.cells s →
          in_bounds (MinesweeperAI.height self) (MinesweeperAI.width self) c = true)
  ∧ (∀ c, c ∈ MinesweeperAI.mines self →
          in_bounds (MinesweeperAI.height self) (MinesweeperAI.width self) c = true).

(** The board list has [height] rows of [width] entries each. *)
Definition well_formed (g : Minesweeper.t) : Prop :=
  length (Minesweeper.board g) = Z.to_nat (Minesweeper.height g)
  ∧ ∀ row, row ∈ Minesweeper.board g → length row = Z.to_nat (Minesweeper.width g).

(** What marking every cell of [K] does to one sentence: as a mine, as
    safe. *)
Definition without_mines (K : gset Cell) (s : Sentence.t) : Sentence.t :=
  Sentence.Sentence (Sentence.cells s ∖ K)
                    (Sentence.count s - Z.of_nat (size (Sentence.cells s ∩ K))).

Definition without_safes (K : gset Cell) (s : Sentence.t) : Sentence.t :=
  Sentence.Sentence (Sentence.cells s ∖ K) (Sentence.count s).

(** The entry of a board list at a cell with non-negative coordinates. *)
Definition cell_at (board : list (list bool)) (c : Cell) : option bool :=
  row ← board !! Z.to_nat c.1; row !! Z.to_nat c.2.

(** A board list of [height] rows of [width] entries. *)
Definition grid (height width : Z) (board : list (list bool)) : Prop :=
  length board = Z.to_nat height
  ∧ ∀ row, row ∈ board → length row = Z.to_nat width.

(** The cells of [X] are accounted for: one sentence, of the knowledge base
    or without cells, mentions cells of [X] only, and every other cell of
    [X] is in [safes] or in [mines]. *)
Definition tracked (X : gset Cell) (self : MinesweeperAI.t) : Prop :=
  ∃ s, (s ∈ MinesweeperAI.knowledge self ∨ Sentence.cells s = ∅)
       ∧ Sentence.cells s ⊆ X
       ∧ X ⊆ Sentence.cells s ∪ MinesweeperAI.safes self ∪ MinesweeperAI.mines self.

(** The text of [print] piece by piece: one cell, the cells of row [i], a
    rule, a rule with the row under it, and the rows one after the other. *)
Definition cell_text (b : bool) : string := if b then "|X" else "| ".

Fixpoint row_text (g : Minesweeper.t) (i : Z) (js : list Z) : string :=
  match js with
  | [] => ""
  | j :: js => cell_text (Minesweeper.mine_at g (i, j)) +:+ row_text g i js
  end.

Definition rule_text (width : Z) : string :=
  (str_mul "--" width +:+ "-") +:+ newline.

Definition block_text (g : Minesweeper.t) (i : Z) : string :=
  rule_text (Minesweeper.width g)
  +:+ (row_text g i (range 0 (Minesweeper.width g)) +:+ ("|" +:+ newline)).

Fixpoint blocks_text (g : Minesweeper.t) (rows : list Z) : string :=
  match rows with
  | [] => ""
  | i :: rows => block_text g i +:+ blocks_text g rows
  end.

(** ** Concrete games

    The board of the specification's scenario: one row, three columns, the
    only mine at (0, 2); the agent after revealing (0, 0) and then (0, 1). *)

Definition board13 : Minesweeper.t :=
  Minesweeper.Build 1 3 [[false; false; true]].

Definition agent13_1 : MinesweeperAI.t :=
  MinesweeperAI.Build 1 3 {[(0, 0)]} ∅ {[(0, 0); (0, 1)]} [].

Definition agent13_2 : MinesweeperAI.t :=
  MinesweeperAI.Build 1 3 {[(0, 0); (0, 1)]} {[(0, 2)]} {[(0, 0); (0, 1)]} [].

(** A board of three rows and three columns with its only mine at (0, 0);
    the agent after revealing (2, 2), then (1, 1), then (0, 2). *)

Definition board33 : Minesweeper.t :=
  Minesweeper.Build 3 3
    [[true; false; false]; [false; false; false]; [false; false; false]].

Definition agent33_1 : MinesweeperAI.t :=
  MinesweeperAI.Build 3 3 {[(2, 2)]} ∅ {[(1, 1); (1, 2); (2, 1); (2, 2)]} [].

Definition agent33_2 : MinesweeperAI.t :=
  MinesweeperAI.Build 3 3 {[(1, 1); (2, 2)]} ∅
    {[(1, 1); (1, 2); (2, 1); (2, 2)]}
    [Sentence.Sentence {[(0, 0); (0, 1); (0, 2); (1, 0); (2, 0)]} 1].

Definition agent33_3 : MinesweeperAI.t :=
  MinesweeperAI.Build 3 3 {[(0, 2); (1, 1); (2, 2)]} ∅
    {[(0, 1); (0, 2); (1, 1); (1, 2); (2, 1); (2, 2)]}
    [Sentence.Sentence {[(0, 0); (1, 0); (2, 0)]} 1].

(** The agent of the repository's own test script: knowledge set by hand,
    then [mark_mine((3,6))], [mark_safe((4,5))]. *)
Definition agent_test : MinesweeperAI.t :=
  MinesweeperAI.mark_safe (4, 5)
    (MinesweeperAI.mark_mine (3, 6)
       (MinesweeperAI.with_knowledge
          [Sentence.Sentence {[(6, 3); (6, 4)]} 2;
           Sentence.Sentence {[(0, 1); (0, 2)]} 0]
          (MinesweeperAI.init 8 8))).

(** ** Running the definitions *)

Example nearby_mines_00 : Minesweeper.nearby_mines board13 (0, 0) = OK 0.
Proof. reflexivity. Qed.

Example nearby_mines_01 : Minesweeper.nearby_mines board13 (0, 1) = OK 1.
Proof. reflexivity. Qed.

Example board13_first :
  MinesweeperAI.add_knowledge 5 (0, 0) 0 (MinesweeperAI.init 1 3) = OK agent13_1.
Proof. vm_compute. reflexivity. Qed.

Example board13_second :
  MinesweeperAI.add_knowledge 5 (0, 1) 1 agent13_1 = OK agent13_2.
Proof. vm_compute. reflexivity. Qed.

Example board33_first :
  MinesweeperAI.add_knowledge 5 (2, 2) 0 (MinesweeperAI.init 3 3) = OK agent33_1.
Proof. vm_compute. reflexivity. Qed.

Example board33_second :
  MinesweeperAI.add_knowledge 5 (1, 1) 1 agent33_1 = OK agent33_2.
Proof. vm_compute. reflexivity. Qed.

Example board33_third :
  MinesweeperAI.add_knowledge 5 (0, 2) 0 agent33_2 = OK agent33_3.
Proof. vm_compute. reflexivity. Qed.

(** With too little fuel the loop is cut, it does not return. *)
Example board33_first_cut :
  MinesweeperAI.add_knowledge 1 (2, 2) 0 (MinesweeperAI.init 3 3) = OutOfFuel.
Proof. vm_compute. reflexivity. Qed.

(** The call of the test script, [add_knowledge((3,5), 2)]. *)
Example test_script_run :
  MinesweeperAI.add_knowledge 10 (3, 5) 2 agent_test
  = OK (MinesweeperAI.Build 8 8 {[(3, 5)]} {[(3, 6); (6, 3); (6, 4)]}
          {[(0, 1); (0, 2); (3, 5); (4, 5)]}
          [Sentence.Sentence {[(2, 4); (2, 5); (2, 6); (3, 4); (4, 4); (4, 6)]} 1]).
Proof. vm_compute. reflexivity. Qed.

(** Removing inside the [for] loop makes the iterator skip the entry that
    slides into the freed position: one scan of [E; E; A] removes only one
    of the two empty sentences, and the [while] loop scans again. *)
Example remove_scan_skips :
  MinesweeperAI.remove_scan 3 0
    [spent_sentence; spent_sentence; single_sentence (0, 0)] 2
  = OK ([spent_sentence; single_sentence (0, 0)], 1).
Proof. vm_compute. reflexivity. Qed.

Example remove_empty_rescans :
  MinesweeperAI.remove_empty 2
    [spent_sentence; spent_sentence; single_sentence (0, 0)] 2
  = OK [single_sentence (0, 0)].
Proof. vm_compute. reflexivity. Qed.

(** Marking one cell both as a mine and as safe makes the next reveal of a
    neighbour raise [KeyError] in step 3: the cell is removed from
    [sentence_cells] twice. *)
Example add_knowledge_key_error :
  MinesweeperAI.add_knowledge 5 (0, 0) 0
    (MinesweeperAI.mark_safe (0, 1)
       (MinesweeperAI.mark_mine (0, 1) (MinesweeperAI.init 1 3)))
  = Raise KeyError.
Proof. vm_compute. reflexivity. Qed.

(** A run of the constructor: the second draw hits the cell of the first
    and is thrown away. *)
Example game_init_run :
  Game.init [(4, 2); (1, 5); (0, 0)]%nat 3 3 2
  = OK (Game.Build
          (Minesweeper.Build 3 3
             [[true; false; false]; [false; false; true]; [false; false; false]])
          {[(0, 0); (1, 2)]} ∅).
Proof. vm_compute. reflexivity. Qed.

(** What [print] writes for the one-row board. *)
Example print_board13 :
  Game.print (Game.Build board13 {[(0, 2)]} ∅)
  = OK ("-------" +:+ newline +:+ "| | |X|" +:+ newline +:+ "-------" +:+ newline).
Proof. vm_compute. reflexivity. Qed.

(** ** Basic facts about the helpers *)

Lemma foldl_invariant {A B : Type} (P : A → Prop) (f : A → B → A) (l : list B) (a : A) :
  P a → (∀ a b, b ∈ l → P a → P (f a b)) → P (foldl f a l).
Proof.
  revert a. induction l as [|x l IH]; intros a Ha Hstep; simpl; [done|].
  apply IH.
  - apply Hstep; [left | done].
  - intros a' b Hb. apply Hstep. by right.
Qed.

Lemma foldl_add_cells (l : list Cell) (X : gset Cell) :
  foldl (λ acc cell, {[cell]} ∪ acc) X l = list_to_set l ∪ X.
Proof.
  revert X. induction l as [|x l IH]; intros X; simpl.
  - set_solver.
  - rewrite IH. set_solver.
Qed.

Lemma foldl_add_elements (X : gset Cell) :
  foldl (λ acc cell, {[cell]} ∪ acc) ∅ (elements X) = X.
Proof. rewrite foldl_add_cells, list_to_set_elements_L. set_solver. Qed.

Lemma Sentence_eq_spec (a b : Sentence.t) : Sentence.eq a b = true ↔ a = b.
Proof.
  unfold Sentence.eq. rewrite andb_true_iff, !bool_decide_eq_true.
  destruct a, b; simpl. split; [intros [-> ->]; done | by inversion 1].
Qed.

Lemma contains_spec (x : Sentence.t) (l : list Sentence.t) :
  contains x l = true ↔ x ∈ l.
Proof.
  unfold contains. rewrite existsb_exists. split.
  - intros (y & Hy & Heq). apply Sentence_eq_spec in Heq as ->.
    by apply list_elem_of_In.
  - intros Hx. exists x. split; [by apply list_elem_of_In | by apply Sentence_eq_spec].
Qed.

Lemma contains_false (x : Sentence.t) (l : list Sentence.t) :
  contains x l = false ↔ x ∉ l.
Proof. rewrite <- contains_spec. by destruct (contains x l). Qed.

Lemma random_choice_elem {A : Type} (draw : nat) (seq : list A) :
  seq ≠ [] → ∃ x, random_choice draw seq = Some x ∧ x ∈ seq.
Proof.
  intros Hne. unfold random_choice.
  assert (Hlt : (draw `mod` length seq < length seq)%nat).
  { apply Nat.mod_upper_bound. by destruct seq. }
  apply lookup_lt_is_Some_2 in Hlt as [x Hx].
  exists x. split; [done|]. by eapply list_elem_of_lookup_2.
Qed.

Lemma elements_nonempty (X : gset Cell) : X ≠ ∅ → elements X ≠ [].
Proof. intros HX Hnil. by apply elements_empty_inv, leibniz_equiv in Hnil. Qed.

(** ** Sentence queries (C4) *)

(** C4: [known_mines] answers all the cells when [count] equals their number
    and the empty set otherwise, [known_safes] answers all the cells when
    [count] is 0 and the empty set otherwise, and both leave the sentence as
    it was. *)
Theorem known_sets_exact (s : Sentence.t) :
  Sentence.known_mines s =
    (if bool_decide (Z.of_nat (size (Sentence.cells s)) = Sentence.count s)
     then Sentence.cells s else ∅, s)
  ∧ Sentence.known_safes s =
    (if bool_decide (Sentence.count s = 0) then Sentence.cells s else ∅, s).
Proof.
  unfold Sentence.known_mines, Sentence.known_safes. split.
  - case_bool_decide; [by rewrite foldl_add_elements | done].
  - case_bool_decide; [by rewrite foldl_add_elements | done].
Qed.

Lemma known_mines_fst (s : Sentence.t) :
  (Sentence.known_mines s).1 =
    if bool_decide (Z.of_nat (size (Sentence.cells s)) = Sentence.count s)
    then Sentence.cells s else ∅.
Proof.
  unfold Sentence.known_mines.
  case_bool_decide; simpl; [by rewrite foldl_add_elements | done].
Qed.

Lemma known_safes_fst (s : Sentence.t) :
  (Sentence.known_safes s).1 =
    if bool_decide (Sentence.count s = 0) then Sentence.cells s else ∅.
Proof.
  unfold Sentence.known_safes.
  case_bool_decide; simpl; [by rewrite foldl_add_elements | done].
Qed.

(** ** Marking a sentence twice *)

Lemma Sentence_mark_mine_idem (cell : Cell) (s : Sentence.t) :
  Sentence.mark_mine cell (Sentence.mark_mine cell s) = Sentence.mark_mine cell s.
Proof.
  unfold Sentence.mark_mine. destruct (decide (cell ∈ Sentence.cells s)) as [Hin|Hin].
  - rewrite (bool_decide_eq_true_2 _ Hin); simpl.
    rewrite bool_decide_eq_false_2; [done | set_solver].
  - by rewrite !(bool_decide_eq_false_2 _ Hin).
Qed.

Lemma Sentence_mark_safe_idem (cell : Cell) (s : Sentence.t) :
  Sentence.mark_safe cell (Sentence.mark_safe cell s) = Sentence.mark_safe cell s.
Proof.
  unfold Sentence.mark_safe. destruct (decide (cell ∈ Sentence.cells s)) as [Hin|Hin].
  - rewrite (bool_decide_eq_true_2 _ Hin); simpl.
    rewrite bool_decide_eq_false_2; [done | set_solver].
  - by rewrite !(bool_decide_eq_false_2 _ Hin).
Qed.

(** ** Move selection (C6, C8) *)

Lemma random_choice_reduce {A : Type} (draw : nat) (seq : list A) :
  random_choice (draw `mod` length seq)%nat seq = random_choice draw seq.
Proof.
  unfold random_choice. destruct seq as [|x seq]; [done|].
  by rewrite Nat.Div0.mod_mod.
Qed.

Lemma random_choice_unique {A : Type} (seq : list A) (x : A) :
  NoDup seq → x ∈ seq →
  ∃ k, (k < length seq)%nat ∧ random_choice k seq = Some x
       ∧ ∀ k', (k' < length seq)%nat → random_choice k' seq = Some x → k' = k.
Proof.
  intros Hnd Hx. apply list_elem_of_lookup in Hx as [k Hk].
  assert (Hlt := lookup_lt_Some _ _ _ Hk).
  exists k. unfold random_choice. split; [done|]. split.
  - by rewrite Nat.mod_small.
  - intros k' Hlt' Hk'. rewrite Nat.mod_small in Hk' by done.
    by eapply NoDup_lookup.
Qed.

Lemma elem_of_all_cells (self : MinesweeperAI.t) (c : Cell) :
  c ∈ MinesweeperAI.all_cells self ↔
  in_bounds (MinesweeperAI.height self) (MinesweeperAI.width self) c = true.
Proof.
  unfold MinesweeperAI.all_cells, in_bounds, range.
  rewrite foldl_add_cells, andb_true_iff, !bool_decide_eq_true.
  rewrite elem_of_union, elem_of_list_to_set, list_elem_of_bind.
  destruct c as [i j]; simpl. split.
  - intros [(i' & Hj & Hi) | Hemp]; [|set_solver].
    apply list_elem_of_bind in Hj as (j' & Hij & Hj).
    apply list_elem_of_singleton in Hij. inversion Hij; subst.
    apply elem_of_seqZ in Hi, Hj. lia.
  - intros [Hi Hj]. left. exists i. split; [|apply elem_of_seqZ; lia].
    apply list_elem_of_bind. exists j. split; [by apply list_elem_of_singleton|].
    apply elem_of_seqZ; lia.
Qed.

(** C6: [make_safe_move] answers a cell of [safes − moves_made] when that
    set has one and [None] when it has none, and leaves the agent as it
    was; with safes {(0,0),(0,1)} and moves {(0,0)} the answer is (0,1),
    and it is [None] whenever every safe cell was already played. *)
Theorem make_safe_move_spec (draw : nat) (self : MinesweeperAI.t) :
  (MinesweeperAI.make_safe_move draw self).2 = self
  ∧ (MinesweeperAI.safes self ∖ MinesweeperAI.moves_made self ≠ ∅ →
     ∃ c, (MinesweeperAI.make_safe_move draw self).1 = Some c
          ∧ c ∈ MinesweeperAI.safes self ∖ MinesweeperAI.moves_made self)
  ∧ (MinesweeperAI.safes self ∖ MinesweeperAI.moves_made self = ∅ →
     (MinesweeperAI.make_safe_move draw self).1 = None)
  ∧ (MinesweeperAI.safes self = {[(0, 0); (0, 1)]} →
     MinesweeperAI.moves_made self = {[(0, 0)]} →
     (MinesweeperAI.make_safe_move draw self).1 = Some (0, 1))
  ∧ (MinesweeperAI.safes self ⊆ MinesweeperAI.moves_made self →
     (MinesweeperAI.make_safe_move draw self).1 = None).
Proof.
  unfold MinesweeperAI.make_safe_move.
  set (safe_moves := MinesweeperAI.safes self ∖ MinesweeperAI.moves_made self).
  assert (Hsome : safe_moves ≠ ∅ →
     ∃ c, (if bool_decide (size safe_moves = 0%nat) then (None, self)
           else (random_choice draw (elements safe_moves), self)).1 = Some c
          ∧ c ∈ safe_moves).
  { intros Hne. rewrite bool_decide_eq_false_2.
    - destruct (random_choice_elem draw (elements safe_moves)) as (c & Hc & Hin).
      + by apply elements_nonempty.
      + exists c. split; [done|]. by apply elem_of_elements.
    - intros Hsz. by apply size_empty_inv, leibniz_equiv in Hsz. }
  assert (Hnone : safe_moves = ∅ →
     (if bool_decide (size safe_moves = 0%nat) then (None, self)
      else (random_choice draw (elements safe_moves), self)).1 = None).
  { intros ->. by rewrite size_empty. }
  split; [by case_bool_decide|]. split; [done|]. split; [done|]. split.
  - intros Hs Hm.
    assert (Heq : safe_moves = {[(0, 1)]}).
    { unfold safe_moves. rewrite Hs, Hm. apply set_eq. intros [i j].
      rewrite elem_of_difference, elem_of_union, !elem_of_singleton.
      split; [intros [[?|?] ?]; congruence | intros ?; split; [by right|congruence]]. }
    destruct Hsome as (c & Hc & Hin).
    + rewrite Heq. apply non_empty_singleton_L.
    + rewrite Hc. rewrite Heq in Hin. by apply elem_of_singleton in Hin as ->.
  - intros Hsub. apply Hnone. unfold safe_moves. set_solver.
Qed.

(** C8: [make_random_move] answers a cell of the board that is neither
    played nor a known mine when there is one and [None] when there is
    none, and leaves the agent as it was.  The choice is uniform: the
    answer depends on the draw only through its value below the number of
    candidates, and every candidate is the answer for exactly one such
    value. *)
Theorem make_random_move_spec (draw : nat) (self : MinesweeperAI.t) :
  let possible_moves :=
    MinesweeperAI.all_cells self ∖ MinesweeperAI.moves_made self
      ∖ MinesweeperAI.mines self in
  (∀ c, c ∈ possible_moves ↔
        (in_bounds (MinesweeperAI.height self) (MinesweeperAI.width self) c = true
         ∧ (c ∉ MinesweeperAI.moves_made self) ∧ (c ∉ MinesweeperAI.mines self)))
  ∧ (MinesweeperAI.make_random_move draw self).2 = self
  ∧ (possible_moves ≠ ∅ →
     ∃ c, (MinesweeperAI.make_random_move draw self).1 = Some c
          ∧ c ∈ possible_moves)
  ∧ (possible_moves = ∅ → (MinesweeperAI.make_random_move draw self).1 = None)
  ∧ (MinesweeperAI.make_random_move (draw `mod` size possible_moves)%nat self).1
    = (MinesweeperAI.make_random_move draw self).1
  ∧ (∀ c, c ∈ possible_moves →
     ∃ k, (k < size possible_moves)%nat
          ∧ (MinesweeperAI.make_random_move k self).1 = Some c
          ∧ ∀ k', (k' < size possible_moves)%nat →
                  (MinesweeperAI.make_random_move k' self).1 = Some c → k' = k).
Proof.
  intros possible_moves. unfold MinesweeperAI.make_random_move.
  fold possible_moves. split.
  { intros c. unfold possible_moves.
    rewrite !elem_of_difference, elem_of_all_cells. tauto. }
  split; [by case_bool_decide|].
  destruct (decide (possible_moves = ∅)) as [Hemp|Hne].
  - rewrite Hemp, size_empty. simpl. split; [done|]. split; [done|].
    split; [done|]. intros c Hc. set_solver.
  - assert (Hsz : size possible_moves ≠ 0%nat).
    { intros Hsz. apply size_empty_inv in Hsz. by apply leibniz_equiv in Hsz. }
    rewrite bool_decide_eq_false_2 by done. simpl.
    split; [|split; [done|split]].
    + intros _. destruct (random_choice_elem draw (elements possible_moves))
        as (c & Hc & Hin); [by apply elements_nonempty|].
      exists c. split; [done|]. by apply elem_of_elements.
    + apply random_choice_reduce.
    + intros c Hc.
      destruct (random_choice_unique (elements possible_moves) c)
        as (k & Hk & Hkc & Huniq).
      * apply NoDup_elements.
      * by apply elem_of_elements.
      * exists k. split; [done|]. split; [done|]. intros k' Hk'. by apply Huniq.
Qed.

(** ** Induction principles for the marking sub-pass *)

Lemma mark_all_ind (P : MinesweeperAI.t * gset Cell → Prop)
    (mark : Cell → MinesweeperAI.t → MinesweeperAI.t)
    (st : MinesweeperAI.t * gset Cell) (known : gset Cell) :
  P st →
  (∀ st c, c ∈ known → P st → P (mark c st.1, {[c]} ∪ st.2)) →
  P (MinesweeperAI.mark_all mark st known).
Proof.
  intros Hst Hstep. unfold MinesweeperAI.mark_all.
  apply (foldl_invariant P); [done|].
  intros a b Hb. apply Hstep. by apply elem_of_elements.
Qed.

Lemma mark_pass_ind (P : MinesweeperAI.t * gset Cell → Prop)
    (self : MinesweeperAI.t) :
  P (self, ∅) →
  (∀ st s, P st → s ∈ MinesweeperAI.knowledge st.1 →
     P (MinesweeperAI.mark_all MinesweeperAI.mark_mine st (Sentence.known_mines s).1)) →
  (∀ st s, P st → s ∈ MinesweeperAI.knowledge st.1 →
     P (MinesweeperAI.mark_all MinesweeperAI.mark_safe st (Sentence.known_safes s).1)) →
  P (MinesweeperAI.mark_pass self).
Proof.
  intros H0 Hm Hs. unfold MinesweeperAI.mark_pass.
  apply (foldl_invariant P); [done|].
  intros st i _ Hst. unfold MinesweeperAI.mark_step.
  destruct (MinesweeperAI.knowledge st.1 !! i) as [s|] eqn:Hi; [|done].
  assert (Hst1 := Hm st s Hst (list_elem_of_lookup_2 _ _ _ Hi)).
  destruct (MinesweeperAI.knowledge
              (MinesweeperAI.mark_all MinesweeperAI.mark_mine st
                 (Sentence.known_mines s).1).1 !! i) as [s'|] eqn:Hi'; [|done].
  apply Hs; [done|]. by eapply list_elem_of_lookup_2.
Qed.

Lemma elem_of_append_new (new : list Sentence.t) (kb : list Sentence.t) (n : Z)
    (x : Sentence.t) :
  x ∈ (foldl MinesweeperAI.append_new (kb, n) new).1 ↔ x ∈ kb ∨ x ∈ new.
Proof.
  revert kb n. induction new as [|y new IH]; intros kb n; simpl.
  - set_solver.
  - unfold MinesweeperAI.append_new at 2. simpl.
    destruct (contains y kb) eqn:Hc.
    + rewrite IH. apply contains_spec in Hc. set_solver.
    + rewrite IH. set_solver.
Qed.

Lemma elem_of_new_sentences (kb : list Sentence.t) (x : Sentence.t) :
  x ∈ MinesweeperAI.new_sentences kb ↔
  ∃ s1 s2, s1 ∈ kb ∧ s2 ∈ kb ∧ Sentence.cells s1 ⊂ Sentence.cells s2
           ∧ x = Sentence.Sentence (Sentence.cells s2 ∖ Sentence.cells s1)
                                   (Sentence.count s2 - Sentence.count s1).
Proof.
  unfold MinesweeperAI.new_sentences. rewrite list_elem_of_bind. split.
  - intros (s1 & Hx & Hs1). apply list_elem_of_bind in Hx as (s2 & Hx & Hs2).
    destruct (bool_decide (Sentence.cells s1 ⊆ Sentence.cells s2)) eqn:Hsub;
      simpl in Hx; [|by apply elem_of_nil in Hx].
    destruct (bool_decide (Sentence.cells s1 = Sentence.cells s2)) eqn:Heq;
      simpl in Hx; [by apply elem_of_nil in Hx|].
    apply list_elem_of_singleton in Hx.
    apply bool_decide_eq_true in Hsub. apply bool_decide_eq_false in Heq.
    exists s1, s2. split; [done|]. split; [done|]. split; [set_solver|done].
  - intros (s1 & s2 & Hs1 & Hs2 & Hsub & ->). exists s1. split; [|done].
    apply list_elem_of_bind. exists s2. split; [|done].
    rewrite bool_decide_eq_true_2 by set_solver.
    rewrite bool_decide_eq_false_2 by set_solver. simpl.
    by apply list_elem_of_singleton.
Qed.

(** ** The tidying after the loop *)

Lemma size_zero_iff (s : Sentence.t) :
  size (Sentence.cells s) = 0%nat ↔ ¬ nonempty s.
Proof.
  unfold nonempty. split.
  - intros Hsz Hne. apply size_empty_inv in Hsz. by apply leibniz_equiv in Hsz.
  - intros Hn. destruct (decide (Sentence.cells s = ∅)) as [->|]; [apply size_empty|done].
Qed.

Lemma count_empty_empties (kb : list Sentence.t) :
  MinesweeperAI.count_empty kb = Z.of_nat (empties kb).
Proof.
  unfold MinesweeperAI.count_empty.
  assert (H : ∀ t, foldl (λ tracker sentence,
             if bool_decide (size (Sentence.cells sentence) = 0%nat)
             then tracker + 1 else tracker) t kb = t + Z.of_nat (empties kb)).
  { unfold empties. induction kb as [|s kb IH]; intros t; simpl; [lia|].
    rewrite IH, filter_cons. case_bool_decide as Hs; rewrite size_zero_iff in Hs.
    - rewrite decide_True by done. simpl. lia.
    - rewrite decide_False by done. lia. }
  rewrite H. lia.
Qed.

Lemma empties_app (l1 l2 : list Sentence.t) :
  empties (l1 ++ l2) = (empties l1 + empties l2)%nat.
Proof. unfold empties. by rewrite filter_app, length_app. Qed.

Lemma empties_cons_empty (s : Sentence.t) (l : list Sentence.t) :
  ¬ nonempty s → empties (s :: l) = S (empties l).
Proof. intros Hs. unfold empties. by rewrite filter_cons, decide_True. Qed.

Lemma empties_zero (kb : list Sentence.t) :
  empties kb = 0%nat → filter nonempty kb = kb.
Proof.
  unfold empties. induction kb as [|s kb IH]; [done|].
  rewrite !filter_cons. destruct (decide (nonempty s)) as [Hs|Hs].
  - rewrite decide_False by tauto. intros H. by rewrite IH.
  - rewrite decide_True by done. simpl. lia.
Qed.

Lemma empties_pos (kb : list Sentence.t) :
  (0 < empties kb)%nat → ∃ j s, kb !! j = Some s ∧ ¬ nonempty s.
Proof.
  unfold empties. intros Hpos.
  destruct (filter (λ s, ¬ nonempty s) kb) as [|s l] eqn:Hf; [simpl in Hpos; lia|].
  assert (Hs : s ∈ filter (λ s, ¬ nonempty s) kb) by (rewrite Hf; left).
  apply list_elem_of_filter in Hs as [Hs Hin].
  apply list_elem_of_lookup in Hin as [j Hj]. eauto.
Qed.

Lemma list_remove_split (x : Sentence.t) (l : list Sentence.t) :
  x ∈ l → ∃ l1 l2, l = l1 ++ x :: l2 ∧ list_remove x l = OK (l1 ++ l2).
Proof.
  induction l as [|y l IH]; intros Hx; [by apply elem_of_nil in Hx|].
  simpl. destruct (Sentence.eq y x) eqn:Heq.
  - apply Sentence_eq_spec in Heq as ->. by exists [], l.
  - apply elem_of_cons in Hx as [->|Hx].
    + assert (Sentence.eq y y = true) by by apply Sentence_eq_spec. congruence.
    + destruct (IH Hx) as (l1 & l2 & -> & ->). by exists (y :: l1), l2.
Qed.

Lemma remove_scan_spec (n i : nat) (kb : list Sentence.t) (tracker : Z) :
  ∃ kb', MinesweeperAI.remove_scan n i kb tracker
           = OK (kb', tracker - Z.of_nat (empties kb) + Z.of_nat (empties kb'))
    ∧ filter nonempty kb' = filter nonempty kb
    ∧ (empties kb' ≤ empties kb)%nat
    ∧ ((length kb - i ≤ n)%nat →
       (∃ j s, (i ≤ j)%nat ∧ kb !! j = Some s ∧ ¬ nonempty s) →
       (empties kb' < empties kb)%nat).
Proof.
  revert i kb tracker. induction n as [|n IH]; intros i kb tracker; simpl.
  - exists kb. split; [f_equal; f_equal; lia|]. split; [done|]. split; [done|].
    intros Hlen (j & s & Hij & Hj & _). apply lookup_lt_Some in Hj. lia.
  - destruct (kb !! i) as [s|] eqn:Hi.
    + case_bool_decide as Hs; rewrite size_zero_iff in Hs.
      * destruct (list_remove_split s kb) as (l1 & l2 & Hkb & ->);
          [by eapply list_elem_of_lookup_2|]. simpl.
        destruct (IH (S i) (l1 ++ l2) (tracker + -1)) as (kb' & -> & Hf & Hle & _).
        assert (He : empties kb = S (empties (l1 ++ l2))).
        { rewrite Hkb, !empties_app, empties_cons_empty by done. lia. }
        exists kb'. split; [f_equal; f_equal; lia|]. split.
        { rewrite Hf, Hkb, !filter_app, filter_cons, decide_False; tauto. }
        split; [lia|]. intros _ _. lia.
      * destruct (IH (S i) kb tracker) as (kb' & -> & Hf & Hle & Hprog).
        exists kb'. split; [done|]. split; [done|]. split; [done|].
        intros Hlen (j & s' & Hij & Hj & Hs'). apply Hprog; [lia|].
        exists j, s'. split; [|done].
        destruct (decide (i = j)) as [->|]; [|lia].
        rewrite Hi in Hj. inversion Hj; subst. tauto.
    + exists kb. split; [f_equal; f_equal; lia|]. split; [done|]. split; [done|].
      intros _ (j & s & Hij & Hj & _). apply lookup_ge_None in Hi.
      apply lookup_lt_Some in Hj. lia.
Qed.

(** The [while tracker != 0] loop, entered with the number of empty
    sentences in [tracker], leaves exactly the non-empty sentences, in
    their order; it needs one turn of fuel per empty sentence at most. *)
Lemma remove_empty_spec (fuel : nat) (kb : list Sentence.t) :
  (MinesweeperAI.remove_empty fuel kb (Z.of_nat (empties kb)) = OK (filter nonempty kb)
   ∨ MinesweeperAI.remove_empty fuel kb (Z.of_nat (empties kb)) = OutOfFuel)
  ∧ ((empties kb ≤ fuel)%nat →
     MinesweeperAI.remove_empty fuel kb (Z.of_nat (empties kb)) = OK (filter nonempty kb)).
Proof.
  revert kb. induction fuel as [|fuel IH]; intros kb.
  - simpl. case_bool_decide as H0.
    + assert (He : empties kb = 0%nat) by lia.
      rewrite (empties_zero _ He). auto.
    + split; [by right|]. lia.
  - simpl. case_bool_decide as H0.
    + assert (He : empties kb = 0%nat) by lia.
      rewrite (empties_zero _ He). auto.
    + destruct (remove_scan_spec (length kb) 0 kb (Z.of_nat (empties kb)))
        as (kb' & -> & Hf & Hle & Hprog). simpl.
      replace (Z.of_nat (empties kb) - Z.of_nat (empties kb) + Z.of_nat (empties kb'))
        with (Z.of_nat (empties kb')) by lia.
      rewrite <- Hf. destruct (IH kb') as [Hres Hfuel]. split; [done|].
      intros Hlt. apply Hfuel.
      assert (empties kb' < empties kb)%nat; [|lia].
      apply Hprog; [lia|].
      destruct (empties_pos kb) as (j & s & Hj & Hs); [lia|].
      exists j, s. split; [lia|done].
Qed.

Lemma first_occurrences_elem (l : list Sentence.t) (x : Sentence.t) :
  x ∈ first_occurrences l ↔ x ∈ l.
Proof.
  induction l as [|y l IH]; simpl; [done|].
  rewrite !elem_of_cons, list_elem_of_filter, IH.
  destruct (decide (x = y)); tauto.
Qed.

Lemma first_occurrences_NoDup (l : list Sentence.t) : NoDup (first_occurrences l).
Proof.
  induction l as [|y l IH]; simpl; [constructor|].
  constructor; [|by apply NoDup_filter].
  rewrite list_elem_of_filter. tauto.
Qed.

Lemma no_duplicates_from (l acc : list Sentence.t) :
  foldl (λ no_duplicates sentence,
           if contains sentence no_duplicates then no_duplicates
           else no_duplicates ++ [sentence]) acc l
  = acc ++ filter (λ y, y ∉ acc) (first_occurrences l).
Proof.
  revert acc. induction l as [|x l IH]; intros acc; simpl.
  - by rewrite filter_nil, app_nil_r.
  - rewrite filter_cons, list_filter_filter.
    destruct (contains x acc) eqn:Hc.
    + apply contains_spec in Hc. rewrite decide_False by tauto.
      rewrite IH. f_equal. apply list_filter_iff. intros y. split; [|tauto].
      intros Hy. split; [done|]. by intros ->.
    + apply contains_false in Hc. rewrite decide_True by done.
      rewrite IH, <- app_assoc. simpl. do 2 f_equal.
      apply list_filter_iff. intros y. rewrite elem_of_app, list_elem_of_singleton.
      tauto.
Qed.

Lemma filter_all {A : Type} (P : A → Prop) `{!∀ x, Decision (P x)} (l : list A) :
  (∀ x, x ∈ l → P x) → filter P l = l.
Proof.
  induction l as [|x l IH]; intros HP; [done|].
  rewrite filter_cons, decide_True by (apply HP; left).
  f_equal. apply IH. intros y Hy. apply HP. by right.
Qed.

Lemma no_duplicates_first (l : list Sentence.t) :
  MinesweeperAI.no_duplicates l = first_occurrences l.
Proof.
  unfold MinesweeperAI.no_duplicates. rewrite no_duplicates_from. simpl.
  apply filter_all. intros y _. apply not_elem_of_nil.
Qed.

Lemma tidy_spec (fuel : nat) (self self' : MinesweeperAI.t) :
  MinesweeperAI.tidy fuel self = OK self' →
  self' = MinesweeperAI.with_knowledge
            (first_occurrences (filter nonempty (MinesweeperAI.knowledge self))) self.
Proof.
  unfold MinesweeperAI.tidy. rewrite count_empty_empties.
  destruct (remove_empty_spec fuel (MinesweeperAI.knowledge self)) as [[->| ->] _];
    simpl; [|done].
  rewrite no_duplicates_first. by inversion 1.
Qed.

Lemma tidy_returns (fuel : nat) (self : MinesweeperAI.t) :
  (length (MinesweeperAI.knowledge self) ≤ fuel)%nat →
  ∃ self', MinesweeperAI.tidy fuel self = OK self'.
Proof.
  intros Hfuel. unfold MinesweeperAI.tidy. rewrite count_empty_empties.
  destruct (remove_empty_spec fuel (MinesweeperAI.knowledge self)) as [_ ->];
    simpl; [eauto|].
  etrans; [|exact Hfuel]. unfold empties. apply length_filter.
Qed.

(** ** The sets of the agent only grow (C10) *)

Lemma extends_refl (a : MinesweeperAI.t) : extends a a.
Proof. by unfold extends. Qed.

Lemma extends_trans (a b c : MinesweeperAI.t) :
  extends a b → extends b c → extends a c.
Proof.
  unfold extends. intros (-> & -> & ? & ? & ?) (-> & -> & ? & ? & ?).
  repeat split; set_solver.
Qed.

Lemma mark_mine_extends (cell : Cell) (self : MinesweeperAI.t) :
  extends self (MinesweeperAI.mark_mine cell self).
Proof. unfold extends; simpl. repeat split; set_solver. Qed.

Lemma mark_safe_extends (cell : Cell) (self : MinesweeperAI.t) :
  extends self (MinesweeperAI.mark_safe cell self).
Proof. unfold extends; simpl. repeat split; set_solver. Qed.

Lemma with_knowledge_extends (kb : list Sentence.t) (self : MinesweeperAI.t) :
  extends self (MinesweeperAI.with_knowledge kb self).
Proof. by unfold extends. Qed.

Lemma mark_pass_extends (self : MinesweeperAI.t) :
  extends self (MinesweeperAI.mark_pass self).1.
Proof.
  apply (mark_pass_ind (λ st, extends self st.1)); [apply extends_refl| |].
  - intros st s Hst _. apply (mark_all_ind (λ st, extends self st.1)); [done|].
    intros st' c _ Hst'. simpl. eapply extends_trans; [done|apply mark_mine_extends].
  - intros st s Hst _. apply (mark_all_ind (λ st, extends self st.1)); [done|].
    intros st' c _ Hst'. simpl. eapply extends_trans; [done|apply mark_safe_extends].
Qed.

Lemma closure_pass_unfold (self : MinesweeperAI.t) :
  let marked := MinesweeperAI.mark_pass self in
  let appended :=
    foldl MinesweeperAI.append_new (MinesweeperAI.knowledge marked.1, 0)
          (MinesweeperAI.new_sentences (MinesweeperAI.knowledge marked.1)) in
  MinesweeperAI.closure_pass self =
  (MinesweeperAI.with_knowledge appended.1 marked.1,
   bool_decide (size marked.2 = 0%nat) && bool_decide (appended.2 = 0)).
Proof.
  unfold MinesweeperAI.closure_pass.
  destruct (MinesweeperAI.mark_pass self) as [self1 cells_changed]; simpl.
  by destruct (foldl _ _ _).
Qed.

Lemma closure_pass_extends (self : MinesweeperAI.t) :
  extends self (MinesweeperAI.closure_pass self).1.
Proof.
  rewrite closure_pass_unfold. simpl.
  eapply extends_trans; [apply mark_pass_extends|apply with_knowledge_extends].
Qed.

Lemma closure_extends (fuel : nat) (self self' : MinesweeperAI.t) :
  MinesweeperAI.closure fuel self = OK self' → extends self self'.
Proof.
  revert self. induction fuel as [|fuel IH]; intros self; simpl; [done|].
  pose proof (closure_pass_extends self) as Hext.
  destruct (MinesweeperAI.closure_pass self) as [self1 stop]; simpl in Hext.
  destruct stop.
  - inversion 1; by subst.
  - intros H. eapply extends_trans; [done|by apply IH].
Qed.

Lemma bind_OK {A B : Type} (m : result A) (k : A → result B) (b : B) :
  m ≫= k = OK b → ∃ a, m = OK a ∧ k a = OK b.
Proof. destruct m; simpl; [eauto|done|done]. Qed.

Lemma observe_extends (cell : Cell) (count : Z) (self self' : MinesweeperAI.t) :
  MinesweeperAI.observe cell count self = OK self' →
  extends self self' ∧ cell ∈ MinesweeperAI.moves_made self'
  ∧ cell ∈ MinesweeperAI.safes self'.
Proof.
  unfold MinesweeperAI.observe. intros H.
  apply bind_OK in H as (acc & _ & H). inversion H; subst; clear H.
  unfold extends; simpl. repeat split; set_solver.
Qed.

Lemma tidy_extends (fuel : nat) (self self' : MinesweeperAI.t) :
  MinesweeperAI.tidy fuel self = OK self' → extends self self'.
Proof. intros ->%tidy_spec. apply with_knowledge_extends. Qed.

Lemma add_knowledge_stages (fuel : nat) (cell : Cell) (count : Z)
    (self self' : MinesweeperAI.t) :
  MinesweeperAI.add_knowledge fuel cell count self = OK self' →
  ∃ observed closed,
    MinesweeperAI.observe cell count self = OK observed
    ∧ MinesweeperAI.closure fuel observed = OK closed
    ∧ MinesweeperAI.tidy fuel closed = OK self'.
Proof.
  unfold MinesweeperAI.add_knowledge. intros H.
  apply bind_OK in H as (observed & Ho & H).
  apply bind_OK in H as (closed & Hc & H). eauto.
Qed.

Lemma add_knowledge_extends (fuel : nat) (cell : Cell) (count : Z)
    (self self' : MinesweeperAI.t) :
  MinesweeperAI.add_knowledge fuel cell count self = OK self' →
  extends self self'.
Proof.
  intros (observed & closed & Ho & Hc & Ht)%add_knowledge_stages.
  apply observe_extends in Ho as [Ho _].
  apply closure_extends in Hc. apply tidy_extends in Ht.
  eauto using extends_trans.
Qed.

(** C10: no operation of the agent takes a cell out of [moves_made],
    [mines] or [safes]: after [mark_mine], [mark_safe], a returning
    [add_knowledge], [make_safe_move] and [make_random_move] each of the
    three sets includes its value before the call. *)
Theorem sets_grow (self : MinesweeperAI.t) (cell : Cell) (count : Z)
    (fuel draw : nat) :
  let grows (after : MinesweeperAI.t) :=
    MinesweeperAI.moves_made self ⊆ MinesweeperAI.moves_made after
    ∧ MinesweeperAI.mines self ⊆ MinesweeperAI.mines after
    ∧ MinesweeperAI.safes self ⊆ MinesweeperAI.safes after in
  grows (MinesweeperAI.mark_mine cell self)
  ∧ grows (MinesweeperAI.mark_safe cell self)
  ∧ (∀ self', MinesweeperAI.add_knowledge fuel cell count self = OK self' →
              grows self')
  ∧ grows (MinesweeperAI.make_safe_move draw self).2
  ∧ grows (MinesweeperAI.make_random_move draw self).2.
Proof.
  intros grows.
  assert (Hext : ∀ after, extends self after → grows after).
  { intros after (_ & _ & ? & ? & ?). by unfold grows. }
  split; [apply Hext, mark_mine_extends|].
  split; [apply Hext, mark_safe_extends|].
  split; [intros self' H; by eapply Hext, add_knowledge_extends|].
  split; apply Hext.
  - unfold MinesweeperAI.make_safe_move. case_bool_decide; apply extends_refl.
  - unfold MinesweeperAI.make_random_move. case_bool_decide; apply extends_refl.
Qed.

(** ** No sentence mentions a known cell (C9) *)

Lemma cells_mark_mine (cell : Cell) (s : Sentence.t) :
  Sentence.cells (Sentence.mark_mine cell s) = Sentence.cells s ∖ {[cell]}.
Proof. unfold Sentence.mark_mine. case_bool_decide; simpl; set_solver. Qed.

Lemma cells_mark_safe (cell : Cell) (s : Sentence.t) :
  Sentence.cells (Sentence.mark_safe cell s) = Sentence.cells s ∖ {[cell]}.
Proof. unfold Sentence.mark_safe. case_bool_decide; simpl; set_solver. Qed.

Lemma mark_mine_clean (cell : Cell) (self : MinesweeperAI.t) :
  clean self → clean (MinesweeperAI.mark_mine cell self).
Proof.
  unfold clean; simpl. intros Hc s' (s & -> & Hs)%list_elem_of_fmap.
  rewrite cells_mark_mine. specialize (Hc s Hs). set_solver.
Qed.

Lemma mark_safe_clean (cell : Cell) (self : MinesweeperAI.t) :
  clean self → clean (MinesweeperAI.mark_safe cell self).
Proof.
  unfold clean; simpl. intros Hc s' (s & -> & Hs)%list_elem_of_fmap.
  rewrite cells_mark_safe. specialize (Hc s Hs). set_solver.
Qed.

Lemma mark_pass_clean (self : MinesweeperAI.t) :
  clean self → clean (MinesweeperAI.mark_pass self).1.
Proof.
  intros Hc. apply (mark_pass_ind (λ st, clean st.1)); [done| |].
  - intros st s Hst _. apply (mark_all_ind (λ st, clean st.1)); [done|].
    intros st' c _ Hst'. by apply mark_mine_clean.
  - intros st s Hst _. apply (mark_all_ind (λ st, clean st.1)); [done|].
    intros st' c _ Hst'. by apply mark_safe_clean.
Qed.

Lemma closure_pass_clean (self : MinesweeperAI.t) :
  clean self → clean (MinesweeperAI.closure_pass self).1.
Proof.
  intros Hc%mark_pass_clean. rewrite closure_pass_unfold. simpl.
  destruct (MinesweeperAI.mark_pass self) as [self1 changed]; simpl in *.
  intros s. simpl. rewrite elem_of_append_new.
  intros [Hs | (s1 & s2 & _ & Hs2 & _ & ->)%elem_of_new_sentences]; [by apply Hc|].
  simpl. specialize (Hc s2 Hs2). set_solver.
Qed.

Lemma closure_clean (fuel : nat) (self self' : MinesweeperAI.t) :
  clean self → MinesweeperAI.closure fuel self = OK self' → clean self'.
Proof.
  revert self. induction fuel as [|fuel IH]; intros self Hc; simpl; [done|].
  apply closure_pass_clean in Hc.
  destruct (MinesweeperAI.closure_pass self) as [self1 stop]; simpl in Hc.
  destruct stop; [inversion 1; by subst | by apply IH].
Qed.

(** What the loop over the neighbours leaves in [sentence_cells] when it
    raises nothing. *)
Lemma sentence_fold_cells (self : MinesweeperAI.t) (l : list Cell)
    (acc acc' : gset Cell * Z) :
  foldM (MinesweeperAI.sentence_body self) acc l = OK acc' →
  acc'.1 = acc.1 ∖ (list_to_set l ∩ (MinesweeperAI.mines self ∪ MinesweeperAI.safes self)).
Proof.
  revert acc. induction l as [|c l IH]; intros acc; simpl.
  - inversion 1; subst. set_solver.
  - intros (acc1 & Hbody & Hrest)%bind_OK. rewrite (IH _ Hrest).
    assert (Hacc1 : acc1.1 = acc.1 ∖ ({[c]} ∩ (MinesweeperAI.mines self ∪ MinesweeperAI.safes self))).
    { unfold MinesweeperAI.sentence_body in Hbody.
      apply bind_OK in Hbody as (acc0 & H0 & Hbody).
      assert (H0' : acc0.1 = acc.1 ∖ ({[c]} ∩ MinesweeperAI.mines self)).
      { destruct (decide (c ∈ MinesweeperAI.mines self)) as [Hm|Hm].
        - rewrite (bool_decide_eq_true_2 _ Hm) in H0.
          apply bind_OK in H0 as (X & HX & H0). inversion H0; subst; simpl.
          unfold set_remove in HX.
          destruct (bool_decide (c ∈ acc.1)); [|done].
          inversion HX; subst. set_solver.
        - rewrite (bool_decide_eq_false_2 _ Hm) in H0.
          inversion H0; subst. set_solver. }
      destruct (decide (c ∈ MinesweeperAI.safes self)) as [Hs|Hs].
      - rewrite (bool_decide_eq_true_2 _ Hs) in Hbody.
        apply bind_OK in Hbody as (X & HX & Hbody). inversion Hbody; subst; simpl.
        unfold set_remove in HX.
        destruct (bool_decide (c ∈ acc0.1)); [|done].
        inversion HX; subst. rewrite H0'. set_solver.
      - rewrite (bool_decide_eq_false_2 _ Hs) in Hbody.
        inversion Hbody; subst. rewrite H0'. set_solver. }
    rewrite Hacc1. set_solver.
Qed.

Lemma observe_clean (cell : Cell) (count : Z) (self self' : MinesweeperAI.t) :
  clean self → MinesweeperAI.observe cell count self = OK self' → clean self'.
Proof.
  unfold MinesweeperAI.observe. intros Hc (acc & Hacc & H)%bind_OK.
  inversion H; subst; clear H.
  apply sentence_fold_cells in Hacc. simpl in Hacc.
  intros s. simpl. rewrite elem_of_app, list_elem_of_singleton.
  intros [(s0 & -> & Hs)%list_elem_of_fmap | ->].
  - rewrite cells_mark_safe. specialize (Hc s0 Hs). set_solver.
  - simpl. rewrite Hacc, list_to_set_elements_L. set_solver.
Qed.

Lemma tidy_clean (fuel : nat) (self self' : MinesweeperAI.t) :
  clean self → MinesweeperAI.tidy fuel self = OK self' → clean self'.
Proof.
  intros Hc ->%tidy_spec s. simpl.
  rewrite first_occurrences_elem, list_elem_of_filter. intros [_ Hs]. by apply Hc.
Qed.

Lemma add_knowledge_clean (fuel : nat) (cell : Cell) (count : Z)
    (self self' : MinesweeperAI.t) :
  clean self → MinesweeperAI.add_knowledge fuel cell count self = OK self' →
  clean self'.
Proof.
  intros Hc (observed & closed & Ho & Hcl & Ht)%add_knowledge_stages.
  eauto using observe_clean, closure_clean, tidy_clean.
Qed.

Lemma reachable_clean (self : MinesweeperAI.t) : reachable self → clean self.
Proof.
  induction 1 as [h w|c self _ IH|c self _ IH|fuel c n self self' _ IH Hadd].
  - intros s Hs. by apply elem_of_nil in Hs.
  - by apply mark_mine_clean.
  - by apply mark_safe_clean.
  - by eapply add_knowledge_clean.
Qed.

(** C9: in every state that the agent's operations produce from a new
    agent, and so whenever [add_knowledge] returns from such a state, no
    sentence of the knowledge base contains a cell of [mines] or [safes]. *)
Theorem no_sentence_mentions_known_cell (self : MinesweeperAI.t) :
  reachable self →
  (∀ s, s ∈ MinesweeperAI.knowledge self →
        Sentence.cells s ## MinesweeperAI.mines self ∪ MinesweeperAI.safes self)
  ∧ ∀ fuel cell count self',
      MinesweeperAI.add_knowledge fuel cell count self = OK self' →
      ∀ s, s ∈ MinesweeperAI.knowledge self' →
           Sentence.cells s ## MinesweeperAI.mines self' ∪ MinesweeperAI.safes self'.
Proof.
  intros Hr. split; [by apply reachable_clean|].
  intros fuel cell count self' Hadd.
  apply (reachable_clean self'). by eapply reachable_add_knowledge.
Qed.

(** ** Marking again changes nothing (C7) *)

Lemma Sentence_mark_mine_absent (cell : Cell) (s : Sentence.t) :
  cell ∉ Sentence.cells s → Sentence.mark_mine cell s = s.
Proof. intros Hc. unfold Sentence.mark_mine. by rewrite bool_decide_eq_false_2. Qed.

Lemma Sentence_mark_safe_absent (cell : Cell) (s : Sentence.t) :
  cell ∉ Sentence.cells s → Sentence.mark_safe cell s = s.
Proof. intros Hc. unfold Sentence.mark_safe. by rewrite bool_decide_eq_false_2. Qed.

Lemma fmap_fixed {A : Type} (f : A → A) (l : list A) :
  (∀ x, x ∈ l → f x = x) → f <$> l = l.
Proof.
  induction l as [|x l IH]; intros Hf; simpl; [done|].
  rewrite Hf by left. f_equal. apply IH. intros y Hy. apply Hf. by right.
Qed.

(** C7: marking a cell as a mine (as safe) a second time gives exactly the
    agent state that the first marking gave, the same sets and the same
    sentences; and in a state that the agent's operations produced, marking
    a cell that is already in [mines] (in [safes]) changes nothing at
    all. *)
Theorem mark_twice_once (cell : Cell) (self : MinesweeperAI.t) :
  MinesweeperAI.mark_mine cell (MinesweeperAI.mark_mine cell self)
    = MinesweeperAI.mark_mine cell self
  ∧ MinesweeperAI.mark_safe cell (MinesweeperAI.mark_safe cell self)
    = MinesweeperAI.mark_safe cell self
  ∧ (reachable self → cell ∈ MinesweeperAI.mines self →
     MinesweeperAI.mark_mine cell self = self)
  ∧ (reachable self → cell ∈ MinesweeperAI.safes self →
     MinesweeperAI.mark_safe cell self = self).
Proof.
  split; [|split; [|split]].
  - destruct self as [h w mm mi sa kb].
    unfold MinesweeperAI.mark_mine, MinesweeperAI.with_mines,
      MinesweeperAI.with_knowledge; simpl.
    f_equal; [set_solver|].
    rewrite <- list_fmap_compose. apply list_fmap_ext.
    intros i s _. apply Sentence_mark_mine_idem.
  - destruct self as [h w mm mi sa kb].
    unfold MinesweeperAI.mark_safe, MinesweeperAI.with_safes,
      MinesweeperAI.with_knowledge; simpl.
    f_equal; [set_solver|].
    rewrite <- list_fmap_compose. apply list_fmap_ext.
    intros i s _. apply Sentence_mark_safe_idem.
  - intros Hc%reachable_clean Hin. destruct self as [h w mm mi sa kb].
    unfold clean in Hc. simpl in *.
    unfold MinesweeperAI.mark_mine, MinesweeperAI.with_mines,
      MinesweeperAI.with_knowledge; simpl.
    f_equal; [set_solver|].
    apply fmap_fixed. intros s Hs. apply Sentence_mark_mine_absent.
    specialize (Hc s Hs). set_solver.
  - intros Hc%reachable_clean Hin. destruct self as [h w mm mi sa kb].
    unfold clean in Hc. simpl in *.
    unfold MinesweeperAI.mark_safe, MinesweeperAI.with_safes,
      MinesweeperAI.with_knowledge; simpl.
    f_equal; [set_solver|].
    apply fmap_fixed. intros s Hs. apply Sentence_mark_safe_absent.
    specialize (Hc s Hs). set_solver.
Qed.

(** C5: when [add_knowledge] returns, no sentence of the knowledge base has
    an empty cell set, no two of its sentences are equal in cells and count,
    and it consists of the non-empty sentences that the closure loop left,
    each kept once at its first occurrence. *)
Theorem knowledge_tidy_on_return (fuel : nat) (cell : Cell) (count : Z)
    (self self' : MinesweeperAI.t) :
  MinesweeperAI.add_knowledge fuel cell count self = OK self' →
  (∀ s, s ∈ MinesweeperAI.knowledge self' → Sentence.cells s ≠ ∅)
  ∧ (∀ i j s1 s2,
       MinesweeperAI.knowledge self' !! i = Some s1 →
       MinesweeperAI.knowledge self' !! j = Some s2 →
       Sentence.eq s1 s2 = true → i = j)
  ∧ ∃ closed,
      MinesweeperAI.observe cell count self ≫= MinesweeperAI.closure fuel = OK closed
      ∧ MinesweeperAI.knowledge self'
        = first_occurrences (filter nonempty (MinesweeperAI.knowledge closed)).
Proof.
  intros (observed & closed & Ho & Hc & Ht)%add_knowledge_stages.
  apply tidy_spec in Ht as ->. simpl. split; [|split].
  - intros s. rewrite first_occurrences_elem, list_elem_of_filter. by intros [Hs _].
  - intros i j s1 s2 Hi Hj ->%Sentence_eq_spec.
    eapply NoDup_lookup; [apply first_occurrences_NoDup|done..].
  - exists closed. split; [|done]. by rewrite Ho.
Qed.

(** ** What the agent believes is true of the board *)

Lemma mines_in_remove_mine (g : Minesweeper.t) (X : gset Cell) (c : Cell) :
  c ∈ X → Minesweeper.mine_at g c = true →
  mines_in g (X ∖ {[c]}) = mines_in g X + -1.
Proof.
  intros Hc Hm. unfold mines_in.
  replace (filter (λ c, Minesweeper.mine_at g c = true) (X ∖ {[c]}))
    with (filter (λ c, Minesweeper.mine_at g c = true) X ∖ {[c]}) by set_solver.
  rewrite size_difference by set_solver. rewrite size_singleton.
  assert (size (filter (λ c, Minesweeper.mine_at g c = true) X) ≠ 0)%nat; [|lia].
  apply size_non_empty_iff. set_solver.
Qed.

Lemma mines_in_remove_safe (g : Minesweeper.t) (X : gset Cell) (c : Cell) :
  Minesweeper.mine_at g c = false → mines_in g (X ∖ {[c]}) = mines_in g X.
Proof.
  intros Hm. unfold mines_in. do 2 f_equal. apply set_eq. intros x.
  rewrite !elem_of_filter, elem_of_difference, elem_of_singleton.
  split; [tauto|]. intros [Hx ?]. repeat split; [done..|]. intros ->. congruence.
Qed.

Lemma mines_in_add (g : Minesweeper.t) (X : gset Cell) (c : Cell) :
  c ∉ X →
  mines_in g ({[c]} ∪ X)
  = mines_in g X + (if Minesweeper.mine_at g c then 1 else 0).
Proof.
  intros Hc. unfold mines_in.
  replace (filter (λ c, Minesweeper.mine_at g c = true) ({[c]} ∪ X))
    with (filter (λ c, Minesweeper.mine_at g c = true) ({[c]} : gset Cell)
          ∪ filter (λ c, Minesweeper.mine_at g c = true) X) by set_solver.
  rewrite size_union by (set_unfold; naive_solver).
  destruct (Minesweeper.mine_at g c) eqn:Hm.
  - replace (filter (λ c, Minesweeper.mine_at g c = true) ({[c]} : gset Cell))
      with ({[c]} : gset Cell) by set_solver.
    rewrite size_singleton. lia.
  - replace (filter (λ c, Minesweeper.mine_at g c = true) ({[c]} : gset Cell))
      with (∅ : gset Cell).
    + rewrite size_empty. lia.
    + apply set_eq. intros x. rewrite elem_of_filter, elem_of_singleton.
      split; [set_solver|]. intros [? ->]. congruence.
Qed.

Lemma mines_in_difference (g : Minesweeper.t) (X1 X2 : gset Cell) :
  X1 ⊆ X2 → mines_in g (X2 ∖ X1) = mines_in g X2 - mines_in g X1.
Proof.
  intros Hsub. unfold mines_in.
  replace (filter (λ c, Minesweeper.mine_at g c = true) (X2 ∖ X1))
    with (filter (λ c, Minesweeper.mine_at g c = true) X2
          ∖ filter (λ c, Minesweeper.mine_at g c = true) X1) by set_solver.
  rewrite size_difference by set_solver.
  assert (size (filter (λ c, Minesweeper.mine_at g c = true) X1)
          ≤ size (filter (λ c, Minesweeper.mine_at g c = true) X2))%nat; [|lia].
  apply subseteq_size. set_solver.
Qed.

Lemma mines_in_all (g : Minesweeper.t) (X : gset Cell) (c : Cell) :
  Z.of_nat (size X) = mines_in g X → c ∈ X → Minesweeper.mine_at g c = true.
Proof.
  unfold mines_in. intros Hsz Hc.
  assert (Heq : filter (λ c, Minesweeper.mine_at g c = true) X ≡ X).
  { apply set_subseteq_size_equiv; [set_solver|lia]. }
  apply Heq in Hc. by apply elem_of_filter in Hc as [? _].
Qed.

Lemma mines_in_none (g : Minesweeper.t) (X : gset Cell) (c : Cell) :
  mines_in g X = 0 → c ∈ X → Minesweeper.mine_at g c = false.
Proof.
  unfold mines_in. intros Hsz Hc.
  assert (Hemp : filter (λ c, Minesweeper.mine_at g c = true) X ≡ ∅).
  { apply size_empty_inv. lia. }
  destruct (Minesweeper.mine_at g c) eqn:Hm; [|done].
  assert (c ∈ filter (λ c, Minesweeper.mine_at g c = true) X) by by apply elem_of_filter.
  set_solver.
Qed.

Lemma mines_in_bounds (g : Minesweeper.t) (X : gset Cell) :
  0 ≤ mines_in g X ≤ Z.of_nat (size X).
Proof.
  unfold mines_in. split; [lia|]. apply inj_le, subseteq_size.
  intros c. rewrite elem_of_filter. tauto.
Qed.

Lemma truthful_mark_mine (g : Minesweeper.t) (c : Cell) (s : Sentence.t) :
  Minesweeper.mine_at g c = true → truthful g s →
  truthful g (Sentence.mark_mine c s).
Proof.
  unfold truthful, Sentence.mark_mine. intros Hm Hs.
  case_bool_decide; simpl; [|done]. rewrite mines_in_remove_mine by done. lia.
Qed.

Lemma truthful_mark_safe (g : Minesweeper.t) (c : Cell) (s : Sentence.t) :
  Minesweeper.mine_at g c = false → truthful g s →
  truthful g (Sentence.mark_safe c s).
Proof.
  unfold truthful, Sentence.mark_safe. intros Hm Hs.
  case_bool_decide; simpl; [|done]. by rewrite mines_in_remove_safe.
Qed.

Lemma sound_mark_mine (g : Minesweeper.t) (c : Cell) (self : MinesweeperAI.t) :
  Minesweeper.mine_at g c = true → sound g self →
  sound g (MinesweeperAI.mark_mine c self).
Proof.
  intros Hm (Hh & Hw & Hmi & Hsa & Hkb). unfold sound; simpl.
  repeat split; [done..| | |].
  - intros x [->%elem_of_singleton|Hx]%elem_of_union; [done|by apply Hmi].
  - done.
  - intros s' (s & -> & Hs)%list_elem_of_fmap. apply truthful_mark_mine; auto.
Qed.

Lemma sound_mark_safe (g : Minesweeper.t) (c : Cell) (self : MinesweeperAI.t) :
  Minesweeper.mine_at g c = false → sound g self →
  sound g (MinesweeperAI.mark_safe c self).
Proof.
  intros Hm (Hh & Hw & Hmi & Hsa & Hkb). unfold sound; simpl.
  repeat split; [done..| | |].
  - done.
  - intros x [->%elem_of_singleton|Hx]%elem_of_union; [done|by apply Hsa].
  - intros s' (s & -> & Hs)%list_elem_of_fmap. apply truthful_mark_safe; auto.
Qed.

Lemma known_mines_real (g : Minesweeper.t) (s : Sentence.t) (c : Cell) :
  truthful g s → c ∈ (Sentence.known_mines s).1 → Minesweeper.mine_at g c = true.
Proof.
  unfold truthful. intros Hs. rewrite known_mines_fst.
  case_bool_decide as Hsz; [|set_solver].
  apply mines_in_all. congruence.
Qed.

Lemma known_safes_real (g : Minesweeper.t) (s : Sentence.t) (c : Cell) :
  truthful g s → c ∈ (Sentence.known_safes s).1 → Minesweeper.mine_at g c = false.
Proof.
  unfold truthful. intros Hs. rewrite known_safes_fst.
  case_bool_decide as Hsz; [|set_solver].
  apply mines_in_none. congruence.
Qed.

Lemma mark_pass_sound (g : Minesweeper.t) (self : MinesweeperAI.t) :
  sound g self → sound g (MinesweeperAI.mark_pass self).1.
Proof.
  intros Hs. apply (mark_pass_ind (λ st, sound g st.1)); [done| |].
  - intros st s Hst Hin. apply (mark_all_ind (λ st, sound g st.1)); [done|].
    intros st' c Hc Hst'. simpl. apply sound_mark_mine; [|done].
    eapply known_mines_real; [|done]. by apply Hst.
  - intros st s Hst Hin. apply (mark_all_ind (λ st, sound g st.1)); [done|].
    intros st' c Hc Hst'. simpl. apply sound_mark_safe; [|done].
    eapply known_safes_real; [|done]. by apply Hst.
Qed.

Lemma closure_pass_sound (g : Minesweeper.t) (self : MinesweeperAI.t) :
  sound g self → sound g (MinesweeperAI.closure_pass self).1.
Proof.
  intros Hs%mark_pass_sound. rewrite closure_pass_unfold. simpl.
  destruct (MinesweeperAI.mark_pass self) as [self1 changed]; simpl in *.
  destruct Hs as (Hh & Hw & Hmi & Hsa & Hkb).
  unfold sound; simpl. repeat split; [done..|].
  intros s. rewrite elem_of_append_new.
  intros [Hs | (s1 & s2 & Hs1 & Hs2 & Hsub & ->)%elem_of_new_sentences]; [by apply Hkb|].
  unfold truthful; simpl. rewrite mines_in_difference by set_solver.
  rewrite (Hkb s1 Hs1), (Hkb s2 Hs2). done.
Qed.

Lemma closure_sound (g : Minesweeper.t) (fuel : nat) (self self' : MinesweeperAI.t) :
  sound g self → MinesweeperAI.closure fuel self = OK self' → sound g self'.
Proof.
  revert self. induction fuel as [|fuel IH]; intros self Hs; simpl; [done|].
  apply closure_pass_sound in Hs.
  destruct (MinesweeperAI.closure_pass self) as [self1 stop]; simpl in Hs.
  destruct stop; [inversion 1; by subst | by apply IH].
Qed.

Lemma tidy_sound (g : Minesweeper.t) (fuel : nat) (self self' : MinesweeperAI.t) :
  sound g self → MinesweeperAI.tidy fuel self = OK self' → sound g self'.
Proof.
  intros (Hh & Hw & Hmi & Hsa & Hkb) ->%tidy_spec.
  unfold sound; simpl. repeat split; [done..|].
  intros s. rewrite first_occurrences_elem, list_elem_of_filter.
  intros [_ Hs]. by apply Hkb.
Qed.

Lemma window_NoDup (cell : Cell) : NoDup (window cell).
Proof.
  unfold window, range. apply NoDup_bind; [| |apply NoDup_seqZ].
  - intros i1 i2 y _ _ (j1 & H1 & _)%list_elem_of_bind (j2 & H2 & _)%list_elem_of_bind.
    apply list_elem_of_singleton in H1, H2. congruence.
  - intros i _. apply NoDup_bind; [| |apply NoDup_seqZ].
    + intros j1 j2 y _ _ H1%list_elem_of_singleton H2%list_elem_of_singleton.
      congruence.
    + intros j _. apply NoDup_singleton.
Qed.

Lemma mine_at_is_mine (g : Minesweeper.t) (c : Cell) (b : bool) :
  in_bounds (Minesweeper.height g) (Minesweeper.width g) c = true →
  Minesweeper.is_mine g c = OK b → Minesweeper.mine_at g c = b.
Proof. unfold Minesweeper.mine_at. intros -> ->. by destruct b. Qed.

(** The count of the board and the neighbourhood of the agent are computed
    by the same two nested loops. *)
Lemma nearby_mines_fold (g : Minesweeper.t) (self : MinesweeperAI.t)
    (cell : Cell) (l : list Cell) (X : gset Cell) (n0 n : Z) :
  MinesweeperAI.height self = Minesweeper.height g →
  MinesweeperAI.width self = Minesweeper.width g →
  NoDup l → (∀ c, c ∈ l → c ∉ X) →
  foldM (Minesweeper.nearby_mines_body g cell) n0 l = OK n →
  n - n0 =
  mines_in g (foldl (λ surrounding_cells ij,
                       if bool_decide (ij = cell) then surrounding_cells
                       else if in_bounds (MinesweeperAI.height self)
                                         (MinesweeperAI.width self) ij
                            then {[ij]} ∪ surrounding_cells
                            else surrounding_cells) X l)
  - mines_in g X.
Proof.
  intros Hh Hw. rewrite Hh, Hw.
  revert X n0. induction l as [|x l IH]; intros X n0 Hnd Hfresh; simpl.
  - inversion 1; subst. lia.
  - intros (n1 & Hbody & Hrest)%bind_OK.
    apply NoDup_cons in Hnd as [Hx Hnd].
    unfold Minesweeper.nearby_mines_body in Hbody.
    destruct (bool_decide (x = cell)).
    { inversion Hbody; subst. apply IH; [done| |done].
      intros c Hc. apply Hfresh. by right. }
    destruct (in_bounds (Minesweeper.height g) (Minesweeper.width g) x) eqn:Hb.
    + apply bind_OK in Hbody as (b & Hb' & Hbody). inversion Hbody; subst; clear Hbody.
      assert (Hfresh' : ∀ c, c ∈ l → c ∉ {[x]} ∪ X).
      { intros c Hc [->%elem_of_singleton|Hin]%elem_of_union; [done|].
        by apply (Hfresh c); [right|]. }
      assert (HIH := IH ({[x]} ∪ X) (if b then n0 + 1 else n0) Hnd Hfresh' Hrest).
      rewrite mines_in_add in HIH by (apply Hfresh; left).
      rewrite (mine_at_is_mine g x b Hb Hb') in HIH.
      destruct b; lia.
    + inversion Hbody; subst. apply IH; [done| |done].
      intros c Hc. apply Hfresh. by right.
Qed.

Lemma nearby_mines_surrounding (g : Minesweeper.t) (self : MinesweeperAI.t)
    (cell : Cell) (count : Z) :
  MinesweeperAI.height self = Minesweeper.height g →
  MinesweeperAI.width self = Minesweeper.width g →
  Minesweeper.nearby_mines g cell = OK count →
  count = mines_in g (MinesweeperAI.surrounding_cells self cell).
Proof.
  intros Hh Hw Hn. unfold MinesweeperAI.surrounding_cells.
  pose proof (nearby_mines_fold g self cell (window cell) ∅ 0 count Hh Hw
                (window_NoDup cell)) as H.
  assert (H0 : mines_in g ∅ = 0).
  { pose proof (mines_in_bounds g ∅) as Hb. rewrite size_empty in Hb. lia. }
  rewrite H0 in H. specialize (H ltac:(set_solver) Hn). lia.
Qed.

(** With sound beliefs the loop over the neighbours raises nothing and
    keeps the running count equal to the number of mines left in
    [sentence_cells]. *)
Lemma sentence_fold_sound (g : Minesweeper.t) (self : MinesweeperAI.t)
    (l : list Cell) (acc : gset Cell * Z) :
  sound g self → NoDup l → (∀ c, c ∈ l → c ∈ acc.1) →
  ∃ acc', foldM (MinesweeperAI.sentence_body self) acc l = OK acc'
          ∧ acc'.2 - mines_in g acc'.1 = acc.2 - mines_in g acc.1.
Proof.
  intros (_ & _ & Hmi & Hsa & _).
  revert acc. induction l as [|c l IH]; intros [X n] Hnd Hin; simpl in *.
  - by exists (X, n).
  - apply NoDup_cons in Hnd as [Hc Hnd].
    assert (HcX : c ∈ X) by (apply Hin; left).
    assert (Hrest : ∀ c', c' ∈ l → c' ∈ X ∖ {[c]}).
    { intros c' Hc'. apply elem_of_difference. split; [apply Hin; by right|].
      intros ->%elem_of_singleton. done. }
    assert (Hbody : ∃ acc1, MinesweeperAI.sentence_body self (X, n) c = OK acc1
              ∧ acc1.2 - mines_in g acc1.1 = n - mines_in g X
              ∧ ∀ c', c' ∈ l → c' ∈ acc1.1).
    { unfold MinesweeperAI.sentence_body, set_remove; simpl.
      destruct (decide (c ∈ MinesweeperAI.mines self)) as [Hm|Hm].
      - rewrite (bool_decide_eq_true_2 _ Hm), (bool_decide_eq_true_2 _ HcX). simpl.
        assert (Hns : c ∉ MinesweeperAI.safes self).
        { intros Hs. apply Hmi in Hm. apply Hsa in Hs. congruence. }
        rewrite (bool_decide_eq_false_2 _ Hns).
        eexists. split; [done|]. simpl. split; [|done].
        rewrite mines_in_remove_mine by auto. lia.
      - rewrite (bool_decide_eq_false_2 _ Hm). simpl.
        destruct (decide (c ∈ MinesweeperAI.safes self)) as [Hs|Hs].
        + rewrite (bool_decide_eq_true_2 _ Hs), (bool_decide_eq_true_2 _ HcX). simpl.
          eexists. split; [done|]. simpl. split; [|done].
          rewrite mines_in_remove_safe by auto. lia.
        + rewrite (bool_decide_eq_false_2 _ Hs).
          eexists. split; [done|]. simpl. split; [done|].
          intros c' Hc'. apply Hin. by right. }
    destruct Hbody as (acc1 & -> & Heq1 & Hin1). simpl.
    destruct (IH acc1 Hnd Hin1) as (acc' & -> & Heq).
    exists acc'. split; [done|]. lia.
Qed.

Lemma observe_sound (g : Minesweeper.t) (cell : Cell) (count : Z)
    (self : MinesweeperAI.t) :
  sound g self → Minesweeper.mine_at g cell = false →
  Minesweeper.nearby_mines g cell = OK count →
  ∃ self', MinesweeperAI.observe cell count self = OK self' ∧ sound g self'.
Proof.
  intros Hs Hcell Hcount. unfold MinesweeperAI.observe. cbv zeta.
  set (self0 := MinesweeperAI.with_moves_made
                  ({[cell]} ∪ MinesweeperAI.moves_made self) self).
  set (self1 := MinesweeperAI.mark_safe cell
                  (MinesweeperAI.with_safes ({[cell]} ∪ MinesweeperAI.safes self0)
                     self0)).
  assert (Hs1 : sound g self1).
  { apply sound_mark_safe; [done|].
    destruct Hs as (Hh & Hw & Hmi & Hsa & Hkb). unfold sound; simpl.
    repeat split; [done|done|done| |done].
    intros x [->%elem_of_singleton|Hx]%elem_of_union; [done|by apply Hsa]. }
  destruct (sentence_fold_sound g self1
              (elements (MinesweeperAI.surrounding_cells self1 cell))
              (MinesweeperAI.surrounding_cells self1 cell, count) Hs1)
    as (acc' & -> & Heq).
  { apply NoDup_elements. }
  { intros c. by rewrite elem_of_elements. }
  simpl in *. eexists. split; [done|].
  destruct Hs1 as (Hh & Hw & Hmi & Hsa & Hkb).
  rewrite <- (nearby_mines_surrounding g self1 cell count Hh Hw Hcount) in Heq.
  unfold sound; simpl. repeat split; [done..|].
  intros s [Hin | ->%list_elem_of_singleton]%elem_of_app; [by apply Hkb|].
  unfold truthful; simpl. lia.
Qed.

Lemma add_knowledge_sound (g : Minesweeper.t) (fuel : nat) (cell : Cell)
    (count : Z) (self self' : MinesweeperAI.t) :
  sound g self → valid_observation g self cell count →
  MinesweeperAI.add_knowledge fuel cell count self = OK self' → sound g self'.
Proof.
  intros Hs (_ & Hcell & Hcount) (observed & closed & Ho & Hc & Ht)%add_knowledge_stages.
  destruct (observe_sound g cell count self Hs Hcell Hcount) as (o & Ho' & Hso).
  rewrite Ho in Ho'. inversion Ho'; subst.
  eauto using closure_sound, tidy_sound.
Qed.

Lemma played_sound (g : Minesweeper.t) (self : MinesweeperAI.t) :
  played g self → sound g self.
Proof.
  induction 1 as [|fuel cell count self self' _ IH Hv Hadd].
  - unfold sound; simpl. repeat split; [set_solver..|].
    intros s Hs. by apply elem_of_nil in Hs.
  - by eapply add_knowledge_sound.
Qed.

(** C1: after any sequence of [add_knowledge] calls that satisfy the
    preconditions (the cell was not added before, holds no mine, and the
    count is the one the board reports), no cell is both in [mines] and in
    [safes]. *)
Theorem mines_safes_disjoint (g : Minesweeper.t) (self : MinesweeperAI.t) :
  played g self →
  MinesweeperAI.mines self ∩ MinesweeperAI.safes self = ∅.
Proof.
  intros (_ & _ & Hmi & Hsa & _)%played_sound.
  apply set_eq. intros c. rewrite elem_of_intersection. split; [|set_solver].
  intros [Hm%Hmi Hs%Hsa]. congruence.
Qed.

(** ** The closure loop terminates (C3) *)

Lemma elem_of_universe (kb : list Sentence.t) (c : Cell) :
  c ∈ universe kb ↔ ∃ s, s ∈ kb ∧ c ∈ Sentence.cells s.
Proof.
  unfold universe. rewrite elem_of_union_list. split.
  - intros (X & (s & -> & Hs)%list_elem_of_fmap & Hc). eauto.
  - intros (s & Hs & Hc). exists (Sentence.cells s). split; [|done].
    apply list_elem_of_fmap. eauto.
Qed.

Lemma elem_of_shapes (kb : list Sentence.t) (X : gset Cell) :
  X ∈ shapes kb ↔ ∃ s, s ∈ kb ∧ X = Sentence.cells s.
Proof.
  unfold shapes. rewrite elem_of_list_to_set, list_elem_of_fmap. naive_solver.
Qed.

Lemma size_set_map_inj (f : gset Cell → gset Cell) (D : gset (gset Cell)) :
  (∀ X Y, X ∈ D → Y ∈ D → f X = f Y → X = Y) →
  size (set_map (D:=gset (gset Cell)) f D) = size D.
Proof.
  intros Hinj. unfold set_map. rewrite size_list_to_set.
  - by rewrite length_fmap.
  - apply NoDup_fmap_2_strong; [|apply NoDup_elements].
    intros X Y HX%elem_of_elements HY%elem_of_elements. by apply Hinj.
Qed.

(** A family of subsets of [U] has at most [2 ^ size U] members. *)
Lemma subsets_bound (U : gset Cell) (D : gset (gset Cell)) :
  (∀ X, X ∈ D → X ⊆ U) → (size D ≤ 2 ^ size U)%nat.
Proof.
  revert D. induction U as [|x U Hx IH] using set_ind_L; intros D HD.
  - rewrite size_empty. simpl.
    assert (Hsub : D ⊆ {[ ∅ ]}).
    { intros X HX. apply elem_of_singleton. specialize (HD X HX). set_solver. }
    apply subseteq_size in Hsub. by rewrite size_singleton in Hsub.
  - rewrite size_union, size_singleton by set_solver.
    set (D1 := filter (λ X, x ∉ X) D).
    set (D2 := filter (λ X, x ∈ X) D).
    assert (HD12 : D = D1 ∪ D2).
    { apply set_eq. intros X. unfold D1, D2.
      rewrite elem_of_union, !elem_of_filter. destruct (decide (x ∈ X)); tauto. }
    assert (Hsz : size D = (size D1 + size D2)%nat).
    { rewrite HD12 at 1. apply size_union. intros X. unfold D1, D2.
      rewrite !elem_of_filter. tauto. }
    assert (H1 : (size D1 ≤ 2 ^ size U)%nat).
    { apply IH. intros X [HxX HX]%elem_of_filter. specialize (HD X HX). set_solver. }
    assert (H2 : (size D2 ≤ 2 ^ size U)%nat).
    { rewrite <- (size_set_map_inj (λ X, X ∖ {[x]}) D2).
      - apply IH. intros Y (X & -> & [HxX HX]%elem_of_filter)%elem_of_map.
        specialize (HD X HX). set_solver.
      - intros X Y [HxX _]%elem_of_filter [HxY _]%elem_of_filter Heq.
        apply set_eq. intros c. destruct (decide (c = x)) as [->|Hne]; [tauto|].
        assert (Hc : c ∈ X ∖ {[x]} ↔ c ∈ Y ∖ {[x]}) by by rewrite Heq.
        rewrite !elem_of_difference, !elem_of_singleton in Hc. tauto. }
    rewrite Hsz. simpl. lia.
Qed.

Lemma shapes_bound (kb : list Sentence.t) :
  (size (shapes kb) ≤ 2 ^ size (universe kb))%nat.
Proof.
  apply subsets_bound. intros X (s & Hs & ->)%elem_of_shapes c Hc.
  apply elem_of_universe. eauto.
Qed.

Lemma universe_mark_mine (c : Cell) (kb : list Sentence.t) :
  universe (Sentence.mark_mine c <$> kb) = universe kb ∖ {[c]}.
Proof.
  apply set_eq. intros x.
  rewrite elem_of_difference, !elem_of_universe. split.
  - intros (s' & (s & -> & Hs)%list_elem_of_fmap & Hx).
    rewrite cells_mark_mine in Hx. apply elem_of_difference in Hx as [Hx ?]. eauto.
  - intros [(s & Hs & Hx) Hne]. exists (Sentence.mark_mine c s).
    split; [apply list_elem_of_fmap; eauto|]. rewrite cells_mark_mine. set_solver.
Qed.

Lemma universe_mark_safe (c : Cell) (kb : list Sentence.t) :
  universe (Sentence.mark_safe c <$> kb) = universe kb ∖ {[c]}.
Proof.
  apply set_eq. intros x.
  rewrite elem_of_difference, !elem_of_universe. split.
  - intros (s' & (s & -> & Hs)%list_elem_of_fmap & Hx).
    rewrite cells_mark_safe in Hx. apply elem_of_difference in Hx as [Hx ?]. eauto.
  - intros [(s & Hs & Hx) Hne]. exists (Sentence.mark_safe c s).
    split; [apply list_elem_of_fmap; eauto|]. rewrite cells_mark_safe. set_solver.
Qed.

Lemma known_mines_cells (s : Sentence.t) :
  (Sentence.known_mines s).1 ⊆ Sentence.cells s.
Proof. rewrite known_mines_fst. case_bool_decide; set_solver. Qed.

Lemma known_safes_cells (s : Sentence.t) :
  (Sentence.known_safes s).1 ⊆ Sentence.cells s.
Proof. rewrite known_safes_fst. case_bool_decide; set_solver. Qed.

(** The marking sub-pass takes every cell it reports out of all sentences,
    reports only cells that some sentence mentioned, and changes nothing
    when it reports nothing. *)
Lemma mark_pass_universe (self : MinesweeperAI.t) :
  let U := universe (MinesweeperAI.knowledge self) in
  universe (MinesweeperAI.knowledge (MinesweeperAI.mark_pass self).1)
    ⊆ U ∖ (MinesweeperAI.mark_pass self).2
  ∧ (MinesweeperAI.mark_pass self).2 ⊆ U
  ∧ ((MinesweeperAI.mark_pass self).2 = ∅ → (MinesweeperAI.mark_pass self).1 = self).
Proof.
  intros U.
  set (P := λ st : MinesweeperAI.t * gset Cell,
         universe (MinesweeperAI.knowledge st.1) ⊆ U ∖ st.2
         ∧ st.2 ⊆ U ∧ (st.2 = ∅ → st.1 = self)).
  apply (mark_pass_ind P).
  - unfold P; simpl. split; [set_solver|]. split; [set_solver|done].
  - intros st s Hst Hs.
    assert (Hknown : (Sentence.known_mines s).1 ⊆ U).
    { intros c Hc%known_mines_cells. destruct Hst as (HU & _ & _).
      assert (c ∈ U ∖ st.2); [|set_solver]. apply HU, elem_of_universe. eauto. }
    apply (mark_all_ind P); [done|].
    intros st' c Hc (HU & Hch & _). unfold P; simpl.
    rewrite universe_mark_mine. split; [set_solver|]. split; [set_solver|].
    intros Hemp. exfalso. set_solver.
  - intros st s Hst Hs.
    assert (Hknown : (Sentence.known_safes s).1 ⊆ U).
    { intros c Hc%known_safes_cells. destruct Hst as (HU & _ & _).
      assert (c ∈ U ∖ st.2); [|set_solver]. apply HU, elem_of_universe. eauto. }
    apply (mark_all_ind P); [done|].
    intros st' c Hc (HU & Hch & _). unfold P; simpl.
    rewrite universe_mark_safe. split; [set_solver|]. split; [set_solver|].
    intros Hemp. exfalso. set_solver.
Qed.

Lemma append_new_changes (new kb : list Sentence.t) (n : Z) :
  n ≤ (foldl MinesweeperAI.append_new (kb, n) new).2
  ∧ ((foldl MinesweeperAI.append_new (kb, n) new).2 ≠ n →
     ∃ x, x ∈ new ∧ x ∉ kb).
Proof.
  revert kb n. induction new as [|y new IH]; intros kb n; simpl; [split; [lia|done]|].
  unfold MinesweeperAI.append_new at 2 4. simpl.
  destruct (contains y kb) eqn:Hc.
  - destruct (IH kb n) as [Hle Hex]. split; [done|].
    intros (x & Hx & Hn)%Hex. exists x. split; [by right|done].
  - apply contains_false in Hc. destruct (IH (kb ++ [y]) (n + 1)) as [Hle _].
    split; [lia|]. intros _. exists y. split; [left|done].
Qed.

(** One turn of the loop that does not leave it makes [measure] smaller,
    as long as the sentences are true of the board: either a cell leaves
    all sentences, or a sentence with a new cell set comes in. *)
Lemma closure_pass_measure (g : Minesweeper.t) (self : MinesweeperAI.t) :
  sound g self → (MinesweeperAI.closure_pass self).2 = false →
  (measure (MinesweeperAI.knowledge (MinesweeperAI.closure_pass self).1)
   < measure (MinesweeperAI.knowledge self))%nat.
Proof.
  intros Hs. pose proof (closure_pass_sound g self Hs) as Hs2.
  pose proof (mark_pass_sound g self Hs) as Hs1.
  rewrite closure_pass_unfold in *. simpl in *.
  destruct (mark_pass_universe self) as (HU & Hch & Hsame).
  destruct (MinesweeperAI.mark_pass self) as [self1 changed]; simpl in *.
  set (kb1 := MinesweeperAI.knowledge self1) in *.
  set (new := MinesweeperAI.new_sentences kb1) in *.
  set (kb2 := (foldl MinesweeperAI.append_new (kb1, 0) new).1) in *.
  assert (HU2 : universe kb2 = universe kb1).
  { apply set_eq. intros c. rewrite !elem_of_universe. split.
    - intros (s & Hin & Hc). apply elem_of_append_new in Hin as [Hin|Hin]; [eauto|].
      apply elem_of_new_sentences in Hin as (s1 & s2 & _ & Hs2' & _ & ->).
      exists s2. split; [done|]. simpl in Hc. set_solver.
    - intros (s & Hin & Hc). exists s. split; [|done].
      apply elem_of_append_new. by left. }
  assert (HD2 : shapes kb1 ⊆ shapes kb2).
  { intros X (s & Hin & ->)%elem_of_shapes. apply elem_of_shapes.
    exists s. split; [|done]. apply elem_of_append_new. by left. }
  pose proof (shapes_bound kb2) as Hb2.
  pose proof (shapes_bound (MinesweeperAI.knowledge self)) as Hb.
  unfold measure. rewrite HU2 in *.
  intros Hstop. apply andb_false_iff in Hstop as [Hstop|Hstop];
    apply bool_decide_eq_false in Hstop.
  - (* some cell was marked *)
    assert (Hlt : (size (universe kb1) < size (universe (MinesweeperAI.knowledge self)))%nat).
    { apply subset_size. split; [set_solver|].
      assert (Hne : changed ≠ ∅).
      { intros ->. by rewrite size_empty in Hstop. }
      apply set_choose_L in Hne as [c Hc]. set_solver. }
    assert (Hpow : (2 * 2 ^ size (universe kb1)
                    ≤ 2 ^ size (universe (MinesweeperAI.knowledge self)))%nat).
    { change (2 * 2 ^ size (universe kb1))%nat with (2 ^ S (size (universe kb1)))%nat.
      apply Nat.pow_le_mono_r; lia. }
    assert (Hpos : (0 < 2 ^ size (universe kb1))%nat) by (apply Nat.neq_0_lt_0, Nat.pow_nonzero; lia).
    lia.
  - (* nothing was marked, a sentence was added *)
    destruct (decide (changed = ∅)) as [Hemp|Hne].
    + assert (Hk : MinesweeperAI.knowledge self = kb1).
      { unfold kb1. by rewrite (Hsame Hemp). }
      rewrite Hk in *.
      destruct (append_new_changes new kb1 0) as [_ Hex].
      destruct (Hex Hstop) as (x & Hx & Hxkb).
      assert (Hlt : (size (shapes kb1) < size (shapes kb2))%nat).
      { apply subset_size. split; [done|]. intros Hsub.
        assert (HxD : Sentence.cells x ∈ shapes kb1).
        { apply Hsub, elem_of_shapes. exists x. split; [|done].
          apply elem_of_append_new. by right. }
        apply elem_of_shapes in HxD as (s & Hin & Heq).
        destruct Hs2 as (_ & _ & _ & _ & Hkb2). destruct Hs1 as (_ & _ & _ & _ & Hkb1).
        assert (Htx : truthful g x).
        { apply Hkb2. simpl. apply elem_of_append_new. by right. }
        assert (Hts : truthful g s) by by apply Hkb1.
        unfold truthful in Htx, Hts. apply Hxkb.
        replace x with s; [done|]. destruct s, x; simpl in *. congruence. }
      lia.
    + assert (Hlt : (size (universe kb1) < size (universe (MinesweeperAI.knowledge self)))%nat).
      { apply subset_size. split; [set_solver|].
        apply set_choose_L in Hne as [c Hc]. set_solver. }
      assert (Hpow : (2 * 2 ^ size (universe kb1)
                      ≤ 2 ^ size (universe (MinesweeperAI.knowledge self)))%nat).
      { change (2 * 2 ^ size (universe kb1))%nat with (2 ^ S (size (universe kb1)))%nat.
        apply Nat.pow_le_mono_r; lia. }
      assert (Hpos : (0 < 2 ^ size (universe kb1))%nat) by (apply Nat.neq_0_lt_0, Nat.pow_nonzero; lia).
      lia.
Qed.

Lemma closure_returns (g : Minesweeper.t) (fuel : nat) (self : MinesweeperAI.t) :
  sound g self → (measure (MinesweeperAI.knowledge self) < fuel)%nat →
  ∃ self', MinesweeperAI.closure fuel self = OK self'.
Proof.
  revert self. induction fuel as [|fuel IH]; intros self Hs Hfuel; [lia|].
  simpl. pose proof (closure_pass_measure g self Hs) as Hm.
  pose proof (closure_pass_sound g self Hs) as Hs'.
  destruct (MinesweeperAI.closure_pass self) as [self1 stop]; simpl in *.
  destruct stop; [eauto|]. apply IH; [done|]. specialize (Hm eq_refl). lia.
Qed.

Lemma closure_more_fuel (fuel fuel' : nat) (self self' : MinesweeperAI.t) :
  MinesweeperAI.closure fuel self = OK self' → (fuel ≤ fuel')%nat →
  MinesweeperAI.closure fuel' self = OK self'.
Proof.
  revert fuel' self. induction fuel as [|fuel IH]; intros fuel' self; simpl; [done|].
  intros H Hle. destruct fuel' as [|fuel']; [lia|]. simpl.
  destruct (MinesweeperAI.closure_pass self) as [self1 stop].
  destruct stop; [done|]. apply IH; [done|lia].
Qed.

Lemma add_knowledge_returns (g : Minesweeper.t) (cell : Cell) (count : Z)
    (self : MinesweeperAI.t) :
  sound g self → valid_observation g self cell count →
  ∃ observed closed fuel,
    MinesweeperAI.observe cell count self = OK observed
    ∧ (∀ fuel', (fuel ≤ fuel')%nat →
         MinesweeperAI.closure fuel' observed = OK closed
         ∧ ∃ self', MinesweeperAI.add_knowledge fuel' cell count self = OK self').
Proof.
  intros Hs (_ & Hcell & Hcount).
  destruct (observe_sound g cell count self Hs Hcell Hcount) as (observed & Ho & Hso).
  destruct (closure_returns g (S (measure (MinesweeperAI.knowledge observed)))
              observed Hso) as (closed & Hc); [lia|].
  exists observed, closed,
    (S (measure (MinesweeperAI.knowledge observed))
       `max` length (MinesweeperAI.knowledge closed))%nat.
  split; [done|]. intros fuel' Hfuel.
  assert (Hc' : MinesweeperAI.closure fuel' observed = OK closed).
  { eapply closure_more_fuel; [done|lia]. }
  split; [done|]. unfold MinesweeperAI.add_knowledge. rewrite Ho. simpl.
  rewrite Hc'. simpl. apply tidy_returns. lia.
Qed.

(** C3: for a call of [add_knowledge] that satisfies the preconditions,
    made in a state that such calls produced, the steps before the loop
    raise nothing and the closure loop terminates: from some amount of fuel
    on it returns, and so does the whole call. *)
Theorem closure_loop_terminates (g : Minesweeper.t) (self : MinesweeperAI.t)
    (cell : Cell) (count : Z) :
  played g self → valid_observation g self cell count →
  ∃ observed closed fuel,
    MinesweeperAI.observe cell count self = OK observed
    ∧ (∀ fuel', (fuel ≤ fuel')%nat →
         MinesweeperAI.closure fuel' observed = OK closed
         ∧ ∃ self', MinesweeperAI.add_knowledge fuel' cell count self = OK self').
Proof.
  intros Hp Hv. apply (add_knowledge_returns g); [by apply played_sound|done].
Qed.

(** ** Subset inference (C2) *)

Lemma append_new_present (kb : list Sentence.t) (n : Z) (x : Sentence.t) :
  x ∈ kb → MinesweeperAI.append_new (kb, n) x = (kb, n).
Proof.
  intros Hx%contains_spec. unfold MinesweeperAI.append_new. simpl. by rewrite Hx.
Qed.

Lemma append_new_fresh (kb : list Sentence.t) (n : Z) (x : Sentence.t) :
  x ∉ kb → MinesweeperAI.append_new (kb, n) x = (kb ++ [x], n + 1).
Proof.
  intros Hx%contains_false. unfold MinesweeperAI.append_new. simpl. by rewrite Hx.
Qed.

(** The appending loop extends the knowledge base by the new sentences that
    it does not hold yet, each once. *)
Lemma append_new_added (new kb : list Sentence.t) (n : Z) :
  ∃ added, (foldl MinesweeperAI.append_new (kb, n) new).1 = kb ++ added
           ∧ NoDup added ∧ ∀ x, x ∈ added ↔ x ∈ new ∧ x ∉ kb.
Proof.
  revert kb n. induction new as [|y new IH]; intros kb n; simpl.
  - exists []. rewrite app_nil_r. split; [done|]. split; [constructor|].
    intros x. split; [by intros ?%elem_of_nil | by intros [?%elem_of_nil _]].
  - destruct (decide (y ∈ kb)) as [Hy|Hy].
    + rewrite append_new_present by done.
      destruct (IH kb n) as (added & -> & Hnd & Hadded).
      exists added. split; [done|]. split; [done|]. intros x.
      rewrite Hadded, elem_of_cons. split; [tauto|].
      intros [[->|Hx] Hn]; tauto.
    + rewrite append_new_fresh by done.
      destruct (IH (kb ++ [y]) (n + 1)) as (added & -> & Hnd & Hadded).
      exists (y :: added). rewrite <- app_assoc. split; [done|]. split.
      * constructor; [|done]. rewrite Hadded, elem_of_app, list_elem_of_singleton. tauto.
      * intros x. rewrite !elem_of_cons, Hadded, elem_of_app, list_elem_of_singleton.
        destruct (decide (x = y)) as [->|]; tauto.
Qed.

Lemma mark_all_empty (mark : Cell → MinesweeperAI.t → MinesweeperAI.t)
    (st : MinesweeperAI.t * gset Cell) :
  MinesweeperAI.mark_all mark st ∅ = st.
Proof. unfold MinesweeperAI.mark_all. by rewrite elements_empty. Qed.

Lemma mark_step_idle (st : MinesweeperAI.t * gset Cell) (i : nat) (s : Sentence.t) :
  MinesweeperAI.knowledge st.1 !! i = Some s → idle s →
  MinesweeperAI.mark_step st i = st.
Proof.
  intros Hi [Hm Hs]. unfold MinesweeperAI.mark_step.
  rewrite Hi, Hm, mark_all_empty, Hi, Hs. apply mark_all_empty.
Qed.

Lemma mark_pass_idle (self : MinesweeperAI.t) :
  (∀ s, s ∈ MinesweeperAI.knowledge self → idle s) →
  MinesweeperAI.mark_pass self = (self, ∅).
Proof.
  intros Hidle. apply (mark_pass_ind (λ st, st = (self, ∅))); [done| |].
  - intros st s -> Hs. destruct (Hidle s Hs) as [-> _]. apply mark_all_empty.
  - intros st s -> Hs. destruct (Hidle s Hs) as [_ ->]. apply mark_all_empty.
Qed.

Lemma idle_partial (s : Sentence.t) :
  Sentence.count s ≠ 0 → Z.of_nat (size (Sentence.cells s)) ≠ Sentence.count s →
  idle s.
Proof.
  intros H0 Hsz. unfold idle. rewrite known_mines_fst, known_safes_fst.
  by rewrite !bool_decide_eq_false_2.
Qed.

Lemma idle_empty (s : Sentence.t) : Sentence.cells s = ∅ → idle s.
Proof.
  intros He. unfold idle. rewrite known_mines_fst, known_safes_fst, He.
  split; by case_bool_decide.
Qed.

(** A sentence that names one cell with count 1 makes the sub-pass mark
    that cell as a mine. *)
Lemma mark_step_single_mine (st : MinesweeperAI.t * gset Cell) (i : nat)
    (s : Sentence.t) (c : Cell) :
  MinesweeperAI.knowledge st.1 !! i = Some s →
  Sentence.cells s = {[c]} → Sentence.count s = 1 →
  MinesweeperAI.mark_step st i = (MinesweeperAI.mark_mine c st.1, {[c]} ∪ st.2).
Proof.
  intros Hi Hcells Hcount. unfold MinesweeperAI.mark_step.
  rewrite Hi, known_mines_fst, Hcells, Hcount, size_singleton.
  rewrite bool_decide_eq_true_2 by done.
  assert (Hin : MinesweeperAI.mark_all MinesweeperAI.mark_mine st {[c]}
                = (MinesweeperAI.mark_mine c st.1, {[c]} ∪ st.2)).
  { unfold MinesweeperAI.mark_all. by rewrite elements_singleton. }
  rewrite Hin.
  cbn [fst snd MinesweeperAI.mark_mine MinesweeperAI.with_knowledge
       MinesweeperAI.with_mines MinesweeperAI.knowledge].
  rewrite list_lookup_fmap, Hi. cbn [fmap option_fmap option_map].
  assert (Hsafe : (Sentence.known_safes (Sentence.mark_mine c s)).1 = ∅).
  { pose proof (known_safes_cells (Sentence.mark_mine c s)) as Hsub.
    rewrite cells_mark_mine, Hcells in Hsub. set_solver. }
  rewrite Hsafe. apply mark_all_empty.
Qed.

Ltac settle_decisions :=
  repeat match goal with
  | |- context [bool_decide ?P] =>
      first [ rewrite (bool_decide_eq_true_2 P) by set_solver
            | rewrite (bool_decide_eq_false_2 P) by set_solver ]
  end.

Section subset_scenario.

Context (A B C : Cell) (HAB : A ≠ B) (HAC : A ≠ C) (HBC : B ≠ C).

Local Abbreviation S1 := (pair_sentence A B).
Local Abbreviation S2 := (triple_sentence A B C).
Local Abbreviation S3 := (single_sentence C).
Local Abbreviation E := spent_sentence.

Lemma pair_idle : idle S1.
Proof.
  apply idle_partial; unfold pair_sentence; cbn [Sentence.cells Sentence.count]; [done|].
  rewrite size_union by set_solver. by rewrite !size_singleton.
Qed.

Lemma triple_idle : idle S2.
Proof.
  apply idle_partial; unfold triple_sentence; cbn [Sentence.cells Sentence.count]; [done|].
  rewrite !size_union by set_solver. by rewrite !size_singleton.
Qed.

Lemma scenario_new_sentences : MinesweeperAI.new_sentences [S1; S2] = [S3].
Proof.
  unfold MinesweeperAI.new_sentences. cbn [mbind list_bind app].
  unfold pair_sentence, triple_sentence; cbn [Sentence.cells Sentence.count].
  settle_decisions. simpl. unfold single_sentence. do 2 f_equal. set_solver.
Qed.

Lemma scenario_new_sentences_after : MinesweeperAI.new_sentences [S1; S1; E] = [S1; S1].
Proof.
  unfold MinesweeperAI.new_sentences. cbn [mbind list_bind app].
  unfold pair_sentence, spent_sentence; cbn [Sentence.cells Sentence.count].
  settle_decisions. simpl.
  replace ({[A; B]} ∖ ∅ : gset Cell) with ({[A; B]} : gset Cell) by set_solver. done.
Qed.

Lemma scenario_pass1 (h w : Z) (mm mi sa : gset Cell) :
  MinesweeperAI.closure_pass (MinesweeperAI.Build h w mm mi sa [S1; S2])
  = (MinesweeperAI.Build h w mm mi sa [S1; S2; S3], false).
Proof.
  rewrite closure_pass_unfold. rewrite mark_pass_idle.
  2:{ intros s. simpl. rewrite !elem_of_cons.
      intros [->|[->|[]%elem_of_nil]]; [apply pair_idle|apply triple_idle]. }
  cbn [fst snd MinesweeperAI.knowledge]. rewrite scenario_new_sentences. cbn [foldl].
  rewrite append_new_fresh.
  2:{ rewrite !elem_of_cons.
      intros [Heq|[Heq|[]%elem_of_nil]]; apply (f_equal Sentence.cells) in Heq;
        cbn [pair_sentence triple_sentence single_sentence Sentence.cells] in Heq;
        assert (A ∈ ({[C]} : gset Cell)) by (rewrite Heq; set_solver); set_solver. }
  rewrite size_empty. done.
Qed.

Lemma scenario_mark2 (h w : Z) (mm mi sa : gset Cell) :
  MinesweeperAI.mark_pass (MinesweeperAI.Build h w mm mi sa [S1; S2; S3])
  = (MinesweeperAI.Build h w mm ({[C]} ∪ mi) sa [S1; S1; E], {[C]}).
Proof.
  unfold MinesweeperAI.mark_pass. cbn [MinesweeperAI.knowledge length seq foldl].
  rewrite (mark_step_idle _ 0%nat S1) by (done || apply pair_idle).
  rewrite (mark_step_idle _ 1%nat S2) by (done || apply triple_idle).
  rewrite (mark_step_single_mine _ 2%nat S3 C) by done.
  unfold MinesweeperAI.mark_mine, MinesweeperAI.with_knowledge, MinesweeperAI.with_mines.
  cbn [fst snd MinesweeperAI.height MinesweeperAI.width MinesweeperAI.moves_made
       MinesweeperAI.mines MinesweeperAI.safes MinesweeperAI.knowledge fmap list_fmap].
  assert (H1 : Sentence.mark_mine C S1 = S1).
  { unfold Sentence.mark_mine, pair_sentence. cbn [Sentence.cells].
    by rewrite bool_decide_eq_false_2 by set_solver. }
  assert (H2 : Sentence.mark_mine C S2 = S1).
  { unfold Sentence.mark_mine, triple_sentence, pair_sentence.
    cbn [Sentence.cells Sentence.count].
    rewrite bool_decide_eq_true_2 by set_solver. f_equal. set_solver. }
  assert (H3 : Sentence.mark_mine C S3 = E).
  { unfold Sentence.mark_mine, single_sentence, spent_sentence.
    cbn [Sentence.cells Sentence.count].
    rewrite bool_decide_eq_true_2 by set_solver. f_equal. set_solver. }
  rewrite H1, H2, H3. f_equal. set_solver.
Qed.

Lemma scenario_pass2 (h w : Z) (mm mi sa : gset Cell) :
  MinesweeperAI.closure_pass (MinesweeperAI.Build h w mm mi sa [S1; S2; S3])
  = (MinesweeperAI.Build h w mm ({[C]} ∪ mi) sa [S1; S1; E], false).
Proof.
  rewrite closure_pass_unfold, scenario_mark2.
  cbn [fst snd MinesweeperAI.knowledge]. rewrite scenario_new_sentences_after.
  cbn [foldl]. rewrite !append_new_present by left.
  rewrite size_singleton. done.
Qed.

Lemma scenario_pass3 (h w : Z) (mm mi sa : gset Cell) :
  MinesweeperAI.closure_pass (MinesweeperAI.Build h w mm mi sa [S1; S1; E])
  = (MinesweeperAI.Build h w mm mi sa [S1; S1; E], true).
Proof.
  rewrite closure_pass_unfold. rewrite mark_pass_idle.
  2:{ intros s. simpl. rewrite !elem_of_cons.
      intros [->|[->|[->|[]%elem_of_nil]]];
        [apply pair_idle|apply pair_idle|by apply idle_empty]. }
  cbn [fst snd MinesweeperAI.knowledge]. rewrite scenario_new_sentences_after.
  cbn [foldl]. rewrite !append_new_present by left.
  rewrite size_empty. done.
Qed.

Lemma scenario_closure (h w : Z) (mm mi sa : gset Cell) (fuel : nat) :
  (3 ≤ fuel)%nat →
  MinesweeperAI.closure fuel (MinesweeperAI.Build h w mm mi sa [S1; S2])
  = OK (MinesweeperAI.Build h w mm ({[C]} ∪ mi) sa [S1; S1; E]).
Proof.
  intros Hf. apply (closure_more_fuel 3); [|done].
  cbn [MinesweeperAI.closure].
  rewrite scenario_pass1, scenario_pass2, scenario_pass3. done.
Qed.

End subset_scenario.

(** C2: in every turn of the closure loop, for any two sentences [S1], [S2]
    of the knowledge base (as the marking sub-pass left it) with the cells
    of [S1] a strict subset of those of [S2], the sentence
    [S2.cells − S1.cells = S2.count − S1.count] is in the knowledge base
    afterwards, appended at the end exactly when it was not there already.
    In particular, from [{A, B} = 1] and [{A, B, C} = 2] the first turn
    derives [{C} = 1], and the loop returns with [C] among the mines. *)
Theorem subset_inference :
  (∀ (self : MinesweeperAI.t) (S1 S2 : Sentence.t),
     let kb := MinesweeperAI.knowledge (MinesweeperAI.mark_pass self).1 in
     let kb' := MinesweeperAI.knowledge (MinesweeperAI.closure_pass self).1 in
     let derived :=
       Sentence.Sentence (Sentence.cells S2 ∖ Sentence.cells S1)
                         (Sentence.count S2 - Sentence.count S1) in
     S1 ∈ kb → S2 ∈ kb → Sentence.cells S1 ⊂ Sentence.cells S2 →
     derived ∈ kb'
     ∧ ∃ added, kb' = kb ++ added ∧ NoDup added
                ∧ (derived ∈ added ↔ derived ∉ kb))
  ∧ (∀ (A B C : Cell) (h w : Z) (mm mi sa : gset Cell),
       A ≠ B → A ≠ C → B ≠ C →
       let self :=
         MinesweeperAI.Build h w mm mi sa
           [Sentence.Sentence {[A; B]} 1; Sentence.Sentence {[A; B; C]} 2] in
       MinesweeperAI.knowledge (MinesweeperAI.closure_pass self).1
       = [Sentence.Sentence {[A; B]} 1; Sentence.Sentence {[A; B; C]} 2;
          Sentence.Sentence {[C]} 1]
       ∧ ∀ fuel, (3 ≤ fuel)%nat →
           ∃ self', MinesweeperAI.closure fuel self = OK self'
                    ∧ C ∈ MinesweeperAI.mines self').
Proof.
  split.
  - intros self S1 S2 kb kb' derived HS1 HS2 Hsub.
    assert (Hnew : derived ∈ MinesweeperAI.new_sentences kb).
    { apply elem_of_new_sentences. exists S1, S2. done. }
    unfold kb'. rewrite closure_pass_unfold. simpl. fold kb.
    split; [apply elem_of_append_new; by right|].
    destruct (append_new_added (MinesweeperAI.new_sentences kb) kb 0)
      as (added & -> & Hnd & Hadded).
    exists added. split; [done|]. split; [done|]. rewrite Hadded. tauto.
  - intros A B C h w mm mi sa HAB HAC HBC self. split.
    + unfold self.
      change (Sentence.Sentence {[A; B]} 1) with (pair_sentence A B).
      change (Sentence.Sentence {[A; B; C]} 2) with (triple_sentence A B C).
      by rewrite scenario_pass1.
    + intros fuel Hfuel. eexists. split.
      * unfold self.
        change (Sentence.Sentence {[A; B]} 1) with (pair_sentence A B).
        change (Sentence.Sentence {[A; B; C]} 2) with (triple_sentence A B C).
        by apply scenario_closure.
      * simpl. set_solver.
Qed.

(** ** The loop bounds of the model do not cut any loop short *)

(** The marking sub-pass never changes the length of the knowledge base,
    so visiting the positions below the initial length visits them all. *)
Lemma mark_pass_length (self : MinesweeperAI.t) :
  length (MinesweeperAI.knowledge (MinesweeperAI.mark_pass self).1)
  = length (MinesweeperAI.knowledge self).
Proof.
  apply (mark_pass_ind
           (λ st, length (MinesweeperAI.knowledge st.1)
                  = length (MinesweeperAI.knowledge self))); [done| |].
  - intros st s Hst _.
    apply (mark_all_ind
             (λ st, length (MinesweeperAI.knowledge st.1)
                    = length (MinesweeperAI.knowledge self))); [done|].
    intros st' c _ Hst'. simpl. by rewrite length_fmap.
  - intros st s Hst _.
    apply (mark_all_ind
             (λ st, length (MinesweeperAI.knowledge st.1)
                    = length (MinesweeperAI.knowledge self))); [done|].
    intros st' c _ Hst'. simpl. by rewrite length_fmap.
Qed.

(** The removing [for] loop stops because its position passes the end of
    the list: any bound of at least the remaining length gives the same
    result. *)
Lemma remove_scan_bound (n m i : nat) (kb : list Sentence.t) (tracker : Z) :
  (length kb - i ≤ n)%nat → (length kb - i ≤ m)%nat →
  MinesweeperAI.remove_scan n i kb tracker = MinesweeperAI.remove_scan m i kb tracker.
Proof.
  revert m i kb tracker. induction n as [|n IH]; intros m i kb tracker Hn Hm.
  - destruct m as [|m]; simpl; [done|].
    rewrite (proj2 (lookup_ge_None kb i)) by lia. done.
  - simpl. destruct (kb !! i) as [s|] eqn:Hi.
    + assert (Hlt := lookup_lt_Some _ _ _ Hi).
      destruct m as [|m]; [lia|]. simpl. rewrite Hi.
      case_bool_decide as Hs.
      * destruct (list_remove_split s kb) as (l1 & l2 & Hkb & ->);
          [by eapply list_elem_of_lookup_2|]. simpl.
        assert (length kb = S (length (l1 ++ l2))).
        { rewrite Hkb, !length_app. simpl. lia. }
        apply IH; lia.
      * apply IH; lia.
    + destruct m as [|m]; simpl; [done|]. by rewrite Hi.
Qed.

Lemma remove_empty_more_fuel (fuel fuel' : nat) (kb kb' : list Sentence.t)
    (tracker : Z) :
  MinesweeperAI.remove_empty fuel kb tracker = OK kb' → (fuel ≤ fuel')%nat →
  MinesweeperAI.remove_empty fuel' kb tracker = OK kb'.
Proof.
  revert fuel' kb tracker. induction fuel as [|fuel IH]; intros fuel' kb tracker.
  - simpl. destruct (decide (tracker = 0)) as [Ht|Ht].
    + rewrite (bool_decide_eq_true_2 _ Ht). intros Hret _.
      destruct fuel'; simpl; by rewrite (bool_decide_eq_true_2 _ Ht).
    + by rewrite (bool_decide_eq_false_2 _ Ht).
  - simpl. destruct (decide (tracker = 0)) as [Ht|Ht].
    + rewrite (bool_decide_eq_true_2 _ Ht). intros Hret _.
      destruct fuel'; simpl; by rewrite (bool_decide_eq_true_2 _ Ht).
    + rewrite (bool_decide_eq_false_2 _ Ht). intros Hret Hle.
      destruct fuel' as [|fuel']; [lia|]. simpl.
      rewrite (bool_decide_eq_false_2 _ Ht).
      destruct (MinesweeperAI.remove_scan (length kb) 0 kb tracker) as [st| |];
        simpl in *; [|done..].
      apply IH; [done|lia].
Qed.

(** The result of [add_knowledge] does not depend on the fuel, once there
    is enough of it. *)
Lemma add_knowledge_more_fuel (fuel fuel' : nat) (cell : Cell) (count : Z)
    (self self' : MinesweeperAI.t) :
  MinesweeperAI.add_knowledge fuel cell count self = OK self' →
  (fuel ≤ fuel')%nat →
  MinesweeperAI.add_knowledge fuel' cell count self = OK self'.
Proof.
  intros (observed & closed & Ho & Hc & Ht)%add_knowledge_stages Hle.
  unfold MinesweeperAI.add_knowledge. rewrite Ho. simpl.
  rewrite (closure_more_fuel fuel fuel' observed closed Hc Hle). simpl.
  unfold MinesweeperAI.tidy in *.
  apply bind_OK in Ht as (kb & Hkb & Ht).
  by rewrite (remove_empty_more_fuel fuel fuel' _ kb _ Hkb Hle).
Qed.

(** ** The theorems on the concrete games *)

Lemma played_agent13_2 : played board13 agent13_2.
Proof.
  apply (played_add_knowledge board13 5 (0, 1) 1 agent13_1 agent13_2).
  - apply (played_add_knowledge board13 5 (0, 0) 0 (MinesweeperAI.init 1 3) agent13_1).
    + exact (played_init board13).
    + split; [apply not_elem_of_empty | split; reflexivity].
    + exact board13_first.
  - split; [|split; reflexivity].
    apply (bool_decide_unpack _). vm_compute. exact I.
  - exact board13_second.
Qed.

Lemma played_agent33_2 : played board33 agent33_2.
Proof.
  apply (played_add_knowledge board33 5 (1, 1) 1 agent33_1 agent33_2).
  - apply (played_add_knowledge board33 5 (2, 2) 0 (MinesweeperAI.init 3 3) agent33_1).
    + exact (played_init board33).
    + split; [apply not_elem_of_empty | split; reflexivity].
    + exact board33_first.
  - split; [|split; reflexivity].
    apply (bool_decide_unpack _). vm_compute. exact I.
  - exact board33_second.
Qed.

Lemma valid_third33 : valid_observation board33 agent33_2 (0, 2) 0.
Proof.
  split; [|split; reflexivity].
  apply (bool_decide_unpack _). vm_compute. exact I.
Qed.

Lemma reachable_agent33_2 : reachable agent33_2.
Proof.
  apply (reachable_add_knowledge 5 (1, 1) 1 agent33_1 agent33_2).
  - apply (reachable_add_knowledge 5 (2, 2) 0 (MinesweeperAI.init 3 3) agent33_1).
    + apply reachable_init.
    + exact board33_first.
  - exact board33_second.
Qed.

(** C1 on the one-row board: after the two reveals, (0, 2) is a known mine
    and the safe cells are (0, 0) and (0, 1). *)
Lemma mines_safes_disjoint_witness :
  MinesweeperAI.mines agent13_2 ∩ MinesweeperAI.safes agent13_2 = ∅.
Proof.
  apply (mines_safes_disjoint board13 agent13_2). exact played_agent13_2.
Defined.

(** C2 with A = (0, 0), B = (0, 1), C = (0, 2). *)
Lemma subset_inference_witness :
  ∃ self',
    MinesweeperAI.closure 3
      (MinesweeperAI.Build 1 3 ∅ ∅ ∅
         [Sentence.Sentence {[(0, 0); (0, 1)]} 1;
          Sentence.Sentence {[(0, 0); (0, 1); (0, 2)]} 2]) = OK self'
    ∧ (0, 2) ∈ MinesweeperAI.mines self'.
Proof.
  apply (proj2 subset_inference (0, 0) (0, 1) (0, 2) 1 3 ∅ ∅ ∅);
    [discriminate | discriminate | discriminate | lia].
Defined.

(** C3 on the three-by-three board: the third reveal. *)
Lemma closure_loop_terminates_witness :
  ∃ observed closed fuel,
    MinesweeperAI.observe (0, 2) 0 agent33_2 = OK observed
    ∧ (∀ fuel', (fuel ≤ fuel')%nat →
         MinesweeperAI.closure fuel' observed = OK closed
         ∧ ∃ self', MinesweeperAI.add_knowledge fuel' (0, 2) 0 agent33_2 = OK self').
Proof.
  apply (closure_loop_terminates board33 agent33_2 (0, 2) 0).
  - exact played_agent33_2.
  - exact valid_third33.
Defined.

(** C5 on the three-by-three board: the third reveal. *)
Lemma knowledge_tidy_on_return_witness :
  (∀ s, s ∈ MinesweeperAI.knowledge agent33_3 → Sentence.cells s ≠ ∅)
  ∧ (∀ i j s1 s2,
       MinesweeperAI.knowledge agent33_3 !! i = Some s1 →
       MinesweeperAI.knowledge agent33_3 !! j = Some s2 →
       Sentence.eq s1 s2 = true → i = j)
  ∧ ∃ closed,
      MinesweeperAI.observe (0, 2) 0 agent33_2 ≫= MinesweeperAI.closure 5 = OK closed
      ∧ MinesweeperAI.knowledge agent33_3
        = first_occurrences (filter nonempty (MinesweeperAI.knowledge closed)).
Proof.
  apply (knowledge_tidy_on_return 5 (0, 2) 0 agent33_2 agent33_3).
  exact board33_third.
Defined.

(** C6 on the state of the specification's example. *)
Lemma make_safe_move_spec_witness :
  (MinesweeperAI.make_safe_move 7
     (MinesweeperAI.Build 1 3 {[(0, 0)]} ∅ {[(0, 0); (0, 1)]} [])).1 = Some (0, 1).
Proof.
  destruct (make_safe_move_spec 7
              (MinesweeperAI.Build 1 3 {[(0, 0)]} ∅ {[(0, 0); (0, 1)]} []))
    as (_ & _ & _ & H & _).
  apply H; reflexivity.
Defined.

(** C7 on the three-by-three board after two reveals: (1, 2) is already
    known to be safe. *)
Lemma mark_twice_once_witness :
  MinesweeperAI.mark_safe (1, 2) agent33_2 = agent33_2.
Proof.
  destruct (mark_twice_once (1, 2) agent33_2) as (_ & _ & _ & H).
  apply H.
  - exact reachable_agent33_2.
  - apply (bool_decide_unpack _). vm_compute. exact I.
Defined.

(** C8 on the one-row board after the first reveal: the candidates are
    (0, 1) and (0, 2), and (0, 2) is the answer for exactly one of the two
    draws. *)
Lemma make_random_move_spec_witness :
  ∃ k, (k < size (MinesweeperAI.all_cells agent13_1
                  ∖ MinesweeperAI.moves_made agent13_1
                  ∖ MinesweeperAI.mines agent13_1))%nat
       ∧ (MinesweeperAI.make_random_move k agent13_1).1 = Some (0, 2)
       ∧ ∀ k', (k' < size (MinesweeperAI.all_cells agent13_1
                            ∖ MinesweeperAI.moves_made agent13_1
                            ∖ MinesweeperAI.mines agent13_1))%nat →
               (MinesweeperAI.make_random_move k' agent13_1).1 = Some (0, 2) →
               k' = k.
Proof.
  destruct (make_random_move_spec 0 agent13_1) as (_ & _ & _ & _ & _ & H).
  apply (H (0, 2)). apply (bool_decide_unpack _). vm_compute. exact I.
Defined.

(** C9 on the three-by-three board after two reveals. *)
Lemma no_sentence_mentions_known_cell_witness :
  (∀ s, s ∈ MinesweeperAI.knowledge agent33_2 →
        Sentence.cells s ## MinesweeperAI.mines agent33_2 ∪ MinesweeperAI.safes agent33_2)
  ∧ ∀ fuel cell count self',
      MinesweeperAI.add_knowledge fuel cell count agent33_2 = OK self' →
      ∀ s, s ∈ MinesweeperAI.knowledge self' →
           Sentence.cells s ## MinesweeperAI.mines self' ∪ MinesweeperAI.safes self'.
Proof.
  apply (no_sentence_mentions_known_cell agent33_2). exact reachable_agent33_2.
Defined.

(** C10 on the three-by-three board: the third reveal. *)
Lemma sets_grow_witness :
  MinesweeperAI.moves_made agent33_2 ⊆ MinesweeperAI.moves_made agent33_3
  ∧ MinesweeperAI.mines agent33_2 ⊆ MinesweeperAI.mines agent33_3
  ∧ MinesweeperAI.safes agent33_2 ⊆ MinesweeperAI.safes agent33_3.
Proof.
  destruct (sets_grow agent33_2 (0, 2) 0 5 0) as (_ & _ & H & _).
  apply (H agent33_3). exact board33_third.
Defined.

(** ** Further properties of [add_knowledge] *)

Lemma mark_pass_moves_made (self : MinesweeperAI.t) :
  MinesweeperAI.moves_made (MinesweeperAI.mark_pass self).1
  = MinesweeperAI.moves_made self.
Proof.
  apply (mark_pass_ind
           (λ st, MinesweeperAI.moves_made st.1 = MinesweeperAI.moves_made self));
    [done| |].
  - intros st s Hst _.
    apply (mark_all_ind
             (λ st, MinesweeperAI.moves_made st.1 = MinesweeperAI.moves_made self));
      [done|].
    intros st' c _ Hst'. done.
  - intros st s Hst _.
    apply (mark_all_ind
             (λ st, MinesweeperAI.moves_made st.1 = MinesweeperAI.moves_made self));
      [done|].
    intros st' c _ Hst'. done.
Qed.

Lemma closure_pass_moves_made (self : MinesweeperAI.t) :
  MinesweeperAI.moves_made (MinesweeperAI.closure_pass self).1
  = MinesweeperAI.moves_made self.
Proof. rewrite closure_pass_unfold. simpl. apply mark_pass_moves_made. Qed.

Lemma closure_moves_made (fuel : nat) (self self' : MinesweeperAI.t) :
  MinesweeperAI.closure fuel self = OK self' →
  MinesweeperAI.moves_made self' = MinesweeperAI.moves_made self.
Proof.
  revert self. induction fuel as [|fuel IH]; intros self; simpl; [done|].
  pose proof (closure_pass_moves_made self) as Hmm.
  destruct (MinesweeperAI.closure_pass self) as [self1 stop]; simpl in Hmm.
  destruct stop.
  - intros [= <-]. exact Hmm.
  - intros H. rewrite (IH _ H). exact Hmm.
Qed.

Lemma add_knowledge_moves (fuel : nat) (cell : Cell) (count : Z)
    (self self' : MinesweeperAI.t) :
  MinesweeperAI.add_knowledge fuel cell count self = OK self' →
  MinesweeperAI.moves_made self' = {[cell]} ∪ MinesweeperAI.moves_made self
  ∧ cell ∈ MinesweeperAI.safes self'.
Proof.
  intros (observed & closed & Ho & Hc & Ht)%add_knowledge_stages.
  pose proof (closure_extends _ _ _ Hc) as (_ & _ & _ & _ & Hsafe).
  pose proof (closure_moves_made _ _ _ Hc) as Hmm.
  apply tidy_spec in Ht as ->. simpl. rewrite Hmm.
  pose proof (observe_extends _ _ _ _ Ho) as (_ & _ & Hs).
  split; [|set_solver].
  unfold MinesweeperAI.observe in Ho.
  apply bind_OK in Ho as (acc & _ & Ho). inversion Ho; subst. done.
Qed.

(** X1: a returning [add_knowledge(cell, count)] keeps the board size, adds
    exactly [cell] to [moves_made], and has [cell] in [safes] afterwards. *)
Theorem add_knowledge_records_move (fuel : nat) (cell : Cell) (count : Z)
    (self self' : MinesweeperAI.t) :
  MinesweeperAI.add_knowledge fuel cell count self = OK self' →
  MinesweeperAI.height self' = MinesweeperAI.height self
  ∧ MinesweeperAI.width self' = MinesweeperAI.width self
  ∧ MinesweeperAI.moves_made self' = {[cell]} ∪ MinesweeperAI.moves_made self
  ∧ cell ∈ MinesweeperAI.safes self'.
Proof.
  intros Hadd. pose proof (add_knowledge_extends _ _ _ _ _ Hadd) as (Hh & Hw & _).
  split; [done|]. split; [done|]. by eapply add_knowledge_moves.
Qed.

Lemma add_knowledge_records_move_witness :
  MinesweeperAI.height agent33_3 = MinesweeperAI.height agent33_2
  ∧ MinesweeperAI.width agent33_3 = MinesweeperAI.width agent33_2
  ∧ MinesweeperAI.moves_made agent33_3 = {[(0, 2)]} ∪ MinesweeperAI.moves_made agent33_2
  ∧ (0, 2) ∈ MinesweeperAI.safes agent33_3.
Proof.
  apply (add_knowledge_records_move 5 (0, 2) 0 agent33_2 agent33_3).
  exact board33_third.
Defined.

Lemma elem_of_window (cell c : Cell) :
  c ∈ window cell ↔
  (cell.1 - 1 ≤ c.1 ≤ cell.1 + 1 ∧ cell.2 - 1 ≤ c.2 ≤ cell.2 + 1).
Proof.
  unfold window, range. rewrite list_elem_of_bind. destruct c as [i j]; simpl. split.
  - intros (i' & (j' & Hij & Hj)%list_elem_of_bind & Hi).
    apply list_elem_of_singleton in Hij. inversion Hij; subst.
    apply elem_of_seqZ in Hi, Hj. lia.
  - intros [Hi Hj]. exists i. split; [|apply elem_of_seqZ; lia].
    apply list_elem_of_bind. exists j. split; [by apply list_elem_of_singleton|].
    apply elem_of_seqZ; lia.
Qed.

Lemma elem_of_surrounding_fold (height width : Z) (cell c : Cell) (l : list Cell)
    (X : gset Cell) :
  c ∈ foldl (λ surrounding_cells ij,
               if bool_decide (ij = cell) then surrounding_cells
               else if in_bounds height width ij
                    then {[ij]} ∪ surrounding_cells
                    else surrounding_cells) X l
  ↔ c ∈ X ∨ (c ∈ l ∧ c ≠ cell ∧ in_bounds height width c = true).
Proof.
  revert X. induction l as [|x l IH]; intros X; simpl.
  - split; [by left|]. intros [?|[?%elem_of_nil _]]; done.
  - rewrite IH, elem_of_cons. case_bool_decide as Hx.
    + subst x. split; [tauto|]. intros [?|[[->|?] [? ?]]]; tauto.
    + destruct (in_bounds height width x) eqn:Hb.
      * rewrite elem_of_union, elem_of_singleton. split.
        -- intros [[->|?]|?]; tauto.
        -- intros [?|[[->|?] [? ?]]]; tauto.
      * split; [tauto|]. intros [?|[[->|?] [? Hc]]]; [tauto| |tauto]. congruence.
Qed.

(** The neighbourhood built in step 3: the cells of the board next to
    [cell] (one row and one column away at most), without [cell]. *)
Lemma elem_of_surrounding_cells (self : MinesweeperAI.t) (cell c : Cell) :
  c ∈ MinesweeperAI.surrounding_cells self cell ↔
  (c ≠ cell
   ∧ in_bounds (MinesweeperAI.height self) (MinesweeperAI.width self) c = true
   ∧ cell.1 - 1 ≤ c.1 ≤ cell.1 + 1 ∧ cell.2 - 1 ≤ c.2 ≤ cell.2 + 1).
Proof.
  unfold MinesweeperAI.surrounding_cells.
  rewrite elem_of_surrounding_fold, elem_of_window. set_solver.
Qed.

Lemma surrounding_cells_size (self self' : MinesweeperAI.t) (cell : Cell) :
  MinesweeperAI.height self = MinesweeperAI.height self' →
  MinesweeperAI.width self = MinesweeperAI.width self' →
  MinesweeperAI.surrounding_cells self cell = MinesweeperAI.surrounding_cells self' cell.
Proof. intros Hh Hw. unfold MinesweeperAI.surrounding_cells. by rewrite Hh, Hw. Qed.

(** The loop over the neighbours ends in [KeyError] exactly when one of them
    is both in [mines] and in [safes]: such a cell is removed twice. *)
Lemma sentence_fold_result (self : MinesweeperAI.t) (l : list Cell)
    (acc : gset Cell * Z) :
  NoDup l → (∀ c, c ∈ l → c ∈ acc.1) →
  ((∃ c, c ∈ l ∧ c ∈ MinesweeperAI.mines self ∧ c ∈ MinesweeperAI.safes self)
   ∧ foldM (MinesweeperAI.sentence_body self) acc l = Raise KeyError)
  ∨ ((¬ ∃ c, c ∈ l ∧ c ∈ MinesweeperAI.mines self ∧ c ∈ MinesweeperAI.safes self)
     ∧ ∃ acc', foldM (MinesweeperAI.sentence_body self) acc l = OK acc').
Proof.
  revert acc. induction l as [|c l IH]; intros [X n] Hnd Hin; simpl in *.
  - right. split; [|eauto]. intros (c & []%elem_of_nil & _).
  - apply NoDup_cons in Hnd as [Hc Hnd].
    assert (HcX : c ∈ X) by (apply Hin; left).
    assert (Hrest : ∀ c', c' ∈ l → c' ∈ X ∖ {[c]}).
    { intros c' Hc'. apply elem_of_difference. split; [apply Hin; by right|].
      intros ->%elem_of_singleton. done. }
    assert (Hrest' : ∀ c', c' ∈ l → c' ∈ X).
    { intros c' Hc'. apply Hin. by right. }
    assert (Hbody :
      (c ∈ MinesweeperAI.mines self ∧ c ∈ MinesweeperAI.safes self
       ∧ MinesweeperAI.sentence_body self (X, n) c = Raise KeyError)
      ∨ (¬ (c ∈ MinesweeperAI.mines self ∧ c ∈ MinesweeperAI.safes self)
         ∧ ∃ acc1, MinesweeperAI.sentence_body self (X, n) c = OK acc1
                   ∧ ∀ c', c' ∈ l → c' ∈ acc1.1)).
    { unfold MinesweeperAI.sentence_body, set_remove; simpl.
      destruct (decide (c ∈ MinesweeperAI.mines self)) as [Hm|Hm];
        destruct (decide (c ∈ MinesweeperAI.safes self)) as [Hs|Hs].
      - left. split; [done|]. split; [done|].
        rewrite (bool_decide_eq_true_2 _ Hm), (bool_decide_eq_true_2 _ HcX). simpl.
        rewrite (bool_decide_eq_true_2 _ Hs).
        rewrite bool_decide_eq_false_2 by set_solver. done.
      - right. split; [tauto|].
        rewrite (bool_decide_eq_true_2 _ Hm), (bool_decide_eq_true_2 _ HcX). simpl.
        rewrite (bool_decide_eq_false_2 _ Hs). eauto.
      - right. split; [tauto|].
        rewrite (bool_decide_eq_false_2 _ Hm). simpl.
        rewrite (bool_decide_eq_true_2 _ Hs), (bool_decide_eq_true_2 _ HcX). simpl.
        eauto.
      - right. split; [tauto|].
        rewrite (bool_decide_eq_false_2 _ Hm). simpl.
        rewrite (bool_decide_eq_false_2 _ Hs). eauto. }
    destruct Hbody as [(Hm & Hs & ->)|(Hno & acc1 & -> & Hin1)]; simpl.
    + left. split; [|done]. exists c. split; [left|done].
    + destruct (IH acc1 Hnd Hin1) as [[(c' & Hc' & Hm & Hs) ->]|[Hnone (acc' & ->)]].
      * left. split; [|done]. exists c'. split; [by right|done].
      * right. split; [|eauto].
        intros (c' & [->|Hc']%elem_of_cons & Hm & Hs); [tauto|].
        apply Hnone. eauto.
Qed.

Lemma observe_result (cell : Cell) (count : Z) (self : MinesweeperAI.t) :
  ((∃ c, c ∈ MinesweeperAI.surrounding_cells self cell
         ∧ c ∈ MinesweeperAI.mines self ∧ c ∈ MinesweeperAI.safes self)
   ∧ MinesweeperAI.observe cell count self = Raise KeyError)
  ∨ ((¬ ∃ c, c ∈ MinesweeperAI.surrounding_cells self cell
             ∧ c ∈ MinesweeperAI.mines self ∧ c ∈ MinesweeperAI.safes self)
     ∧ ∃ observed, MinesweeperAI.observe cell count self = OK observed).
Proof.
  unfold MinesweeperAI.observe. cbv zeta.
  set (self0 := MinesweeperAI.with_moves_made
                  ({[cell]} ∪ MinesweeperAI.moves_made self) self).
  set (self1 := MinesweeperAI.mark_safe cell
                  (MinesweeperAI.with_safes ({[cell]} ∪ MinesweeperAI.safes self0)
                     self0)).
  assert (Hsur : MinesweeperAI.surrounding_cells self1 cell
                 = MinesweeperAI.surrounding_cells self cell).
  { by apply surrounding_cells_size. }
  assert (Hiff : ∀ c, c ∈ MinesweeperAI.surrounding_cells self cell →
            (c ∈ MinesweeperAI.mines self1 ∧ c ∈ MinesweeperAI.safes self1)
            ↔ (c ∈ MinesweeperAI.mines self ∧ c ∈ MinesweeperAI.safes self)).
  { intros c (Hne & _)%elem_of_surrounding_cells. simpl. set_solver. }
  rewrite Hsur.
  destruct (sentence_fold_result self1
              (elements (MinesweeperAI.surrounding_cells self cell))
              (MinesweeperAI.surrounding_cells self cell, count))
    as [[(c & Hc & Hms) ->]|[Hnone (acc' & ->)]].
  - apply NoDup_elements.
  - intros c. by rewrite elem_of_elements.
  - left. split; [|done]. apply elem_of_elements in Hc.
    exists c. split; [done|]. by apply Hiff.
  - right. simpl. split; [|eauto]. intros (c & Hc & Hms). apply Hnone.
    exists c. split; [by apply elem_of_elements|]. by apply Hiff.
Qed.

Lemma closure_never_raises (fuel : nat) (self : MinesweeperAI.t) (e : exn) :
  MinesweeperAI.closure fuel self ≠ Raise e.
Proof.
  revert self. induction fuel as [|fuel IH]; intros self; simpl; [done|].
  destruct (MinesweeperAI.closure_pass self) as [self1 stop].
  destruct stop; [done|apply IH].
Qed.

Lemma tidy_never_raises (fuel : nat) (self : MinesweeperAI.t) (e : exn) :
  MinesweeperAI.tidy fuel self ≠ Raise e.
Proof.
  unfold MinesweeperAI.tidy. rewrite count_empty_empties.
  by destruct (remove_empty_spec fuel (MinesweeperAI.knowledge self)) as [[->| ->] _].
Qed.

(** X2: the only exception [add_knowledge] can raise is [KeyError], and it
    raises it exactly when a neighbour of [cell] on the board is both in
    [mines] and in [safes]; [list.remove] never fails in the tidying, and
    nothing is indexed out of range. *)
Theorem add_knowledge_raises (fuel : nat) (cell : Cell) (count : Z)
    (self : MinesweeperAI.t) :
  let clash :=
    ∃ c, c ∈ MinesweeperAI.surrounding_cells self cell
         ∧ c ∈ MinesweeperAI.mines self ∧ c ∈ MinesweeperAI.safes self in
  (clash → MinesweeperAI.add_knowledge fuel cell count self = Raise KeyError)
  ∧ (¬ clash → ∀ e, MinesweeperAI.add_knowledge fuel cell count self ≠ Raise e)
  ∧ (∀ e, MinesweeperAI.add_knowledge fuel cell count self = Raise e → e = KeyError).
Proof.
  intros clash. unfold MinesweeperAI.add_knowledge.
  destruct (observe_result cell count self) as [[Hc ->]|[Hn (observed & ->)]]; simpl.
  - split; [done|]. split; [tauto|]. by intros e [= <-].
  - assert (Hnever : ∀ e,
        MinesweeperAI.closure fuel observed ≫= MinesweeperAI.tidy fuel ≠ Raise e).
    { intros e. pose proof (closure_never_raises fuel observed e) as Hc.
      destruct (MinesweeperAI.closure fuel observed) as [closed|e'|]; simpl; [|congruence|done].
      apply tidy_never_raises. }
    split; [tauto|]. split; [done|]. intros e He. by apply Hnever in He.
Qed.

Lemma add_knowledge_raises_witness :
  MinesweeperAI.add_knowledge 5 (0, 0) 0
    (MinesweeperAI.mark_safe (0, 1)
       (MinesweeperAI.mark_mine (0, 1) (MinesweeperAI.init 1 3)))
  = Raise KeyError.
Proof.
  apply (add_knowledge_raises 5 (0, 0) 0).
  exists (0, 1).
  split; [|split]; apply (bool_decide_unpack _); vm_compute; exact I.
Defined.

Lemma make_safe_move_elem (draw : nat) (self : MinesweeperAI.t) (c : Cell) :
  (MinesweeperAI.make_safe_move draw self).1 = Some c →
  c ∈ MinesweeperAI.safes self ∧ c ∉ MinesweeperAI.moves_made self.
Proof.
  unfold MinesweeperAI.make_safe_move, random_choice.
  case_bool_decide; simpl; [done|].
  intros Hc%list_elem_of_lookup_2%elem_of_elements. set_solver.
Qed.

(** X3: after [add_knowledge] calls that satisfy the preconditions, what
    the agent holds is true of the board: every cell of [mines] holds a
    mine, no cell of [safes] does, every sentence counts the mines among its
    cells, and so the cell that [make_safe_move] answers is never a mine. *)
Theorem beliefs_are_true (g : Minesweeper.t) (self : MinesweeperAI.t) :
  played g self →
  (∀ c, c ∈ MinesweeperAI.mines self → Minesweeper.mine_at g c = true)
  ∧ (∀ c, c ∈ MinesweeperAI.safes self → Minesweeper.mine_at g c = false)
  ∧ (∀ s, s ∈ MinesweeperAI.knowledge self →
          Sentence.count s = mines_in g (Sentence.cells s))
  ∧ (∀ draw c, (MinesweeperAI.make_safe_move draw self).1 = Some c →
               Minesweeper.mine_at g c = false).
Proof.
  intros (_ & _ & Hmi & Hsa & Hkb)%played_sound.
  split; [done|]. split; [done|]. split; [done|].
  intros draw c [Hc _]%make_safe_move_elem. by apply Hsa.
Qed.

Lemma beliefs_are_true_witness :
  (∀ c, c ∈ MinesweeperAI.mines agent13_2 → Minesweeper.mine_at board13 c = true)
  ∧ (∀ c, c ∈ MinesweeperAI.safes agent13_2 → Minesweeper.mine_at board13 c = false)
  ∧ (∀ s, s ∈ MinesweeperAI.knowledge agent13_2 →
          Sentence.count s = mines_in board13 (Sentence.cells s))
  ∧ (∀ draw c, (MinesweeperAI.make_safe_move draw agent13_2).1 = Some c →
               Minesweeper.mine_at board13 c = false).
Proof. apply (beliefs_are_true board13 agent13_2). exact played_agent13_2. Defined.

(** X4: in every state that the agent's operations produce from a new
    agent, every move made is a cell known to be safe. *)
Theorem moves_made_are_safes (self : MinesweeperAI.t) :
  reachable self →
  MinesweeperAI.moves_made self ⊆ MinesweeperAI.safes self.
Proof.
  induction 1 as [h w|c self _ IH|c self _ IH|fuel c n self self' _ IH Hadd].
  - done.
  - done.
  - simpl. set_solver.
  - pose proof (add_knowledge_moves _ _ _ _ _ Hadd) as [-> Hc].
    pose proof (add_knowledge_extends _ _ _ _ _ Hadd) as (_ & _ & _ & _ & Hs).
    set_solver.
Qed.

Lemma moves_made_are_safes_witness :
  MinesweeperAI.moves_made agent33_2 ⊆ MinesweeperAI.safes agent33_2.
Proof. apply (moves_made_are_safes agent33_2). exact reachable_agent33_2. Defined.

(** ** The agent stays on the board *)

Lemma mark_mine_on_board (c : Cell) (self : MinesweeperAI.t) :
  in_bounds (MinesweeperAI.height self) (MinesweeperAI.width self) c = true →
  on_board self → on_board (MinesweeperAI.mark_mine c self).
Proof.
  intros Hc [Hkb Hmi]. split; simpl.
  - intros s' x (s & -> & Hs)%list_elem_of_fmap. rewrite cells_mark_mine.
    intros [Hx _]%elem_of_difference. by eapply Hkb.
  - intros x [->%elem_of_singleton|Hx]%elem_of_union; [done|by apply Hmi].
Qed.

Lemma mark_safe_on_board (c : Cell) (self : MinesweeperAI.t) :
  on_board self → on_board (MinesweeperAI.mark_safe c self).
Proof.
  intros [Hkb Hmi]. split; simpl; [|done].
  intros s' x (s & -> & Hs)%list_elem_of_fmap. rewrite cells_mark_safe.
  intros [Hx _]%elem_of_difference. by eapply Hkb.
Qed.

Lemma mark_pass_on_board (self : MinesweeperAI.t) :
  on_board self → on_board (MinesweeperAI.mark_pass self).1.
Proof.
  intros Hb.
  set (P := λ st : MinesweeperAI.t * gset Cell,
         on_board st.1
         ∧ MinesweeperAI.height st.1 = MinesweeperAI.height self
         ∧ MinesweeperAI.width st.1 = MinesweeperAI.width self).
  assert (HP : P (MinesweeperAI.mark_pass self)); [|by destruct HP].
  apply (mark_pass_ind P); [by unfold P| |].
  - intros st s (Hst & Hh & Hw) Hs.
    assert (HK : ∀ c, c ∈ (Sentence.known_mines s).1 →
                      in_bounds (MinesweeperAI.height self) (MinesweeperAI.width self) c = true).
    { intros c Hc%known_mines_cells. rewrite <- Hh, <- Hw. by eapply (proj1 Hst). }
    apply (mark_all_ind P); [by unfold P|].
    intros st' c Hc (Hst' & Hh' & Hw'). unfold P; simpl. split; [|done].
    apply mark_mine_on_board; [|done]. rewrite Hh', Hw'. by apply HK.
  - intros st s (Hst & Hh & Hw) Hs.
    apply (mark_all_ind P); [by unfold P|].
    intros st' c Hc (Hst' & Hh' & Hw'). unfold P; simpl. split; [|done].
    by apply mark_safe_on_board.
Qed.

Lemma closure_pass_on_board (self : MinesweeperAI.t) :
  on_board self → on_board (MinesweeperAI.closure_pass self).1.
Proof.
  intros [Hkb Hmi]%mark_pass_on_board. rewrite closure_pass_unfold. simpl.
  destruct (MinesweeperAI.mark_pass self) as [self1 changed]; simpl in *.
  split; simpl; [|done]. intros s c. rewrite elem_of_append_new.
  intros [Hs | (s1 & s2 & _ & Hs2 & _ & ->)%elem_of_new_sentences]; [by apply Hkb|].
  simpl. intros [Hc _]%elem_of_difference. by eapply Hkb.
Qed.

Lemma closure_on_board (fuel : nat) (self self' : MinesweeperAI.t) :
  on_board self → MinesweeperAI.closure fuel self = OK self' → on_board self'.
Proof.
  revert self. induction fuel as [|fuel IH]; intros self Hb; simpl; [done|].
  apply closure_pass_on_board in Hb.
  destruct (MinesweeperAI.closure_pass self) as [self1 stop]; simpl in Hb.
  destruct stop; [by intros [= <-] | by apply IH].
Qed.

Lemma observe_on_board (cell : Cell) (count : Z) (self self' : MinesweeperAI.t) :
  on_board self → MinesweeperAI.observe cell count self = OK self' → on_board self'.
Proof.
  unfold MinesweeperAI.observe. intros [Hkb Hmi] (acc & Hacc & H)%bind_OK.
  inversion H; subst; clear H.
  apply sentence_fold_cells in Hacc. simpl in Hacc.
  split; simpl; [|done]. intros s c. rewrite elem_of_app, list_elem_of_singleton.
  intros [(s0 & -> & Hs)%list_elem_of_fmap | ->].
  - rewrite cells_mark_safe. intros [Hc _]%elem_of_difference. by eapply Hkb.
  - simpl. rewrite Hacc. intros [Hc _]%elem_of_difference.
    by apply elem_of_surrounding_cells in Hc as (_ & Hc & _).
Qed.

Lemma tidy_on_board (fuel : nat) (self self' : MinesweeperAI.t) :
  on_board self → MinesweeperAI.tidy fuel self = OK self' → on_board self'.
Proof.
  intros [Hkb Hmi] ->%tidy_spec. split; simpl; [|done]. intros s c.
  rewrite first_occurrences_elem, list_elem_of_filter. intros [_ Hs]. by apply Hkb.
Qed.

(** X5: whatever cells and counts [add_knowledge] is called with, starting
    from a new agent, every cell it puts into a sentence or into [mines]
    lies on the agent's board. *)
Theorem agent_stays_on_board (self : MinesweeperAI.t) :
  revealed self →
  (∀ s c, s ∈ MinesweeperAI.knowledge self → c ∈ Sentence.cells s →
          in_bounds (MinesweeperAI.height self) (MinesweeperAI.width self) c = true)
  ∧ (∀ c, c ∈ MinesweeperAI.mines self →
          in_bounds (MinesweeperAI.height self) (MinesweeperAI.width self) c = true).
Proof.
  induction 1 as [h w|fuel c n self self' _ IH Hadd].
  - split; [intros s c []%elem_of_nil | intros c []%elem_of_empty].
  - apply add_knowledge_stages in Hadd as (observed & closed & Ho & Hc & Ht).
    eapply tidy_on_board; [|done]. eapply closure_on_board; [|done].
    by eapply observe_on_board.
Qed.

Lemma revealed_agent33_2 : revealed agent33_2.
Proof.
  apply (revealed_add_knowledge 5 (1, 1) 1 agent33_1 agent33_2).
  - apply (revealed_add_knowledge 5 (2, 2) 0 (MinesweeperAI.init 3 3) agent33_1).
    + apply revealed_init.
    + exact board33_first.
  - exact board33_second.
Qed.

Lemma agent_stays_on_board_witness :
  (∀ s c, s ∈ MinesweeperAI.knowledge agent33_2 → c ∈ Sentence.cells s →
          in_bounds (MinesweeperAI.height agent33_2) (MinesweeperAI.width agent33_2) c = true)
  ∧ (∀ c, c ∈ MinesweeperAI.mines agent33_2 →
          in_bounds (MinesweeperAI.height agent33_2) (MinesweeperAI.width agent33_2) c = true).
Proof. apply (agent_stays_on_board agent33_2). exact revealed_agent33_2. Defined.

(** ** The knowledge base that [add_knowledge] leaves is saturated *)

Lemma mark_all_changed (mark : Cell → MinesweeperAI.t → MinesweeperAI.t)
    (st : MinesweeperAI.t * gset Cell) (K : gset Cell) :
  (MinesweeperAI.mark_all mark st K).2 = K ∪ st.2.
Proof.
  unfold MinesweeperAI.mark_all.
  assert (H : ∀ (l : list Cell) (st : MinesweeperAI.t * gset Cell),
             (foldl (λ st cell, (mark cell st.1, {[cell]} ∪ st.2)) st l).2
             = list_to_set l ∪ st.2).
  { clear. induction l as [|c l IH]; intros st; simpl; [set_solver|].
    rewrite IH. simpl. set_solver. }
  by rewrite H, list_to_set_elements_L.
Qed.

Lemma mark_step_quiet (st : MinesweeperAI.t * gset Cell) (i : nat) :
  (MinesweeperAI.mark_step st i).2 = ∅ →
  MinesweeperAI.mark_step st i = st
  ∧ ∀ s, MinesweeperAI.knowledge st.1 !! i = Some s → idle s.
Proof.
  unfold MinesweeperAI.mark_step.
  destruct (MinesweeperAI.knowledge st.1 !! i) as [s|] eqn:Hi; [|done].
  destruct (decide ((Sentence.known_mines s).1 = ∅)) as [Hm|Hm].
  - rewrite Hm, mark_all_empty, Hi, mark_all_changed. intros Hq.
    assert (Hs : (Sentence.known_safes s).1 = ∅) by set_solver.
    rewrite Hs, mark_all_empty. split; [done|]. by intros s' [= <-].
  - intros Hq. exfalso.
    destruct (MinesweeperAI.knowledge
                (MinesweeperAI.mark_all MinesweeperAI.mark_mine st
                   (Sentence.known_mines s).1).1 !! i) as [s'|].
    + rewrite !mark_all_changed in Hq. set_solver.
    + rewrite mark_all_changed in Hq. set_solver.
Qed.

Lemma mark_fold_changed (l : list nat) (st : MinesweeperAI.t * gset Cell) :
  st.2 ⊆ (foldl MinesweeperAI.mark_step st l).2.
Proof.
  revert st. induction l as [|i l IH]; intros st; simpl; [done|].
  etrans; [|apply IH]. unfold MinesweeperAI.mark_step.
  destruct (MinesweeperAI.knowledge st.1 !! i) as [s|]; [|done].
  destruct (MinesweeperAI.knowledge _ !! i) as [s'|];
    rewrite ?mark_all_changed; set_solver.
Qed.

Lemma mark_fold_quiet (l : list nat) (st : MinesweeperAI.t * gset Cell) :
  (foldl MinesweeperAI.mark_step st l).2 = ∅ →
  foldl MinesweeperAI.mark_step st l = st
  ∧ ∀ i s, i ∈ l → MinesweeperAI.knowledge st.1 !! i = Some s → idle s.
Proof.
  revert st. induction l as [|i l IH]; intros st; simpl.
  - intros _. split; [done|]. by intros i s []%elem_of_nil.
  - intros Hq. destruct (IH _ Hq) as [Heq Hidle].
    assert (Hstep : (MinesweeperAI.mark_step st i).2 = ∅).
    { pose proof (mark_fold_changed l (MinesweeperAI.mark_step st i)) as Hsub.
      rewrite Hq in Hsub. set_solver. }
    destruct (mark_step_quiet st i Hstep) as [Hst Hi].
    rewrite Hst in Heq, Hidle |- *. split; [done|].
    intros j s [->|Hj]%elem_of_cons; [apply Hi|by apply Hidle].
Qed.

Lemma mark_pass_quiet (self : MinesweeperAI.t) :
  (MinesweeperAI.mark_pass self).2 = ∅ →
  MinesweeperAI.mark_pass self = (self, ∅)
  ∧ ∀ s, s ∈ MinesweeperAI.knowledge self → idle s.
Proof.
  unfold MinesweeperAI.mark_pass. intros Hq.
  destruct (mark_fold_quiet _ _ Hq) as [Heq Hidle]. split; [done|].
  intros s [i Hi]%list_elem_of_lookup. apply (Hidle i); [|done].
  apply elem_of_seq. apply lookup_lt_Some in Hi. lia.
Qed.

Lemma append_new_quiet (new kb : list Sentence.t) (n : Z) :
  (foldl MinesweeperAI.append_new (kb, n) new).2 = n →
  (foldl MinesweeperAI.append_new (kb, n) new).1 = kb
  ∧ ∀ x, x ∈ new → x ∈ kb.
Proof.
  revert kb n. induction new as [|y new IH]; intros kb n; simpl.
  - intros _. split; [done|]. by intros x []%elem_of_nil.
  - destruct (decide (y ∈ kb)) as [Hy|Hy].
    + rewrite append_new_present by done. intros Hq.
      destruct (IH kb n Hq) as [Hkb Hall]. split; [done|].
      intros x [->|Hx]%elem_of_cons; [done|by apply Hall].
    + rewrite append_new_fresh by done. intros Hq. exfalso.
      destruct (append_new_changes new (kb ++ [y]) (n + 1)) as [Hle _]. lia.
Qed.

Lemma closure_pass_quiet (self : MinesweeperAI.t) :
  (MinesweeperAI.closure_pass self).2 = true →
  (MinesweeperAI.closure_pass self).1 = self
  ∧ (∀ s, s ∈ MinesweeperAI.knowledge self → idle s)
  ∧ (∀ x, x ∈ MinesweeperAI.new_sentences (MinesweeperAI.knowledge self) →
          x ∈ MinesweeperAI.knowledge self).
Proof.
  rewrite closure_pass_unfold. simpl.
  intros [Hsz Hch]%andb_true_iff.
  apply bool_decide_eq_true in Hsz, Hch.
  apply size_empty_inv in Hsz. apply leibniz_equiv in Hsz.
  destruct (mark_pass_quiet self Hsz) as [Hmark Hidle].
  rewrite Hmark in *. simpl in *.
  destruct (append_new_quiet _ _ _ Hch) as [-> Hall].
  split; [by destruct self|]. done.
Qed.

Lemma closure_saturated (fuel : nat) (self self' : MinesweeperAI.t) :
  MinesweeperAI.closure fuel self = OK self' →
  (∀ s, s ∈ MinesweeperAI.knowledge self' → idle s)
  ∧ (∀ x, x ∈ MinesweeperAI.new_sentences (MinesweeperAI.knowledge self') →
          x ∈ MinesweeperAI.knowledge self').
Proof.
  revert self. induction fuel as [|fuel IH]; intros self; simpl; [done|].
  pose proof (closure_pass_quiet self) as Hq.
  destruct (MinesweeperAI.closure_pass self) as [self1 stop]; simpl in Hq.
  destruct stop.
  - intros [= <-]. destruct (Hq eq_refl) as (-> & Hidle & Hall). done.
  - apply IH.
Qed.

Lemma idle_nonempty (s : Sentence.t) :
  idle s → nonempty s →
  Sentence.count s ≠ 0 ∧ Z.of_nat (size (Sentence.cells s)) ≠ Sentence.count s.
Proof.
  unfold idle, nonempty. rewrite known_mines_fst, known_safes_fst.
  intros [Hm Hs] Hne. split; intros Heq.
  - by rewrite bool_decide_eq_true_2 in Hs.
  - by rewrite bool_decide_eq_true_2 in Hm.
Qed.

(** X6: when [add_knowledge] returns, nothing is left to conclude: no
    sentence of the knowledge base has count 0 or count equal to the number
    of its cells (so [known_mines] and [known_safes] are empty for each),
    and for any two of its sentences with the cells of one a strict subset
    of the cells of the other, their difference sentence is in the
    knowledge base as well. *)
Theorem knowledge_saturated (fuel : nat) (cell : Cell) (count : Z)
    (self self' : MinesweeperAI.t) :
  MinesweeperAI.add_knowledge fuel cell count self = OK self' →
  (∀ s, s ∈ MinesweeperAI.knowledge self' →
        Sentence.count s ≠ 0
        ∧ Z.of_nat (size (Sentence.cells s)) ≠ Sentence.count s
        ∧ (Sentence.known_mines s).1 = ∅ ∧ (Sentence.known_safes s).1 = ∅)
  ∧ (∀ s1 s2, s1 ∈ MinesweeperAI.knowledge self' →
              s2 ∈ MinesweeperAI.knowledge self' →
              Sentence.cells s1 ⊂ Sentence.cells s2 →
              Sentence.Sentence (Sentence.cells s2 ∖ Sentence.cells s1)
                                (Sentence.count s2 - Sentence.count s1)
              ∈ MinesweeperAI.knowledge self').
Proof.
  intros (observed & closed & Ho & Hc & Ht)%add_knowledge_stages.
  destruct (closure_saturated _ _ _ Hc) as [Hidle Hall].
  apply tidy_spec in Ht as ->. simpl. split.
  - intros s [Hne Hs]%first_occurrences_elem%list_elem_of_filter.
    destruct (idle_nonempty s (Hidle s Hs) Hne) as [H0 Hsz].
    destruct (Hidle s Hs) as [Hm Hsa]. done.
  - intros s1 s2 [_ Hs1]%first_occurrences_elem%list_elem_of_filter
                 [_ Hs2]%first_occurrences_elem%list_elem_of_filter Hsub.
    apply first_occurrences_elem, list_elem_of_filter. split.
    + unfold nonempty. simpl. intros Hemp.
      destruct Hsub as [Hsub Hnot]. apply Hnot. set_solver.
    + apply Hall, elem_of_new_sentences. exists s1, s2. done.
Qed.

Lemma knowledge_saturated_witness :
  (∀ s, s ∈ MinesweeperAI.knowledge agent33_3 →
        Sentence.count s ≠ 0
        ∧ Z.of_nat (size (Sentence.cells s)) ≠ Sentence.count s
        ∧ (Sentence.known_mines s).1 = ∅ ∧ (Sentence.known_safes s).1 = ∅)
  ∧ (∀ s1 s2, s1 ∈ MinesweeperAI.knowledge agent33_3 →
              s2 ∈ MinesweeperAI.knowledge agent33_3 →
              Sentence.cells s1 ⊂ Sentence.cells s2 →
              Sentence.Sentence (Sentence.cells s2 ∖ Sentence.cells s1)
                                (Sentence.count s2 - Sentence.count s1)
              ∈ MinesweeperAI.knowledge agent33_3).
Proof.
  apply (knowledge_saturated 5 (0, 2) 0 agent33_2 agent33_3). exact board33_third.
Defined.

(** ** The marking loops in closed form *)

Lemma without_mines_step (c : Cell) (L : gset Cell) (s : Sentence.t) :
  c ∉ L →
  without_mines L (Sentence.mark_mine c s) = without_mines ({[c]} ∪ L) s.
Proof.
  intros Hc. unfold without_mines, Sentence.mark_mine.
  destruct (decide (c ∈ Sentence.cells s)) as [Hin|Hin].
  - rewrite (bool_decide_eq_true_2 _ Hin). cbn [Sentence.cells Sentence.count].
    f_equal; [set_solver|].
    assert (Hsplit : Sentence.cells s ∩ ({[c]} ∪ L)
                     = {[c]} ∪ (Sentence.cells s ∖ {[c]}) ∩ L) by set_solver.
    assert (Hsz : size ({[c]} ∪ (Sentence.cells s ∖ {[c]}) ∩ L)
                  = S (size ((Sentence.cells s ∖ {[c]}) ∩ L))).
    { rewrite size_union; [by rewrite size_singleton|set_solver]. }
    rewrite Hsplit, Hsz. lia.
  - rewrite (bool_decide_eq_false_2 _ Hin). f_equal; [set_solver|].
    do 3 f_equal. set_solver.
Qed.

Lemma without_safes_step (c : Cell) (L : gset Cell) (s : Sentence.t) :
  without_safes L (Sentence.mark_safe c s) = without_safes ({[c]} ∪ L) s.
Proof.
  unfold without_safes, Sentence.mark_safe.
  case_bool_decide; simpl; f_equal; set_solver.
Qed.

Lemma mark_mines_fold (l : list Cell) (st : MinesweeperAI.t * gset Cell) :
  NoDup l →
  foldl (λ st cell, (MinesweeperAI.mark_mine cell st.1, {[cell]} ∪ st.2)) st l
  = (MinesweeperAI.Build (MinesweeperAI.height st.1) (MinesweeperAI.width st.1)
       (MinesweeperAI.moves_made st.1)
       (list_to_set l ∪ MinesweeperAI.mines st.1)
       (MinesweeperAI.safes st.1)
       (without_mines (list_to_set l) <$> MinesweeperAI.knowledge st.1),
     list_to_set l ∪ st.2).
Proof.
  revert st. induction l as [|c l IH]; intros [[h w mm mi sa kb] ch] Hnd; simpl.
  - f_equal; [|set_solver]. f_equal; [set_solver|].
    symmetry. apply fmap_fixed. intros s _. unfold without_mines.
    destruct s as [X n]; simpl. f_equal; [set_solver|].
    replace (X ∩ ∅) with (∅ : gset Cell) by set_solver. rewrite size_empty. lia.
  - apply NoDup_cons in Hnd as [Hc Hnd]. rewrite IH by done. simpl.
    f_equal; [|set_solver]. f_equal; [set_solver|].
    rewrite <- list_fmap_compose. apply list_fmap_ext. intros i s _. simpl.
    apply without_mines_step. by rewrite elem_of_list_to_set.
Qed.

Lemma mark_safes_fold (l : list Cell) (st : MinesweeperAI.t * gset Cell) :
  foldl (λ st cell, (MinesweeperAI.mark_safe cell st.1, {[cell]} ∪ st.2)) st l
  = (MinesweeperAI.Build (MinesweeperAI.height st.1) (MinesweeperAI.width st.1)
       (MinesweeperAI.moves_made st.1)
       (MinesweeperAI.mines st.1)
       (list_to_set l ∪ MinesweeperAI.safes st.1)
       (without_safes (list_to_set l) <$> MinesweeperAI.knowledge st.1),
     list_to_set l ∪ st.2).
Proof.
  revert st. induction l as [|c l IH]; intros [[h w mm mi sa kb] ch]; simpl.
  - f_equal; [|set_solver]. f_equal; [set_solver|].
    symmetry. apply fmap_fixed. intros s _. unfold without_safes.
    destruct s as [X n]; simpl. f_equal. set_solver.
  - rewrite IH. simpl.
    f_equal; [|set_solver]. f_equal; [set_solver|].
    rewrite <- list_fmap_compose. apply list_fmap_ext. intros i s _. simpl.
    apply without_safes_step.
Qed.

(** X7: marking the cells of a set [K] one after the other as mines adds
    [K] to [mines], takes the cells of [K] out of every sentence and lowers
    each count by the number of cells taken out; marking them as safe adds
    [K] to [safes] and takes them out with the counts kept.  The outcome is
    the same for every order in which the set is gone through. *)
Theorem marking_loops_closed_form (st : MinesweeperAI.t * gset Cell)
    (K : gset Cell) (l : list Cell) :
  NoDup l → list_to_set l = K →
  foldl (λ st cell, (MinesweeperAI.mark_mine cell st.1, {[cell]} ∪ st.2)) st l
  = MinesweeperAI.mark_all MinesweeperAI.mark_mine st K
  ∧ MinesweeperAI.mark_all MinesweeperAI.mark_mine st K
    = (MinesweeperAI.Build (MinesweeperAI.height st.1) (MinesweeperAI.width st.1)
         (MinesweeperAI.moves_made st.1)
         (K ∪ MinesweeperAI.mines st.1)
         (MinesweeperAI.safes st.1)
         (without_mines K <$> MinesweeperAI.knowledge st.1),
       K ∪ st.2)
  ∧ foldl (λ st cell, (MinesweeperAI.mark_safe cell st.1, {[cell]} ∪ st.2)) st l
    = MinesweeperAI.mark_all MinesweeperAI.mark_safe st K
  ∧ MinesweeperAI.mark_all MinesweeperAI.mark_safe st K
    = (MinesweeperAI.Build (MinesweeperAI.height st.1) (MinesweeperAI.width st.1)
         (MinesweeperAI.moves_made st.1)
         (MinesweeperAI.mines st.1)
         (K ∪ MinesweeperAI.safes st.1)
         (without_safes K <$> MinesweeperAI.knowledge st.1),
       K ∪ st.2).
Proof.
  intros Hnd HK. unfold MinesweeperAI.mark_all.
  rewrite !mark_mines_fold by (done || apply NoDup_elements).
  rewrite !mark_safes_fold. rewrite HK, list_to_set_elements_L. done.
Qed.

Lemma marking_loops_closed_form_witness :
  foldl (λ st cell, (MinesweeperAI.mark_mine cell st.1, {[cell]} ∪ st.2))
        (agent33_2, ∅) [(1, 0); (0, 0)]
  = MinesweeperAI.mark_all MinesweeperAI.mark_mine (agent33_2, ∅) {[(0, 0); (1, 0)]}
  ∧ MinesweeperAI.mark_all MinesweeperAI.mark_mine (agent33_2, ∅) {[(0, 0); (1, 0)]}
    = (MinesweeperAI.Build (MinesweeperAI.height agent33_2) (MinesweeperAI.width agent33_2)
         (MinesweeperAI.moves_made agent33_2)
         ({[(0, 0); (1, 0)]} ∪ MinesweeperAI.mines agent33_2)
         (MinesweeperAI.safes agent33_2)
         (without_mines {[(0, 0); (1, 0)]} <$> MinesweeperAI.knowledge agent33_2),
       {[(0, 0); (1, 0)]} ∪ ∅)
  ∧ foldl (λ st cell, (MinesweeperAI.mark_safe cell st.1, {[cell]} ∪ st.2))
          (agent33_2, ∅) [(1, 0); (0, 0)]
    = MinesweeperAI.mark_all MinesweeperAI.mark_safe (agent33_2, ∅) {[(0, 0); (1, 0)]}
  ∧ MinesweeperAI.mark_all MinesweeperAI.mark_safe (agent33_2, ∅) {[(0, 0); (1, 0)]}
    = (MinesweeperAI.Build (MinesweeperAI.height agent33_2) (MinesweeperAI.width agent33_2)
         (MinesweeperAI.moves_made agent33_2)
         (MinesweeperAI.mines agent33_2)
         ({[(0, 0); (1, 0)]} ∪ MinesweeperAI.safes agent33_2)
         (without_safes {[(0, 0); (1, 0)]} <$> MinesweeperAI.knowledge agent33_2),
       {[(0, 0); (1, 0)]} ∪ ∅).
Proof.
  apply (marking_loops_closed_form (agent33_2, ∅) {[(0, 0); (1, 0)]} [(1, 0); (0, 0)]).
  - apply (bool_decide_unpack _). vm_compute. exact I.
  - vm_compute. reflexivity.
Defined.

(** ** Further properties of sentences *)

(** X8: whatever its cells and count, a sentence never reports a cell both
    as a known mine and as a known safe; both reports are subsets of its
    cells, and a sentence without cells reports nothing. *)
Theorem known_sets_disjoint (s : Sentence.t) :
  (Sentence.known_mines s).1 ∩ (Sentence.known_safes s).1 = ∅
  ∧ (Sentence.known_mines s).1 ⊆ Sentence.cells s
  ∧ (Sentence.known_safes s).1 ⊆ Sentence.cells s
  ∧ (Sentence.cells s = ∅ →
     (Sentence.known_mines s).1 = ∅ ∧ (Sentence.known_safes s).1 = ∅).
Proof.
  split; [|split; [apply known_mines_cells|split; [apply known_safes_cells|]]].
  - rewrite known_mines_fst, known_safes_fst.
    case_bool_decide as Hm; [|set_solver].
    case_bool_decide as Hs; [|set_solver].
    assert (Hsz : size (Sentence.cells s) = 0%nat) by lia.
    apply size_empty_inv in Hsz. apply leibniz_equiv in Hsz. rewrite Hsz. set_solver.
  - intros He. by apply idle_empty.
Qed.

Lemma known_sets_disjoint_witness :
  (Sentence.known_mines spent_sentence).1 = ∅
  ∧ (Sentence.known_safes spent_sentence).1 = ∅.
Proof.
  destruct (known_sets_disjoint spent_sentence) as (_ & _ & _ & H).
  apply H. reflexivity.
Defined.

(** X9: marking keeps a sentence true of the board when the mark is right:
    a true sentence stays true when a cell that holds a mine is marked as a
    mine, and when a cell that holds none is marked as safe.  Marking as a
    mine a cell of the sentence that holds none makes the sentence false. *)
Theorem marks_keep_truth (g : Minesweeper.t) (c : Cell) (s : Sentence.t) :
  truthful g s →
  (Minesweeper.mine_at g c = true → truthful g (Sentence.mark_mine c s))
  ∧ (Minesweeper.mine_at g c = false → truthful g (Sentence.mark_safe c s))
  ∧ (Minesweeper.mine_at g c = false → c ∈ Sentence.cells s →
     ¬ truthful g (Sentence.mark_mine c s)).
Proof.
  intros Hs. split; [|split].
  - intros Hm. by apply truthful_mark_mine.
  - intros Hm. by apply truthful_mark_safe.
  - intros Hm Hc. unfold truthful, Sentence.mark_mine in *.
    rewrite (bool_decide_eq_true_2 _ Hc). simpl.
    rewrite mines_in_remove_safe by done. lia.
Qed.

Lemma truthful_agent33_2 :
  truthful board33 (Sentence.Sentence {[(0, 0); (0, 1); (0, 2); (1, 0); (2, 0)]} 1).
Proof. vm_compute. reflexivity. Qed.

Lemma marks_keep_truth_witness :
  truthful board33
    (Sentence.mark_mine (0, 0)
       (Sentence.Sentence {[(0, 0); (0, 1); (0, 2); (1, 0); (2, 0)]} 1)).
Proof.
  apply (marks_keep_truth board33 (0, 0)
           (Sentence.Sentence {[(0, 0); (0, 1); (0, 2); (1, 0); (2, 0)]} 1)).
  - exact truthful_agent33_2.
  - reflexivity.
Defined.

Lemma Sentence_mark_mine_unfold (c : Cell) (s : Sentence.t) :
  Sentence.mark_mine c s
  = Sentence.Sentence (Sentence.cells s ∖ {[c]})
      (if bool_decide (c ∈ Sentence.cells s) then Sentence.count s + -1
       else Sentence.count s).
Proof.
  unfold Sentence.mark_mine. case_bool_decide as Hc; [done|].
  destruct s as [X n]; simpl in *. f_equal. set_solver.
Qed.

Lemma Sentence_mark_safe_unfold (c : Cell) (s : Sentence.t) :
  Sentence.mark_safe c s
  = Sentence.Sentence (Sentence.cells s ∖ {[c]}) (Sentence.count s).
Proof.
  unfold Sentence.mark_safe. case_bool_decide as Hc; [done|].
  destruct s as [X n]; simpl in *. f_equal. set_solver.
Qed.

(** X10: marks of different cells can be applied to a sentence in any
    order; for one and the same cell the first mark decides, marking it
    safe after marking it as a mine (or the other way round) changes
    nothing more. *)
Theorem Sentence_marks_commute (a b : Cell) (s : Sentence.t) :
  Sentence.mark_mine a (Sentence.mark_mine b s)
    = Sentence.mark_mine b (Sentence.mark_mine a s)
  ∧ Sentence.mark_safe a (Sentence.mark_safe b s)
    = Sentence.mark_safe b (Sentence.mark_safe a s)
  ∧ (a ≠ b → Sentence.mark_mine a (Sentence.mark_safe b s)
             = Sentence.mark_safe b (Sentence.mark_mine a s))
  ∧ Sentence.mark_safe a (Sentence.mark_mine a s) = Sentence.mark_mine a s
  ∧ Sentence.mark_mine a (Sentence.mark_safe a s) = Sentence.mark_safe a s.
Proof.
  split; [|split; [|split; [|split]]].
  - rewrite !Sentence_mark_mine_unfold. simpl.
    destruct (decide (a = b)) as [->|Hne]; [done|].
    f_equal; [set_solver|].
    destruct (decide (a ∈ Sentence.cells s)) as [Ha|Ha];
      destruct (decide (b ∈ Sentence.cells s)) as [Hb|Hb];
      rewrite ?(bool_decide_eq_true_2 (a ∈ Sentence.cells s)),
              ?(bool_decide_eq_false_2 (a ∈ Sentence.cells s)),
              ?(bool_decide_eq_true_2 (b ∈ Sentence.cells s)),
              ?(bool_decide_eq_false_2 (b ∈ Sentence.cells s)),
              ?(bool_decide_eq_true_2 (a ∈ Sentence.cells s ∖ {[b]})),
              ?(bool_decide_eq_false_2 (a ∈ Sentence.cells s ∖ {[b]})),
              ?(bool_decide_eq_true_2 (b ∈ Sentence.cells s ∖ {[a]})),
              ?(bool_decide_eq_false_2 (b ∈ Sentence.cells s ∖ {[a]}))
        by set_solver; lia.
  - rewrite !Sentence_mark_safe_unfold. simpl. f_equal. set_solver.
  - intros Hne. rewrite !Sentence_mark_mine_unfold, !Sentence_mark_safe_unfold. simpl.
    f_equal; [set_solver|].
    destruct (decide (a ∈ Sentence.cells s)) as [Ha|Ha];
      rewrite ?(bool_decide_eq_true_2 (a ∈ Sentence.cells s)),
              ?(bool_decide_eq_false_2 (a ∈ Sentence.cells s)),
              ?(bool_decide_eq_true_2 (a ∈ Sentence.cells s ∖ {[b]})),
              ?(bool_decide_eq_false_2 (a ∈ Sentence.cells s ∖ {[b]}))
        by set_solver; done.
  - apply Sentence_mark_safe_absent. rewrite cells_mark_mine. set_solver.
  - apply Sentence_mark_mine_absent. rewrite cells_mark_safe. set_solver.
Qed.

Lemma Sentence_marks_commute_witness :
  Sentence.mark_mine (0, 0) (Sentence.mark_safe (0, 1) (pair_sentence (0, 0) (0, 1)))
  = Sentence.mark_safe (0, 1) (Sentence.mark_mine (0, 0) (pair_sentence (0, 0) (0, 1))).
Proof.
  destruct (Sentence_marks_commute (0, 0) (0, 1) (pair_sentence (0, 0) (0, 1)))
    as (_ & _ & H & _).
  apply H. discriminate.
Defined.

(** ** The board: indexing and the count of nearby mines *)

Lemma getitem_nonneg {A : Type} (l : list A) (i : Z) :
  0 ≤ i →
  getitem l i = match l !! Z.to_nat i with
                | Some x => OK x
                | None => Raise IndexError
                end.
Proof.
  intros Hi. unfold getitem.
  rewrite (bool_decide_eq_false_2 (i < 0)) by lia.
  by rewrite (bool_decide_eq_true_2 (0 ≤ i)) by lia.
Qed.

Lemma getitem_neg {A : Type} (l : list A) (i : Z) :
  i < 0 →
  getitem l i = if bool_decide (0 ≤ Z.of_nat (length l) + i)
                then match l !! Z.to_nat (Z.of_nat (length l) + i) with
                     | Some x => OK x
                     | None => Raise IndexError
                     end
                else Raise IndexError.
Proof.
  intros Hi. unfold getitem. by rewrite (bool_decide_eq_true_2 (i < 0)) by lia.
Qed.

Lemma getitem_cases {A : Type} (l : list A) (i : Z) :
  (0 ≤ i < Z.of_nat (length l) → ∃ x, getitem l i = OK x ∧ l !! Z.to_nat i = Some x)
  ∧ (- Z.of_nat (length l) ≤ i < 0 → getitem l i = getitem l (i + Z.of_nat (length l)))
  ∧ (Z.of_nat (length l) ≤ i ∨ i < - Z.of_nat (length l) → getitem l i = Raise IndexError).
Proof.
  split; [|split].
  - intros Hi. rewrite getitem_nonneg by lia.
    destruct (lookup_lt_is_Some_2 l (Z.to_nat i)) as [x Hx]; [lia|].
    rewrite Hx. eauto.
  - intros Hi. rewrite getitem_neg, getitem_nonneg by lia.
    rewrite bool_decide_eq_true_2 by lia.
    by replace (Z.of_nat (length l) + i) with (i + Z.of_nat (length l)) by lia.
  - intros [Hi|Hi].
    + rewrite getitem_nonneg by lia.
      by rewrite (proj2 (lookup_ge_None l (Z.to_nat i))) by lia.
    + rewrite getitem_neg by lia. by rewrite bool_decide_eq_false_2 by lia.
Qed.

Lemma is_mine_in_bounds (g : Minesweeper.t) (c : Cell) :
  well_formed g →
  in_bounds (Minesweeper.height g) (Minesweeper.width g) c = true →
  ∃ b, Minesweeper.is_mine g c = OK b.
Proof.
  intros [Hrows Hcols] [Hi Hj]%andb_true_iff.
  apply bool_decide_eq_true in Hi, Hj. unfold Minesweeper.is_mine.
  destruct (getitem_cases (Minesweeper.board g) c.1) as [Hrow _].
  destruct Hrow as (row & -> & Hlook); [lia|]. simpl.
  assert (Hlen := Hcols row (list_elem_of_lookup_2 _ _ _ Hlook)).
  destruct (getitem_cases row c.2) as [Hcol _].
  destruct Hcol as (b & -> & _); [lia|]. eauto.
Qed.


Lemma well_formed_board33 : well_formed board33.
Proof.
  split; [reflexivity|]. intros row. unfold board33. simpl.
  rewrite !elem_of_cons. intros [->|[->|[->|[]%elem_of_nil]]]; reflexivity.
Qed.


Lemma window_length (cell : Cell) : length (window cell) = 9%nat.
Proof.
  unfold window, range.
  replace (cell.1 + 2 - (cell.1 - 1)) with 3 by lia.
  replace (cell.2 + 2 - (cell.2 - 1)) with 3 by lia.
  reflexivity.
Qed.

Lemma window_neighbours_size (cell : Cell) :
  size (list_to_set (window cell) ∖ {[cell]} : gset Cell) = 8%nat.
Proof.
  rewrite size_difference.
  - rewrite size_list_to_set by apply window_NoDup.
    rewrite window_length, size_singleton. done.
  - intros c ->%elem_of_singleton. apply elem_of_list_to_set, elem_of_window. lia.
Qed.

Lemma nearby_mines_returns (g : Minesweeper.t) (cell : Cell) (l : list Cell) (n0 : Z) :
  well_formed g →
  ∃ n, foldM (Minesweeper.nearby_mines_body g cell) n0 l = OK n.
Proof.
  intros Hwf. revert n0. induction l as [|x l IH]; intros n0; simpl; [eauto|].
  unfold Minesweeper.nearby_mines_body.
  destruct (bool_decide (x = cell)); simpl; [apply IH|].
  destruct (in_bounds (Minesweeper.height g) (Minesweeper.width g) x) eqn:Hb;
    simpl; [|apply IH].
  destruct (is_mine_in_bounds g x Hwf Hb) as [b ->]. simpl. apply IH.
Qed.

Lemma nearby_mines_value (g : Minesweeper.t) (cell : Cell) :
  well_formed g →
  Minesweeper.nearby_mines g cell
  = OK (mines_in g (list_to_set (window cell) ∖ {[cell]})).
Proof.
  intros Hwf.
  destruct (nearby_mines_returns g cell (window cell) 0 Hwf) as [n Hn].
  unfold Minesweeper.nearby_mines. rewrite Hn. f_equal.
  rewrite (nearby_mines_surrounding g
             (MinesweeperAI.init (Minesweeper.height g) (Minesweeper.width g))
             cell n eq_refl eq_refl Hn).
  unfold mines_in. do 2 f_equal. apply set_eq. intros c.
  rewrite !elem_of_filter, elem_of_surrounding_cells, elem_of_difference,
    elem_of_list_to_set, elem_of_window, elem_of_singleton. simpl.
  split; [tauto|]. intros [Hm [Hw Hne]]. split; [done|]. split; [done|].
  split; [|done]. unfold Minesweeper.mine_at in Hm.
  by apply andb_true_iff in Hm as [Hb _].
Qed.

(** X12: on a board of [height] rows of [width] entries, [nearby_mines]
    raises nothing for any cell, on the board or off it, and returns the
    number of mines among the eight cells around it, so a number from 0 to
    8; the cell itself is not counted. *)
Theorem nearby_mines_counts (g : Minesweeper.t) (cell : Cell) :
  well_formed g →
  Minesweeper.nearby_mines g cell
  = OK (mines_in g (list_to_set (window cell) ∖ {[cell]}))
  ∧ 0 ≤ mines_in g (list_to_set (window cell) ∖ {[cell]}) ≤ 8.
Proof.
  intros Hwf. split; [by apply nearby_mines_value|].
  pose proof (mines_in_bounds g (list_to_set (window cell) ∖ {[cell]})) as Hb.
  rewrite window_neighbours_size in Hb. lia.
Qed.

Lemma nearby_mines_counts_witness :
  Minesweeper.nearby_mines board33 (1, 1)
  = OK (mines_in board33 (list_to_set (window (1, 1)) ∖ {[(1, 1)]}))
  ∧ 0 ≤ mines_in board33 (list_to_set (window (1, 1)) ∖ {[(1, 1)]}) ≤ 8.
Proof. apply (nearby_mines_counts board33 (1, 1)). exact well_formed_board33. Defined.

(** ** The constructor of the game *)

Lemma foldl_snoc_const {A B : Type} (x : A) (l : list B) (acc : list A) :
  foldl (λ acc _, acc ++ [x]) acc l = acc ++ replicate (length l) x.
Proof.
  revert acc. induction l as [|y l IH]; intros acc; simpl.
  - by rewrite app_nil_r.
  - rewrite IH, <- app_assoc. done.
Qed.

Lemma empty_board_replicate (height width : Z) :
  Game.empty_board height width
  = replicate (Z.to_nat height) (replicate (Z.to_nat width) false).
Proof.
  unfold Game.empty_board, range.
  rewrite (foldl_snoc_const false (seqZ 0 (width - 0)) []).
  rewrite (foldl_snoc_const _ (seqZ 0 (height - 0)) []).
  rewrite !length_seqZ. simpl. by rewrite !Z.sub_0_r.
Qed.

Lemma grid_empty_board (height width : Z) :
  grid height width (Game.empty_board height width).
Proof.
  rewrite empty_board_replicate. split; [by rewrite length_replicate|].
  intros row ->%elem_of_replicate_inv. by rewrite length_replicate.
Qed.

Lemma cell_at_empty_board (height width : Z) (c : Cell) :
  cell_at (Game.empty_board height width) c ≠ Some true.
Proof.
  rewrite empty_board_replicate. unfold cell_at.
  destruct (replicate (Z.to_nat height) (replicate (Z.to_nat width) false)
              !! Z.to_nat c.1) as [row|] eqn:Hrow; simpl; [|done].
  apply lookup_replicate in Hrow as [-> _].
  destruct (replicate (Z.to_nat width) false !! Z.to_nat c.2) as [b|] eqn:Hb; [|done].
  apply lookup_replicate in Hb as [-> _]. done.
Qed.

Lemma is_mine_cell_at (height width : Z) (board : list (list bool)) (c : Cell) :
  0 ≤ c.1 → 0 ≤ c.2 →
  Minesweeper.is_mine (Minesweeper.Build height width board) c
  = match cell_at board c with
    | Some b => OK b
    | None => Raise IndexError
    end.
Proof.
  intros Hi Hj. unfold Minesweeper.is_mine, cell_at. simpl.
  rewrite getitem_nonneg by done.
  destruct (board !! Z.to_nat c.1) as [row|]; simpl; [|done].
  by rewrite getitem_nonneg by done.
Qed.

Lemma mine_at_cell_at (height width : Z) (board : list (list bool)) (c : Cell) :
  Minesweeper.mine_at (Minesweeper.Build height width board) c = true
  ↔ in_bounds height width c = true ∧ cell_at board c = Some true.
Proof.
  unfold Minesweeper.mine_at. simpl. rewrite andb_true_iff.
  split; intros [Hb Hm]; (split; [done|]);
    pose proof Hb as [Hi Hj]%andb_true_iff;
    apply bool_decide_eq_true in Hi, Hj;
    rewrite is_mine_cell_at in * by lia.
  - destruct (cell_at board c) as [[|]|]; done.
  - by rewrite Hm.
Qed.

Lemma grid_cell_at (height width : Z) (board : list (list bool)) (c : Cell) :
  grid height width board → in_bounds height width c = true →
  ∃ b, cell_at board c = Some b.
Proof.
  intros [Hrows Hcols] [Hi Hj]%andb_true_iff.
  apply bool_decide_eq_true in Hi, Hj. unfold cell_at.
  destruct (lookup_lt_is_Some_2 board (Z.to_nat c.1)) as [row Hrow]; [lia|].
  rewrite Hrow. simpl.
  assert (Hlen := Hcols row (list_elem_of_lookup_2 _ _ _ Hrow)).
  apply lookup_lt_is_Some_2. lia.
Qed.

(** Setting one entry of the board: the board keeps its shape, the entry
    becomes [True], every other entry stays. *)
Lemma set_mine_spec (height width : Z) (board : list (list bool)) (i j : Z) :
  grid height width board → 0 ≤ i < height → 0 ≤ j < width →
  ∃ board', Game.set_mine board i j = OK board'
    ∧ grid height width board'
    ∧ ∀ c, 0 ≤ c.1 → 0 ≤ c.2 →
           cell_at board' c = if decide (c = (i, j)) then Some true
                              else cell_at board c.
Proof.
  intros [Hrows Hcols] Hi Hj. unfold Game.set_mine.
  destruct (lookup_lt_is_Some_2 board (Z.to_nat i)) as [row Hrow]; [lia|].
  assert (Hlen := Hcols row (list_elem_of_lookup_2 _ _ _ Hrow)).
  rewrite getitem_nonneg, Hrow by lia. simpl.
  unfold setitem.
  rewrite (bool_decide_eq_false_2 (j < 0)) by lia.
  rewrite (bool_decide_eq_true_2 (0 ≤ j)) by lia.
  rewrite (bool_decide_eq_true_2 (j < Z.of_nat (length row))) by lia. simpl.
  rewrite (bool_decide_eq_false_2 (i < 0)) by lia.
  rewrite (bool_decide_eq_true_2 (0 ≤ i)) by lia.
  rewrite (bool_decide_eq_true_2 (i < Z.of_nat (length board))) by lia. simpl.
  eexists. split; [done|]. split; [split|].
  - by rewrite length_insert.
  - intros r [k Hk]%list_elem_of_lookup.
    apply list_lookup_insert_Some in Hk as [(_ & <- & _)|[_ Hk]].
    + by rewrite length_insert.
    + apply Hcols. by eapply list_elem_of_lookup_2.
  - intros [a b] Ha Hb. simpl in *. unfold cell_at. simpl.
    destruct (decide (a = i)) as [->|Hai].
    + rewrite list_lookup_insert_eq by lia. simpl.
      destruct (decide (b = j)) as [->|Hbj].
      * rewrite decide_True by done. apply list_lookup_insert_eq. lia.
      * rewrite decide_False by congruence.
        rewrite list_lookup_insert_ne by lia. by rewrite Hrow.
    + rewrite decide_False by congruence.
      by rewrite list_lookup_insert_ne by lia.
Qed.

Lemma randrange_spec (draw : nat) (n : Z) :
  (n ≤ 0 ∧ randrange draw n = Raise ValueError)
  ∨ (0 < n ∧ ∃ k, randrange draw n = OK k ∧ 0 ≤ k < n).
Proof.
  unfold randrange. case_bool_decide; [by left|right].
  split; [lia|]. eexists. split; [done|]. apply Z.mod_pos_bound. lia.
Qed.

(** What the [while] loop of the constructor keeps: the shape of the board,
    and that the set [mines] holds exactly the cells whose entry is
    [True]. *)
Lemma place_mines_spec (draws : list (nat * nat)) (height width wanted : Z)
    (st st' : list (list bool) * gset Cell) :
  grid height width st.1 →
  (∀ c, c ∈ st.2 ↔ in_bounds height width c = true ∧ cell_at st.1 c = Some true) →
  Game.place_mines draws height width wanted st = OK st' →
  grid height width st'.1
  ∧ (∀ c, c ∈ st'.2 ↔ in_bounds height width c = true ∧ cell_at st'.1 c = Some true)
  ∧ Z.of_nat (size st'.2) = wanted.
Proof.
  revert st. induction draws as [|draw draws IH]; intros [board mines] Hg Hm; simpl.
  - case_bool_decide as Hsz; [done|]. intros [= <-]. simpl.
    split; [done|]. split; [done|]. by destruct (decide (Z.of_nat (size mines) = wanted)).
  - case_bool_decide as Hsz.
    2:{ intros [= <-]. simpl. split; [done|]. split; [done|].
        by destruct (decide (Z.of_nat (size mines) = wanted)). }
    destruct (randrange_spec draw.1 height) as [[_ ->]|[_ (i & -> & Hi)]]; [done|].
    simpl.
    destruct (randrange_spec draw.2 width) as [[_ ->]|[_ (j & -> & Hj)]]; [done|].
    simpl.
    rewrite is_mine_cell_at by (simpl; lia).
    assert (Hin : in_bounds height width (i, j) = true).
    { unfold in_bounds. simpl. by rewrite !bool_decide_eq_true_2 by lia. }
    destruct (grid_cell_at height width board (i, j) Hg Hin) as [b Hb].
    rewrite Hb. simpl. destruct b; simpl.
    + by apply IH.
    + destruct (set_mine_spec height width board i j Hg Hi Hj)
        as (board' & -> & Hg' & Hcell). simpl.
      apply IH; simpl; [done|]. intros c.
      rewrite elem_of_union, elem_of_singleton, Hm. split.
      * intros [->|[Hc Hcb]].
        -- split; [done|]. rewrite Hcell by (simpl; lia). by rewrite decide_True.
        -- split; [done|].
           pose proof Hc as [Hc1 Hc2]%andb_true_iff.
           apply bool_decide_eq_true in Hc1, Hc2.
           rewrite Hcell by lia. by case_decide.
      * intros [Hc Hcb].
        pose proof Hc as [Hc1 Hc2]%andb_true_iff.
        apply bool_decide_eq_true in Hc1, Hc2.
        rewrite Hcell in Hcb by lia. case_decide; [by left|by right].
Qed.

Lemma init_facts (draws : list (nat * nat)) (height width mines : Z) (g : Game.t) :
  Game.init draws height width mines = OK g →
  Minesweeper.height (Game.base g) = height
  ∧ Minesweeper.width (Game.base g) = width
  ∧ Game.mines_found g = ∅
  ∧ well_formed (Game.base g)
  ∧ (∀ c, c ∈ Game.mines g ↔ Minesweeper.mine_at (Game.base g) c = true)
  ∧ Z.of_nat (size (Game.mines g)) = mines.
Proof.
  unfold Game.init. intros (st & Hst & [= <-])%bind_OK. simpl.
  apply place_mines_spec in Hst as (Hg & Hm & Hsz); simpl.
  - split; [done|]. split; [done|]. split; [done|]. split; [done|].
    split; [|done]. intros c. by rewrite mine_at_cell_at.
  - apply grid_empty_board.
  - intros c. split; [set_solver|]. intros [_ Hc].
    by apply cell_at_empty_board in Hc.
Qed.



(** X13: when the constructor returns, the game has the given height and
    width and a board of that shape, no mine is found yet, the set [mines]
    holds exactly the cells of the board whose entry is [True], their number
    is the number asked for, and [won()] answers [True] only if no mine was
    asked for. *)
Theorem game_init_spec (draws : list (nat * nat)) (height width mines : Z)
    (g : Game.t) :
  Game.init draws height width mines = OK g →
  Minesweeper.height (Game.base g) = height
  ∧ Minesweeper.width (Game.base g) = width
  ∧ Game.mines_found g = ∅
  ∧ well_formed (Game.base g)
  ∧ (∀ c, c ∈ Game.mines g ↔ Minesweeper.mine_at (Game.base g) c = true)
  ∧ Z.of_nat (size (Game.mines g)) = mines
  ∧ ((Game.won g).1 = true ↔ mines = 0)
  ∧ (Game.won g).2 = g.
Proof.
  intros Hinit. pose proof (init_facts _ _ _ _ _ Hinit) as (Hh & Hw & Hf & Hwf & Hm & Hsz).
  repeat (split; [done|]). split; [|done].
  unfold Game.won. simpl. rewrite bool_decide_eq_true, Hf. split.
  - intros Heq. rewrite <- Heq, size_empty in Hsz. lia.
  - intros ->. symmetry. apply leibniz_equiv, size_empty_inv. lia.
Qed.

Lemma game_init_spec_witness :
  let g := Game.Build
             (Minesweeper.Build 3 3
                [[true; false; false]; [false; false; true]; [false; false; false]])
             {[(0, 0); (1, 2)]} ∅ in
  Minesweeper.height (Game.base g) = 3
  ∧ Minesweeper.width (Game.base g) = 3
  ∧ Game.mines_found g = ∅
  ∧ well_formed (Game.base g)
  ∧ (∀ c, c ∈ Game.mines g ↔ Minesweeper.mine_at (Game.base g) c = true)
  ∧ Z.of_nat (size (Game.mines g)) = 2
  ∧ ((Game.won g).1 = true ↔ 2 = 0)
  ∧ (Game.won g).2 = g.
Proof.
  apply (game_init_spec [(4, 2); (1, 5); (0, 0)]%nat 3 3 2). exact game_init_run.
Defined.



(** X15: on a game that the constructor returned, the two queries of the
    board agree with the set [mines]: [is_mine] answers for every cell of
    the board whether it is in [mines], and [nearby_mines] returns for any
    cell the number of cells of [mines] among the eight around it. *)
Theorem game_queries_agree (draws : list (nat * nat)) (height width mines : Z)
    (g : Game.t) (cell : Cell) :
  Game.init draws height width mines = OK g →
  (in_bounds height width cell = true →
   Game.is_mine g cell = OK (bool_decide (cell ∈ Game.mines g)))
  ∧ Game.nearby_mines g cell
    = OK (Z.of_nat (size (Game.mines g ∩ (list_to_set (window cell) ∖ {[cell]})))).
Proof.
  intros (Hh & Hw & _ & Hwf & Hm & _)%init_facts. split.
  - intros Hin. unfold Game.is_mine.
    rewrite <- Hh, <- Hw in Hin.
    destruct (is_mine_in_bounds _ cell Hwf Hin) as [b Hb].
    rewrite Hb. f_equal.
    pose proof (mine_at_is_mine _ cell b Hin Hb) as Hat.
    destruct b.
    + symmetry. apply bool_decide_eq_true. by apply Hm.
    + symmetry. apply bool_decide_eq_false. rewrite Hm. congruence.
  - unfold Game.nearby_mines. rewrite nearby_mines_value by done.
    unfold mines_in. do 3 f_equal. apply set_eq. intros c.
    rewrite elem_of_filter, elem_of_intersection, Hm. tauto.
Qed.

Lemma game_queries_agree_witness :
  let g := Game.Build
             (Minesweeper.Build 3 3
                [[true; false; false]; [false; false; true]; [false; false; false]])
             {[(0, 0); (1, 2)]} ∅ in
  (in_bounds 3 3 (1, 1) = true →
   Game.is_mine g (1, 1) = OK (bool_decide ((1, 1) ∈ Game.mines g)))
  ∧ Game.nearby_mines g (1, 1)
    = OK (Z.of_nat (size (Game.mines g ∩ (list_to_set (window (1, 1)) ∖ {[(1, 1)]})))).
Proof.
  apply (game_queries_agree [(4, 2); (1, 5); (0, 0)]%nat 3 3 2). exact game_init_run.
Defined.

(** ** The text that [print] writes *)

Lemma string_app_cons (x : ascii) (a b : string) :
  String x a +:+ b = String x (a +:+ b).
Proof. reflexivity. Qed.

Lemma string_app_nil_l (a : string) : "" +:+ a = a.
Proof. reflexivity. Qed.

Lemma string_app_assoc (a b c : string) : (a +:+ b) +:+ c = a +:+ (b +:+ c).
Proof.
  induction a as [|x a IH]; [reflexivity|].
  by rewrite !string_app_cons, IH.
Qed.

Lemma string_app_nil_r (a : string) : a +:+ "" = a.
Proof.
  induction a as [|x a IH]; [reflexivity|].
  by rewrite string_app_cons, IH.
Qed.

Lemma string_length_app (a b : string) :
  String.length (a +:+ b) = (String.length a + String.length b)%nat.
Proof.
  induction a as [|x a IH]; [reflexivity|].
  rewrite string_app_cons. simpl. by rewrite IH.
Qed.

Lemma string_get_app_l (n : nat) (a b : string) :
  (n < String.length a)%nat → String.get n (a +:+ b) = String.get n a.
Proof. intros Hn. symmetry. by apply String.append_correct1. Qed.

Lemma string_get_app_r (n : nat) (a b : string) :
  String.get (String.length a + n) (a +:+ b) = String.get n b.
Proof. rewrite Nat.add_comm. symmetry. apply String.append_correct2. Qed.

Lemma string_repeat_length (s : string) (n : nat) :
  String.length (string_repeat s n) = (n * String.length s)%nat.
Proof.
  induction n as [|n IH]; [reflexivity|].
  cbn [string_repeat]. rewrite string_length_app, IH. lia.
Qed.

Lemma dashes_get (n c : nat) :
  (c < 2 * n)%nat → String.get c (string_repeat "--" n) = Some "-"%char.
Proof.
  revert c. induction n as [|n IH]; intros c Hc; [lia|].
  cbn [string_repeat]. rewrite !string_app_cons, string_app_nil_l.
  destruct c as [|[|c]]; [reflexivity..|].
  simpl. apply IH. lia.
Qed.

Lemma rule_text_length (width : Z) :
  String.length (rule_text width) = (2 * Z.to_nat width + 2)%nat.
Proof.
  unfold rule_text, str_mul.
  rewrite !string_length_app, string_repeat_length. simpl. lia.
Qed.

Lemma rule_text_dash (width : Z) (c : nat) :
  (c < 2 * Z.to_nat width + 1)%nat →
  String.get c (rule_text width) = Some "-"%char.
Proof.
  intros Hc. unfold rule_text, str_mul. rewrite string_app_assoc.
  destruct (decide (c < 2 * Z.to_nat width)%nat) as [Hlt|Hge].
  - rewrite string_get_app_l by (rewrite string_repeat_length; simpl; lia).
    by apply dashes_get.
  - replace c with (String.length (string_repeat "--" (Z.to_nat width)) + 0)%nat
      by (rewrite string_repeat_length; simpl; lia).
    by rewrite string_get_app_r.
Qed.

Lemma rule_text_end (width : Z) :
  String.get (2 * Z.to_nat width + 1) (rule_text width) = Some "010"%char.
Proof.
  unfold rule_text, str_mul. rewrite string_app_assoc.
  replace (2 * Z.to_nat width + 1)%nat
    with (String.length (string_repeat "--" (Z.to_nat width)) + 1)%nat
    by (rewrite string_repeat_length; simpl; lia).
  by rewrite string_get_app_r.
Qed.

Lemma cell_text_length (b : bool) : String.length (cell_text b) = 2%nat.
Proof. by destruct b. Qed.

Lemma row_text_length (g : Minesweeper.t) (i : Z) (js : list Z) :
  String.length (row_text g i js) = (2 * length js)%nat.
Proof.
  induction js as [|j js IH]; [reflexivity|].
  cbn [row_text length]. rewrite string_length_app, IH, cell_text_length. lia.
Qed.

Lemma row_text_bar (g : Minesweeper.t) (i : Z) (js : list Z) (k : nat) :
  (k < length js)%nat →
  String.get (2 * k) (row_text g i js) = Some "|"%char.
Proof.
  revert k. induction js as [|j0 js IH]; intros k Hk; [simpl in Hk; lia|].
  cbn [row_text]. destruct k as [|k].
  - by destruct (Minesweeper.mine_at g (i, j0)).
  - replace (2 * S k)%nat
      with (String.length (cell_text (Minesweeper.mine_at g (i, j0))) + 2 * k)%nat
      by (rewrite cell_text_length; lia).
    rewrite string_get_app_r. apply IH. simpl in Hk. lia.
Qed.

Lemma row_text_get (g : Minesweeper.t) (i : Z) (js : list Z) (k : nat) (j : Z) :
  js !! k = Some j →
  String.get (2 * k + 1) (row_text g i js)
  = Some (if Minesweeper.mine_at g (i, j) then "X"%char else " "%char).
Proof.
  revert k. induction js as [|j0 js IH]; intros k Hk; [done|].
  cbn [row_text]. destruct k as [|k].
  - simpl in Hk. inversion Hk; subst j0.
    by destruct (Minesweeper.mine_at g (i, j)).
  - simpl in Hk.
    replace (2 * S k + 1)%nat
      with (String.length (cell_text (Minesweeper.mine_at g (i, j0))) + (2 * k + 1))%nat
      by (rewrite cell_text_length; lia).
    rewrite string_get_app_r. by apply IH.
Qed.

Lemma block_text_length (g : Minesweeper.t) (i : Z) :
  String.length (block_text g i)
  = (2 * (2 * Z.to_nat (Minesweeper.width g) + 2))%nat.
Proof.
  unfold block_text, range.
  rewrite !string_length_app, rule_text_length, row_text_length, length_seqZ.
  simpl. lia.
Qed.

Lemma block_text_rule (g : Minesweeper.t) (i : Z) (c : nat) :
  (c < 2 * Z.to_nat (Minesweeper.width g) + 2)%nat →
  String.get c (block_text g i) = String.get c (rule_text (Minesweeper.width g)).
Proof.
  intros Hc. unfold block_text. apply string_get_app_l.
  rewrite rule_text_length. lia.
Qed.

Lemma block_text_row (g : Minesweeper.t) (i : Z) (c : nat) :
  String.get (2 * Z.to_nat (Minesweeper.width g) + 2 + c) (block_text g i)
  = String.get c (row_text g i (range 0 (Minesweeper.width g)) +:+ ("|" +:+ newline)).
Proof.
  unfold block_text.
  rewrite <- (rule_text_length (Minesweeper.width g)). apply string_get_app_r.
Qed.

Lemma range_length (n : Z) : length (range 0 n) = Z.to_nat n.
Proof. unfold range. rewrite length_seqZ. lia. Qed.

Lemma range_lookup (n : Z) (k : nat) :
  (k < Z.to_nat n)%nat → range 0 n !! k = Some (Z.of_nat k).
Proof. intros Hk. unfold range. rewrite lookup_seqZ. split; lia. Qed.

Lemma blocks_text_length (g : Minesweeper.t) (rows : list Z) :
  String.length (blocks_text g rows)
  = (length rows * (2 * (2 * Z.to_nat (Minesweeper.width g) + 2)))%nat.
Proof.
  induction rows as [|i rows IH]; [reflexivity|].
  cbn [blocks_text length]. rewrite string_length_app, block_text_length, IH. lia.
Qed.

Lemma blocks_text_get (g : Minesweeper.t) (rows : list Z) (a c : nat) (i : Z) :
  rows !! a = Some i →
  (c < 2 * (2 * Z.to_nat (Minesweeper.width g) + 2))%nat →
  String.get (a * (2 * (2 * Z.to_nat (Minesweeper.width g) + 2)) + c)
             (blocks_text g rows)
  = String.get c (block_text g i).
Proof.
  revert a. induction rows as [|i0 rows IH]; intros a Ha Hc; [done|].
  cbn [blocks_text]. destruct a as [|a].
  - simpl in Ha. inversion Ha; subst i0.
    rewrite Nat.mul_0_l, Nat.add_0_l. apply string_get_app_l.
    rewrite block_text_length. lia.
  - simpl in Ha.
    replace (S a * (2 * (2 * Z.to_nat (Minesweeper.width g) + 2)) + c)%nat
      with (String.length (block_text g i0)
            + (a * (2 * (2 * Z.to_nat (Minesweeper.width g) + 2)) + c))%nat
      by (rewrite block_text_length; lia).
    rewrite string_get_app_r. by apply IH.
Qed.

Lemma is_mine_mine_at (g : Minesweeper.t) (c : Cell) :
  well_formed g →
  in_bounds (Minesweeper.height g) (Minesweeper.width g) c = true →
  Minesweeper.is_mine g c = OK (Minesweeper.mine_at g c).
Proof.
  intros Hwf Hin. destruct (is_mine_in_bounds g c Hwf Hin) as [b Hb].
  unfold Minesweeper.mine_at. rewrite Hin, Hb. by destruct b.
Qed.

Lemma print_cells_fold (g : Minesweeper.t) (i : Z) (js : list Z) (out : string) :
  well_formed g →
  (∀ j, j ∈ js → in_bounds (Minesweeper.height g) (Minesweeper.width g) (i, j) = true) →
  foldM (Game.print_cell g i) out js = OK (out +:+ row_text g i js).
Proof.
  intros Hwf. revert out. induction js as [|j js IH]; intros out Hjs.
  - simpl. by rewrite string_app_nil_r.
  - cbn [foldM row_text]. unfold Game.print_cell at 2.
    rewrite (is_mine_mine_at g (i, j) Hwf) by (apply Hjs; left).
    cbn [mbind result_bind]. rewrite IH by (intros j' Hj'; apply Hjs; by right).
    by rewrite string_app_assoc.
Qed.

Lemma in_bounds_range (height width i j : Z) :
  i ∈ range 0 height → j ∈ range 0 width → in_bounds height width (i, j) = true.
Proof.
  unfold range. rewrite !elem_of_seqZ. intros Hi Hj.
  unfold in_bounds. simpl. repeat (apply andb_true_intro; split);
    apply bool_decide_eq_true_2; lia.
Qed.

Lemma print_rows_fold (g : Minesweeper.t) (rows : list Z) (out : string) :
  well_formed g →
  (∀ i, i ∈ rows → i ∈ range 0 (Minesweeper.height g)) →
  foldM (Game.print_row g) out rows = OK (out +:+ blocks_text g rows).
Proof.
  intros Hwf. revert out. induction rows as [|i rows IH]; intros out Hrows.
  - simpl. by rewrite string_app_nil_r.
  - cbn [foldM blocks_text]. unfold Game.print_row at 2. cbv zeta.
    rewrite print_cells_fold; [|exact Hwf|].
    + cbn [mbind result_bind]. rewrite IH by (intros i' Hi'; apply Hrows; by right).
      unfold block_text, rule_text. by rewrite !string_app_assoc.
    + intros j Hj. apply in_bounds_range; [apply Hrows; left|exact Hj].
Qed.

Lemma print_text (g : Game.t) :
  well_formed (Game.base g) →
  Game.print g
  = OK (blocks_text (Game.base g) (range 0 (Minesweeper.height (Game.base g)))
        +:+ rule_text (Minesweeper.width (Game.base g))).
Proof.
  intros Hwf. unfold Game.print.
  rewrite print_rows_fold by done. reflexivity.
Qed.

Lemma row_line_bar (g : Minesweeper.t) (i : Z) (j : nat) :
  (j ≤ Z.to_nat (Minesweeper.width g))%nat →
  String.get (2 * j)
    (row_text g i (range 0 (Minesweeper.width g)) +:+ ("|" +:+ newline))
  = Some "|"%char.
Proof.
  intros Hj. destruct (decide (j < Z.to_nat (Minesweeper.width g))%nat) as [Hlt|Hge].
  - rewrite string_get_app_l by (rewrite row_text_length, range_length; lia).
    apply row_text_bar. rewrite range_length. lia.
  - replace (2 * j)%nat
      with (String.length (row_text g i (range 0 (Minesweeper.width g))) + 0)%nat
      by (rewrite row_text_length, range_length; lia).
    by rewrite string_get_app_r.
Qed.

Lemma row_line_cell (g : Minesweeper.t) (i : Z) (j : nat) :
  (j < Z.to_nat (Minesweeper.width g))%nat →
  String.get (2 * j + 1)
    (row_text g i (range 0 (Minesweeper.width g)) +:+ ("|" +:+ newline))
  = Some (if Minesweeper.mine_at g (i, Z.of_nat j) then "X"%char else " "%char).
Proof.
  intros Hj.
  rewrite string_get_app_l by (rewrite row_text_length, range_length; lia).
  apply row_text_get. by apply range_lookup.
Qed.

Lemma row_line_end (g : Minesweeper.t) (i : Z) :
  String.get (2 * Z.to_nat (Minesweeper.width g) + 1)
    (row_text g i (range 0 (Minesweeper.width g)) +:+ ("|" +:+ newline))
  = Some "010"%char.
Proof.
  replace (2 * Z.to_nat (Minesweeper.width g) + 1)%nat
    with (String.length (row_text g i (range 0 (Minesweeper.width g))) + 1)%nat
    by (rewrite row_text_length, range_length; lia).
  by rewrite string_get_app_r.
Qed.

Lemma text_get_block (g : Minesweeper.t) (a c : nat) :
  (a < Z.to_nat (Minesweeper.height g))%nat →
  (c < 2 * (2 * Z.to_nat (Minesweeper.width g) + 2))%nat →
  String.get (a * (2 * (2 * Z.to_nat (Minesweeper.width g) + 2)) + c)
    (blocks_text g (range 0 (Minesweeper.height g))
     +:+ rule_text (Minesweeper.width g))
  = String.get c (block_text g (Z.of_nat a)).
Proof.
  intros Ha Hc. rewrite string_get_app_l.
  - apply blocks_text_get; [by apply range_lookup|exact Hc].
  - rewrite blocks_text_length, range_length.
    apply Nat.lt_le_trans
      with (S a * (2 * (2 * Z.to_nat (Minesweeper.width g) + 2)))%nat; [lia|].
    apply Nat.mul_le_mono_r. lia.
Qed.

Lemma text_get_rule (g : Minesweeper.t) (c : nat) :
  String.get (Z.to_nat (Minesweeper.height g)
              * (2 * (2 * Z.to_nat (Minesweeper.width g) + 2)) + c)
    (blocks_text g (range 0 (Minesweeper.height g))
     +:+ rule_text (Minesweeper.width g))
  = String.get c (rule_text (Minesweeper.width g)).
Proof.
  rewrite <- (range_length (Minesweeper.height g)) at 1.
  rewrite <- blocks_text_length. apply string_get_app_r.
Qed.

(** X16: on a board list of [height] rows of [width] entries [print] raises
    nothing and writes [2 * height + 1] lines of [2 * width + 1] characters,
    each closed by a line end.  The lines of even number are rules of
    dashes; line [2 * i + 1] has a bar in every even column and, in column
    [2 * j + 1], an X when the board holds a mine at [(i, j)] and a blank
    when it does not. *)
Theorem print_layout (g : Game.t) :
  well_formed (Game.base g) →
  ∃ out,
    Game.print g = OK out
    ∧ String.length out
      = ((2 * Z.to_nat (Minesweeper.height (Game.base g)) + 1)
         * (2 * Z.to_nat (Minesweeper.width (Game.base g)) + 2))%nat
    ∧ (∀ r : nat,
        (r < 2 * Z.to_nat (Minesweeper.height (Game.base g)) + 1)%nat →
        String.get (r * (2 * Z.to_nat (Minesweeper.width (Game.base g)) + 2)
                    + (2 * Z.to_nat (Minesweeper.width (Game.base g)) + 1)) out
        = Some "010"%char)
    ∧ (∀ i c : nat,
        (i ≤ Z.to_nat (Minesweeper.height (Game.base g)))%nat →
        (c < 2 * Z.to_nat (Minesweeper.width (Game.base g)) + 1)%nat →
        String.get (2 * i * (2 * Z.to_nat (Minesweeper.width (Game.base g)) + 2) + c) out
        = Some "-"%char)
    ∧ (∀ i j : nat,
        (i < Z.to_nat (Minesweeper.height (Game.base g)))%nat →
        (j ≤ Z.to_nat (Minesweeper.width (Game.base g)))%nat →
        String.get ((2 * i + 1) * (2 * Z.to_nat (Minesweeper.width (Game.base g)) + 2)
                    + 2 * j) out
        = Some "|"%char)
    ∧ (∀ i j : nat,
        (i < Z.to_nat (Minesweeper.height (Game.base g)))%nat →
        (j < Z.to_nat (Minesweeper.width (Game.base g)))%nat →
        String.get ((2 * i + 1) * (2 * Z.to_nat (Minesweeper.width (Game.base g)) + 2)
                    + (2 * j + 1)) out
        = Some (if Minesweeper.mine_at (Game.base g) (Z.of_nat i, Z.of_nat j)
                then "X"%char else " "%char)).
Proof.
  intros Hwf. destruct g as [g ms found]. cbn [Game.base] in *.
  eexists. split; [by apply print_text|]. cbn [Game.base].
  set (H := Z.to_nat (Minesweeper.height g)).
  set (W := Z.to_nat (Minesweeper.width g)).
  assert (Hrule : ∀ c : nat,
    String.get (2 * H * (2 * W + 2) + c)
      (blocks_text g (range 0 (Minesweeper.height g))
       +:+ rule_text (Minesweeper.width g))
    = String.get c (rule_text (Minesweeper.width g))).
  { intros c. rewrite <- (text_get_rule g c). f_equal. unfold H, W. lia. }
  assert (Heven : ∀ a c : nat, (a < H)%nat → (c < 2 * W + 2)%nat →
    String.get (2 * a * (2 * W + 2) + c)
      (blocks_text g (range 0 (Minesweeper.height g))
       +:+ rule_text (Minesweeper.width g))
    = String.get c (rule_text (Minesweeper.width g))).
  { intros a c Ha Hc.
    rewrite <- (block_text_rule g (Z.of_nat a) c) by (unfold W in Hc; lia).
    rewrite <- (text_get_block g a c) by (unfold H, W in *; lia).
    f_equal. unfold W. lia. }
  assert (Hodd : ∀ a c : nat, (a < H)%nat → (c < 2 * W + 2)%nat →
    String.get ((2 * a + 1) * (2 * W + 2) + c)
      (blocks_text g (range 0 (Minesweeper.height g))
       +:+ rule_text (Minesweeper.width g))
    = String.get c (row_text g (Z.of_nat a) (range 0 (Minesweeper.width g))
                    +:+ ("|" +:+ newline))).
  { intros a c Ha Hc.
    rewrite <- (block_text_row g (Z.of_nat a) c).
    rewrite <- (text_get_block g a (2 * Z.to_nat (Minesweeper.width g) + 2 + c))
      by (unfold H, W in *; lia).
    f_equal. unfold W. lia. }
  split; [|split; [|split; [|split]]].
  - rewrite string_length_app, blocks_text_length, range_length, rule_text_length.
    fold H W. lia.
  - intros r Hr.
    destruct (decide (r = 2 * H)%nat) as [->|Hne].
    { rewrite Hrule. apply rule_text_end. }
    assert (Hcase : ∃ a : nat, (a < H)%nat ∧ (r = 2 * a ∨ r = 2 * a + 1)%nat).
    { destruct (Nat.Even_or_Odd r) as [[a Ha]|[a Ha]]; exists a; lia. }
    destruct Hcase as (a & Ha & [-> | ->]).
    + rewrite Heven by lia. apply rule_text_end.
    + rewrite Hodd by lia. apply row_line_end.
  - intros i c Hi Hc.
    destruct (decide (i = H)) as [->|Hne].
    + rewrite Hrule. by apply rule_text_dash.
    + rewrite Heven by lia. by apply rule_text_dash.
  - intros i j Hi Hj. rewrite Hodd by lia. by apply row_line_bar.
  - intros i j Hi Hj. rewrite Hodd by lia. by apply row_line_cell.
Qed.

Lemma print_layout_witness :
  well_formed board33
  ∧ ∃ out,
      Game.print (Game.Build board33 ∅ ∅) = OK out
      ∧ String.length out = 56%nat
      ∧ String.get 9 out = Some "X"%char.
Proof.
  split; [exact well_formed_board33|].
  destruct (print_layout (Game.Build board33 ∅ ∅) well_formed_board33)
    as (out & Hout & Hlen & _ & _ & _ & Hcell).
  exists out. split; [exact Hout|]. split; [exact Hlen|].
  exact (Hcell 0%nat 0%nat ltac:(vm_compute; lia) ltac:(vm_compute; lia)).
Defined.

(** ** What is left open around a revealed cell *)

Lemma tracked_mono (X : gset Cell) (a b : MinesweeperAI.t) :
  (∀ s, s ∈ MinesweeperAI.knowledge a → nonempty s → s ∈ MinesweeperAI.knowledge b) →
  MinesweeperAI.safes a ⊆ MinesweeperAI.safes b →
  MinesweeperAI.mines a ⊆ MinesweeperAI.mines b →
  tracked X a → tracked X b.
Proof.
  intros Hkb Hsa Hmi (s & Hs & Hsub & Hcov).
  exists s. split; [|split; [done|set_solver]].
  destruct Hs as [Hs|Hs]; [|by right].
  destruct (decide (nonempty s)) as [Hne|Hemp]; [left; by apply Hkb|].
  right. unfold nonempty in Hemp. by apply dec_stable in Hemp.
Qed.

Lemma tracked_mark_mine (X : gset Cell) (c : Cell) (self : MinesweeperAI.t) :
  tracked X self → tracked X (MinesweeperAI.mark_mine c self).
Proof.
  intros (s & Hs & Hsub & Hcov). exists (Sentence.mark_mine c s).
  rewrite cells_mark_mine. simpl. split; [|split; [set_solver|]].
  - destruct Hs as [Hs|Hs]; [|right; set_solver].
    left. apply list_elem_of_fmap. by exists s.
  - intros x Hx. destruct (decide (x = c)) as [->|Hne]; [set_solver|].
    specialize (Hcov x Hx). set_solver.
Qed.

Lemma tracked_mark_safe (X : gset Cell) (c : Cell) (self : MinesweeperAI.t) :
  tracked X self → tracked X (MinesweeperAI.mark_safe c self).
Proof.
  intros (s & Hs & Hsub & Hcov). exists (Sentence.mark_safe c s).
  rewrite cells_mark_safe. simpl. split; [|split; [set_solver|]].
  - destruct Hs as [Hs|Hs]; [|right; set_solver].
    left. apply list_elem_of_fmap. by exists s.
  - intros x Hx. destruct (decide (x = c)) as [->|Hne]; [set_solver|].
    specialize (Hcov x Hx). set_solver.
Qed.

Lemma mark_pass_tracked (X : gset Cell) (self : MinesweeperAI.t) :
  tracked X self → tracked X (MinesweeperAI.mark_pass self).1.
Proof.
  intros Ht.
  apply (mark_pass_ind (λ st, tracked X st.1)); [done| |].
  - intros st s Hst _. apply (mark_all_ind (λ st, tracked X st.1)); [done|].
    intros st' c _ Hst'. simpl. by apply tracked_mark_mine.
  - intros st s Hst _. apply (mark_all_ind (λ st, tracked X st.1)); [done|].
    intros st' c _ Hst'. simpl. by apply tracked_mark_safe.
Qed.

Lemma closure_pass_tracked (X : gset Cell) (self : MinesweeperAI.t) :
  tracked X self → tracked X (MinesweeperAI.closure_pass self).1.
Proof.
  intros Ht%mark_pass_tracked. rewrite closure_pass_unfold. simpl.
  revert Ht. apply tracked_mono; simpl; [|done..].
  intros s Hs _. apply elem_of_append_new. by left.
Qed.

Lemma closure_tracked (X : gset Cell) (fuel : nat) (self self' : MinesweeperAI.t) :
  tracked X self → MinesweeperAI.closure fuel self = OK self' → tracked X self'.
Proof.
  revert self. induction fuel as [|fuel IH]; intros self Ht; simpl; [done|].
  apply closure_pass_tracked in Ht.
  destruct (MinesweeperAI.closure_pass self) as [self1 stop]; simpl in Ht.
  destruct stop; [by intros [= <-] | by apply IH].
Qed.

Lemma tidy_tracked (X : gset Cell) (fuel : nat) (self self' : MinesweeperAI.t) :
  tracked X self → MinesweeperAI.tidy fuel self = OK self' → tracked X self'.
Proof.
  intros Ht ->%tidy_spec. revert Ht. apply tracked_mono; simpl; [|done..].
  intros s Hs Hne. apply first_occurrences_elem, list_elem_of_filter. done.
Qed.

Lemma observe_tracked (X : gset Cell) (cell : Cell) (count : Z)
    (self self' : MinesweeperAI.t) :
  tracked X self → MinesweeperAI.observe cell count self = OK self' →
  tracked X self'.
Proof.
  unfold MinesweeperAI.observe. intros Ht (acc & _ & H)%bind_OK.
  inversion H; subst; clear H.
  set (self0 := MinesweeperAI.with_safes _ _).
  assert (Ht0 : tracked X self0).
  { revert Ht. apply tracked_mono; simpl; [done|set_solver|done]. }
  apply (tracked_mark_safe X cell) in Ht0.
  revert Ht0. apply tracked_mono; simpl; [|done..].
  intros s Hs _. apply elem_of_app. by left.
Qed.

Lemma observe_tracks (cell : Cell) (count : Z) (self self' : MinesweeperAI.t) :
  MinesweeperAI.observe cell count self = OK self' →
  tracked (MinesweeperAI.surrounding_cells self cell) self'.
Proof.
  unfold MinesweeperAI.observe. cbv zeta.
  set (self0 := MinesweeperAI.with_moves_made
                  ({[cell]} ∪ MinesweeperAI.moves_made self) self).
  set (self1 := MinesweeperAI.mark_safe cell
                  (MinesweeperAI.with_safes ({[cell]} ∪ MinesweeperAI.safes self0)
                     self0)).
  assert (Hsur : MinesweeperAI.surrounding_cells self1 cell
                 = MinesweeperAI.surrounding_cells self cell).
  { by apply surrounding_cells_size. }
  rewrite Hsur. intros (acc & Hacc & H)%bind_OK.
  inversion H; subst; clear H.
  apply sentence_fold_cells in Hacc. simpl in Hacc.
  rewrite list_to_set_elements_L in Hacc.
  exists (Sentence.Sentence acc.1 acc.2). simpl. split; [|split].
  - left. apply elem_of_app. right. by apply list_elem_of_singleton.
  - rewrite Hacc. set_solver.
  - rewrite Hacc. intros x Hx.
    destruct (decide (x ∈ MinesweeperAI.mines self)) as [Hm|Hm]; [set_solver|].
    destruct (decide (x ∈ {[cell]} ∪ ({[cell]} ∪ MinesweeperAI.safes self)))
      as [Hsa|Hsa]; [set_solver|].
    apply elem_of_union; left. apply elem_of_union; left.
    apply elem_of_difference. split; [done|]. set_solver.
Qed.

Lemma add_knowledge_tracked (X : gset Cell) (fuel : nat) (cell : Cell) (count : Z)
    (self self' : MinesweeperAI.t) :
  tracked X self → MinesweeperAI.add_knowledge fuel cell count self = OK self' →
  tracked X self'.
Proof.
  intros Ht (observed & closed & Ho & Hc & Hti)%add_knowledge_stages.
  eauto using observe_tracked, closure_tracked, tidy_tracked.
Qed.

Lemma add_knowledge_tracks (fuel : nat) (cell : Cell) (count : Z)
    (self self' : MinesweeperAI.t) :
  MinesweeperAI.add_knowledge fuel cell count self = OK self' →
  tracked (MinesweeperAI.surrounding_cells self cell) self'.
Proof.
  intros (observed & closed & Ho & Hc & Hti)%add_knowledge_stages.
  eauto using observe_tracks, closure_tracked, tidy_tracked.
Qed.

Lemma played_tracked (g : Minesweeper.t) (self : MinesweeperAI.t) (cell : Cell) :
  played g self → cell ∈ MinesweeperAI.moves_made self →
  tracked (MinesweeperAI.surrounding_cells self cell) self.
Proof.
  induction 1 as [|fuel c count self self' _ IH Hv Hadd]; simpl.
  - intros Hin. by apply elem_of_empty in Hin.
  - pose proof (add_knowledge_extends _ _ _ _ _ Hadd) as (Hh & Hw & _).
    rewrite (surrounding_cells_size self' self cell) by done.
    rewrite (proj1 (add_knowledge_moves _ _ _ _ _ Hadd)).
    destruct (decide (cell = c)) as [->|Hne].
    + intros _. by eapply add_knowledge_tracks.
    + intros Hin. eapply add_knowledge_tracked; [|done]. apply IH. set_solver.
Qed.

Lemma played_clean (g : Minesweeper.t) (self : MinesweeperAI.t) :
  played g self → clean self.
Proof.
  induction 1 as [|fuel c count self self' _ IH Hv Hadd].
  - intros s Hs. by apply elem_of_nil in Hs.
  - by eapply add_knowledge_clean.
Qed.

Lemma played_undecided (g : Minesweeper.t) (self : MinesweeperAI.t) (s : Sentence.t) :
  played g self → s ∈ MinesweeperAI.knowledge self →
  Sentence.count s ≠ 0 ∧ Z.of_nat (size (Sentence.cells s)) ≠ Sentence.count s.
Proof.
  destruct 1 as [|fuel c count self self' _ Hv Hadd]; simpl.
  - intros Hs. by apply elem_of_nil in Hs.
  - apply add_knowledge_stages in Hadd as (observed & closed & Ho & Hc & Ht).
    destruct (closure_saturated _ _ _ Hc) as [Hidle _].
    apply tidy_spec in Ht as ->. simpl.
    intros [Hne Hs]%first_occurrences_elem%list_elem_of_filter.
    by apply idle_nonempty; [apply Hidle|].
Qed.

Lemma mines_in_zero (g : Minesweeper.t) (X : gset Cell) :
  (∀ c, c ∈ X → Minesweeper.mine_at g c = false) → mines_in g X = 0.
Proof.
  intros HX. unfold mines_in.
  replace (filter (λ c, Minesweeper.mine_at g c = true) X) with (∅ : gset Cell).
  - by rewrite size_empty.
  - apply set_eq. intros x. rewrite elem_of_filter. split; [set_solver|].
    intros [Hx Hin]. specialize (HX x Hin). congruence.
Qed.

Lemma mines_in_full (g : Minesweeper.t) (X : gset Cell) :
  (∀ c, c ∈ X → Minesweeper.mine_at g c = true) →
  mines_in g X = Z.of_nat (size X).
Proof.
  intros HX. unfold mines_in.
  replace (filter (λ c, Minesweeper.mine_at g c = true) X) with X; [done|].
  apply set_eq. intros x. rewrite elem_of_filter. split; [|by intros []].
  intros Hx. split; [by apply HX|done].
Qed.

(** X17: in a game played by the rules, look at any cell that was revealed
    to the agent and at its neighbours on the board.  Either every
    neighbour is in [safes] or in [mines], or the neighbours that are in
    neither set form a sentence of the knowledge base, with the true number
    of mines among them, which is neither zero nor all of them.  So a cell
    with no mine around it has all its neighbours in [safes], and a cell
    with mines all around it has all its neighbours in [mines]. *)
Theorem neighbours_resolved (g : Minesweeper.t) (self : MinesweeperAI.t)
    (cell : Cell) :
  played g self → cell ∈ MinesweeperAI.moves_made self →
  (MinesweeperAI.surrounding_cells self cell
     ⊆ MinesweeperAI.safes self ∪ MinesweeperAI.mines self
   ∨ (Sentence.Sentence
        (MinesweeperAI.surrounding_cells self cell
           ∖ (MinesweeperAI.safes self ∪ MinesweeperAI.mines self))
        (mines_in g (MinesweeperAI.surrounding_cells self cell
                       ∖ (MinesweeperAI.safes self ∪ MinesweeperAI.mines self)))
        ∈ MinesweeperAI.knowledge self
      ∧ 0 < mines_in g (MinesweeperAI.surrounding_cells self cell
                          ∖ (MinesweeperAI.safes self ∪ MinesweeperAI.mines self))
          < Z.of_nat (size (MinesweeperAI.surrounding_cells self cell
                              ∖ (MinesweeperAI.safes self ∪ MinesweeperAI.mines self)))))
  ∧ (Minesweeper.nearby_mines g cell = OK 0 →
     MinesweeperAI.surrounding_cells self cell ⊆ MinesweeperAI.safes self)
  ∧ (Minesweeper.nearby_mines g cell
     = OK (Z.of_nat (size (MinesweeperAI.surrounding_cells self cell))) →
     MinesweeperAI.surrounding_cells self cell ⊆ MinesweeperAI.mines self).
Proof.
  intros Hp Hin.
  pose proof (played_sound g self Hp) as (Hh & Hw & Hmi & Hsa & Hkb).
  set (N := MinesweeperAI.surrounding_cells self cell).
  set (U := N ∖ (MinesweeperAI.safes self ∪ MinesweeperAI.mines self)).
  assert (Hfirst : N ⊆ MinesweeperAI.safes self ∪ MinesweeperAI.mines self
                   ∨ (Sentence.Sentence U (mines_in g U) ∈ MinesweeperAI.knowledge self
                      ∧ 0 < mines_in g U < Z.of_nat (size U))).
  { destruct (played_tracked g self cell Hp Hin) as (s & Hs & Hsub & Hcov).
    fold N in Hsub, Hcov.
    destruct Hs as [Hs|Hs]; [|left; set_solver].
    pose proof (played_clean g self Hp s Hs) as Hcl.
    assert (HU : Sentence.cells s = U) by (unfold U; set_solver).
    right. specialize (Hkb s Hs). unfold truthful in Hkb.
    destruct (played_undecided g self s Hp Hs) as [H0 Hsz].
    pose proof (mines_in_bounds g U) as Hb.
    rewrite HU in Hkb, Hsz. split; [|lia].
    rewrite <- Hkb, <- HU. by destruct s. }
  split; [exact Hfirst|]. split.
  - intros Hn. apply (nearby_mines_surrounding g self cell 0 Hh Hw) in Hn.
    fold N in Hn. symmetry in Hn.
    assert (Hnone : ∀ c, c ∈ N → Minesweeper.mine_at g c = false).
    { intros c. by apply mines_in_none. }
    assert (HN : N ⊆ MinesweeperAI.safes self ∪ MinesweeperAI.mines self).
    { destruct Hfirst as [HN|[_ Hpos]]; [done|].
      rewrite (mines_in_zero g U) in Hpos; [lia|].
      intros c Hc. apply Hnone. unfold U in Hc. set_solver. }
    intros c Hc. pose proof (HN c Hc) as Hc'.
    apply elem_of_union in Hc' as [Hs|Hm]; [done|].
    specialize (Hmi c Hm). specialize (Hnone c Hc). congruence.
  - intros Hn.
    apply (nearby_mines_surrounding g self cell _ Hh Hw) in Hn. fold N in Hn.
    assert (Hall : ∀ c, c ∈ N → Minesweeper.mine_at g c = true).
    { intros c. by apply mines_in_all. }
    assert (HN : N ⊆ MinesweeperAI.safes self ∪ MinesweeperAI.mines self).
    { destruct Hfirst as [HN|[_ Hpos]]; [done|].
      rewrite (mines_in_full g U) in Hpos; [lia|].
      intros c Hc. apply Hall. unfold U in Hc. set_solver. }
    intros c Hc. pose proof (HN c Hc) as Hc'.
    apply elem_of_union in Hc' as [Hs|Hm]; [|done].
    specialize (Hsa c Hs). specialize (Hall c Hc). congruence.
Qed.

Lemma neighbours_resolved_witness :
  played board33 agent33_2
  ∧ (2, 2) ∈ MinesweeperAI.moves_made agent33_2
  ∧ MinesweeperAI.surrounding_cells agent33_2 (2, 2) ⊆ MinesweeperAI.safes agent33_2.
Proof.
  assert (Hin : (2, 2) ∈ MinesweeperAI.moves_made agent33_2).
  { apply (bool_decide_unpack _). vm_compute. exact I. }
  split; [exact played_agent33_2|]. split; [exact Hin|].
  apply (neighbours_resolved board33 agent33_2 (2, 2) played_agent33_2 Hin).
  vm_compute. reflexivity.
Defined.
